(** * PPR: Personalized PageRank over a transaction graph

    A shallow embedding of the computation core of the repository:

    - [src/backend/infrastructure/graph.py]  (class [SparseGraph]),
    - [src/backend/domain/strategies.py]     (dangling-node and personalization
      strategies),
    - [src/backend/domain/pagerank.py]       (class [PowerIterationEngine]).

    Conventions of the embedding.

    - A Python [float] is an exact rational ([Q]): the development is about the
      algorithm, not about rounding.  Where a statement is refuted on a
      concrete input, the input is chosen so that every intermediate value is
      a dyadic rational, which IEEE doubles compute exactly as well.
    - A numpy vector is a [list Q], a two-dimensional array is the list of its
      rows.  A scipy sparse matrix is modelled by the array it denotes: every
      operation the source applies to one ([multiply], [sum(axis=0)], column
      slicing) is defined by the values of that array.
    - numpy and scipy refuse operands whose shapes disagree (ValueError).
      The vector operations below are total and trim to the shorter operand;
      statements that depend on shapes carry the shapes of the operands as
      hypotheses.
    - Where what the program returns turns on how a float product is rounded
      (the order of the ranking), the rounded operation is a parameter of
      the embedding and the statements hold for every such operation.
    - A Python [dict] is an association list in insertion order with pairwise
      distinct keys ([Py.dict]).
    - A Python [str] is a [string] whose characters are the code points
      below 256; white space is what [str.isspace] accepts among them (the
      ASCII white space, U+0085 and U+00A0).  The text of a float
      ([f"{weight}"]) and its reading ([float(text)]) are parameters of the
      text format.
    - Mutable objects are threaded explicitly; an exception is a [Py.Raise].

    The embedding comes first (modules [Py], [Np], [Strategies], [Engine],
    [Graph], [Ranking], [GraphViews]), then the vocabulary of the statements,
    then the proofs. *)

From Stdlib Require Import String Ascii QArith Qabs Qminmax ZArith List Bool.
From Stdlib Require Import Lia Lqa DecimalString.
From Stdlib Require Import Qpower Permutation Sorted.
Import ListNotations.

Set Implicit Arguments.

(* ------------------------------------------------------------------ *)
(** * Python values: exceptions, dictionaries, list updates            *)
(* ------------------------------------------------------------------ *)

Module Py.

Inductive exn : Type :=
| AttributeError
| IndexError
| KeyError
| TypeError
| ValueError
| ZeroDivisionError.

Inductive result (A : Type) : Type :=
| Ok (a : A)
| Raise (e : exn).

Arguments Ok {A} a.
Arguments Raise {A} e.

Definition bind {A B : Type} (c : result A) (k : A -> result B) : result B :=
  match c with
  | Ok a => k a
  | Raise e => Raise e
  end.

Class EqKey (K : Type) := key_dec : forall x y : K, {x = y} + {x <> y}.

#[export] Instance EqKey_string : EqKey string := string_dec.
#[export] Instance EqKey_nat : EqKey nat := Nat.eq_dec.

(** An insertion-ordered dictionary. *)
Definition dict (K V : Type) : Type := list (K * V).

Section Dict.
Context {K V : Type} `{EqKey K}.

(** [d.get(k)] *)
Fixpoint get (d : dict K V) (k : K) : option V :=
  match d with
  | [] => None
  | (k', v) :: d' => if key_dec k k' then Some v else get d' k
  end.

(** [k in d] *)
Definition mem (d : dict K V) (k : K) : bool :=
  match get d k with Some _ => true | None => false end.

(** [d[k] = v]: an existing key keeps its place, a new key goes last. *)
Fixpoint set (d : dict K V) (k : K) (v : V) : dict K V :=
  match d with
  | [] => [(k, v)]
  | (k', v') :: d' =>
      if key_dec k k' then (k', v) :: d' else (k', v') :: set d' k v
  end.

(** [del d[k]]; the caller checks that the key is there. *)
Fixpoint del (d : dict K V) (k : K) : dict K V :=
  match d with
  | [] => []
  | (k', v') :: d' => if key_dec k k' then d' else (k', v') :: del d' k
  end.

Definition keys (d : dict K V) : list K := map fst d.

End Dict.

(** [xs[i] = x] on a list that is long enough. *)
Fixpoint list_set {A : Type} (xs : list A) (i : nat) (x : A) : list A :=
  match xs, i with
  | [], _ => []
  | _ :: xs', O => x :: xs'
  | y :: xs', S i' => y :: list_set xs' i' x
  end.

(** [enumerate(xs)] *)
Definition enumerate {A : Type} (xs : list A) : list (nat * A) :=
  combine (seq 0 (length xs)) xs.

(** [{k: v for k, v in kvs}] *)
Definition dict_of {K V : Type} `{EqKey K} (kvs : list (K * V)) : dict K V :=
  fold_left (fun d kv => set d (fst kv) (snd kv)) kvs [].

(** A dictionary argument is truthy when it is given and not empty. *)
Definition truthy {K V : Type} (d : option (dict K V)) : bool :=
  match d with
  | Some (_ :: _) => true
  | _ => false
  end.

Definition items {K V : Type} (d : option (dict K V)) : list (K * V) :=
  match d with
  | Some kvs => kvs
  | None => []
  end.

End Py.

Notation "x <- c ;; k" := (Py.bind c (fun x => k))
  (at level 61, c at next level, right associativity).

(* ------------------------------------------------------------------ *)
(** * numpy: vectors and matrices over exact rationals                 *)
(* ------------------------------------------------------------------ *)

Module Np.

Definition vec : Type := list Q.
Definition matrix : Type := list vec.

Definition Qltb (x y : Q) : bool := negb (Qle_bool y x).

Fixpoint map2 {A B C : Type} (f : A -> B -> C) (xs : list A) (ys : list B)
  : list C :=
  match xs, ys with
  | x :: xs', y :: ys' => f x y :: map2 f xs' ys'
  | _, _ => []
  end.

Definition zeros (n : nat) : vec := repeat 0%Q n.
Definition ones (n : nat) : vec := repeat 1%Q n.
Definition of_nat (n : nat) : Q := inject_Z (Z.of_nat n).

Definition vscale (a : Q) (v : vec) : vec := map (Qmult a) v.
Definition vdiv (v : vec) (a : Q) : vec := map (fun x => (x / a)%Q) v.
Definition vadd (u v : vec) : vec := map2 Qplus u v.
Definition vsub (u v : vec) : vec := map2 Qminus u v.
Definition vmul (u v : vec) : vec := map2 Qmult u v.

(** [np.sum(v)] *)
Definition vsum (v : vec) : Q := fold_right Qplus 0%Q v.

(** [np.linalg.norm(v, ord=1)] *)
Definition norm1 (v : vec) : Q := vsum (map Qabs v).

Definition dot (u v : vec) : Q := vsum (vmul u v).

(** [M @ r] *)
Definition matvec (M : matrix) (r : vec) : vec := map (fun row => dot row r) M.

(** [M * W], elementwise *)
Definition mmul (M W : matrix) : matrix := map2 vmul M W.

Definition nrows (M : matrix) : nat := length M.
Definition ncols (M : matrix) : nat :=
  match M with
  | [] => 0
  | row :: _ => length row
  end.

(** [M[:, j]] *)
Definition column (M : matrix) (j : nat) : vec := map (fun row => nth j row 0%Q) M.

(** [M[:, j] = c] *)
Definition set_column (M : matrix) (j : nat) (c : vec) : matrix :=
  map2 (fun row x => Py.list_set row j x) M c.

(** [M.sum(axis=0)] *)
Definition sum_axis0 (M : matrix) : vec :=
  map (fun j => vsum (column M j)) (seq 0 (ncols M)).

(** [np.where(mask)[0]] *)
Definition where_true (mask : list bool) : list nat :=
  map fst (filter snd (Py.enumerate mask)).

(** [v[mask]] *)
Definition select (v : vec) (mask : list bool) : vec :=
  map fst (filter snd (combine v mask)).

(** [np.any(mask)] *)
Definition any (mask : list bool) : bool := existsb (fun b => b) mask.

(** [np.eye(n)] *)
Definition eye (n : nat) : matrix :=
  map (fun i => map (fun j => if Nat.eqb i j then 1%Q else 0%Q) (seq 0 n)) (seq 0 n).

(** [M[:, idx]] for an index list *)
Definition take_columns (M : matrix) (idx : list nat) : matrix :=
  map (fun row => map (fun j => nth j row 0%Q) idx) M.

(** Pointwise equality of rational vectors. *)
Definition veq (u v : vec) : Prop := Forall2 Qeq u v.

End Np.

(* ------------------------------------------------------------------ *)
(** * strategies.py                                                    *)
(* ------------------------------------------------------------------ *)

Module Strategies.
Import Py Np.

(** The two abstract base classes: an object is the record of its methods.
    ([get_description] only formats a message and is left out.) *)
Record BaseDanglingNodeStrategy : Type := {
  handle_dangling_nodes : matrix -> list bool -> result matrix
}.

Record BasePersonalizationStrategy : Type := {
  compute_personalization_vector :
    list string -> option (dict string Q) -> option (dict string Q) -> vec
}.

(** [M[i, :] = x] for a scalar [x]; numpy raises IndexError past the last row. *)
Definition set_row_scalar (M : matrix) (i : nat) (x : Q) : result matrix :=
  if Nat.ltb i (nrows M)
  then Ok (list_set M i (map (fun _ => x) (nth i M [])))
  else Raise IndexError.

(** [M[i, :] = v] for a vector [v]: it must have the row's length, or length 1
    (broadcast); numpy raises ValueError otherwise. *)
Definition set_row_vec (M : matrix) (i : nat) (v : vec) : result matrix :=
  if Nat.ltb i (nrows M) then
    let w := length (nth i M []) in
    if Nat.eqb (length v) w then Ok (list_set M i v)
    else if Nat.eqb (length v) 1 then Ok (list_set M i (repeat (nth 0 v 0%Q) w))
    else Raise ValueError
  else Raise IndexError.

(** [UniformDanglingStrategy.handle_dangling_nodes] *)
Definition uniform_handle_dangling_nodes
    (transition_matrix : matrix) (dangling_mask : list bool) : result matrix :=
  let n := nrows transition_matrix in
  let adjusted_matrix := transition_matrix in
  fold_left
    (fun acc i =>
       adjusted_matrix <- acc ;;
       if Nat.eqb n 0 then Raise ZeroDivisionError
       else set_row_scalar adjusted_matrix i (1 / of_nat n)%Q)
    (where_true dangling_mask) (Ok adjusted_matrix).

Definition UniformDanglingStrategy : BaseDanglingNodeStrategy :=
  {| handle_dangling_nodes := uniform_handle_dangling_nodes |}.

(** [TeleportDanglingStrategy.handle_dangling_nodes] *)
Definition teleport_handle_dangling_nodes (personalization_vector : option vec)
    (transition_matrix : matrix) (dangling_mask : list bool) : result matrix :=
  let n := nrows transition_matrix in
  let adjusted_matrix := transition_matrix in
  let personalization :=
    match personalization_vector with
    | None => vdiv (ones n) (of_nat n)
    | Some v => v
    end in
  fold_left
    (fun acc i =>
       adjusted_matrix <- acc ;;
       set_row_vec adjusted_matrix i personalization)
    (where_true dangling_mask) (Ok adjusted_matrix).

Definition TeleportDanglingStrategy (personalization_vector : option vec)
  : BaseDanglingNodeStrategy :=
  {| handle_dangling_nodes := teleport_handle_dangling_nodes personalization_vector |}.

(** [{node_id: i for i, node_id in enumerate(node_ids)}] *)
Definition node_to_idx_of (node_ids : list string) : dict string nat :=
  dict_of (map (fun ix => (snd ix, fst ix)) (enumerate node_ids)).

(** [SuspicionBasedPersonalization.compute_personalization_vector] *)
Definition suspicion_compute_personalization_vector (suspicion_weight : Q)
    (node_ids : list string)
    (suspicious_nodes base_weights : option (dict string Q)) : vec :=
  let n := length node_ids in
  let node_to_idx := node_to_idx_of node_ids in
  let personalization := vdiv (ones n) (of_nat n) in
  let personalization :=
    if truthy base_weights then
      fold_left
        (fun pers kv =>
           match get node_to_idx (fst kv) with
           | Some idx => list_set pers idx (snd kv)
           | None => pers
           end)
        (items base_weights) personalization
    else personalization in
  let personalization :=
    if truthy suspicious_nodes then
      fold_left
        (fun pers kv =>
           match get node_to_idx (fst kv) with
           | Some idx =>
               let boost := (1 + (suspicion_weight - 1) * snd kv)%Q in
               list_set pers idx (nth idx pers 0 * boost)%Q
           | None => pers
           end)
        (items suspicious_nodes) personalization
    else personalization in
  let total := vsum personalization in
  if Qltb 0 total then vdiv personalization total else personalization.

(** The constructor floors the weight: [max(1.0, suspicion_weight)]. *)
Definition SuspicionBasedPersonalization (suspicion_weight : Q)
  : BasePersonalizationStrategy :=
  {| compute_personalization_vector :=
       suspicion_compute_personalization_vector (Qmax 1 suspicion_weight) |}.

(** [TransactionVolumePersonalization.compute_personalization_vector] *)
Definition volume_compute_personalization_vector
    (node_ids : list string)
    (suspicious_nodes base_weights : option (dict string Q)) : vec :=
  let n := length node_ids in
  if negb (truthy base_weights) then vdiv (ones n) (of_nat n)
  else
    let node_to_idx := node_to_idx_of node_ids in
    let personalization := zeros n in
    let '(personalization, total_weight) :=
      fold_left
        (fun st kv =>
           match get node_to_idx (fst kv) with
           | Some idx => (list_set (fst st) idx (snd kv), (snd st + snd kv)%Q)
           | None => st
           end)
        (items base_weights) (personalization, 0%Q) in
    let personalization :=
      if truthy suspicious_nodes then
        fold_left
          (fun pers kv =>
             match get node_to_idx (fst kv) with
             | Some idx =>
                 list_set pers idx
                   (nth idx pers 0 + snd kv * total_weight / of_nat n)%Q
             | None => pers
             end)
          (items suspicious_nodes) personalization
      else personalization in
    let total := vsum personalization in
    if Qltb 0 total then vdiv personalization total
    else vdiv (ones n) (of_nat n).

Definition TransactionVolumePersonalization : BasePersonalizationStrategy :=
  {| compute_personalization_vector := volume_compute_personalization_vector |}.

End Strategies.

(* ------------------------------------------------------------------ *)
(** * pagerank.py                                                      *)
(* ------------------------------------------------------------------ *)

Module Engine.
Import Py Np Strategies.

Record PowerIterationEngine : Type := {
  damping_factor : Q;
  max_iterations : Z;
  tolerance : Q;
  dangling_strategy : BaseDanglingNodeStrategy;
  personalization_strategy : BasePersonalizationStrategy;
  (* cache for computed values *)
  _transition_matrix : option matrix;
  _personalization_vector : option vec;
  _page_rank : option vec;
  _iterations_performed : Z;
  _converged : bool
}.

(** [PowerIterationEngine.__init__] *)
Definition __init__ (damping_factor : Q) (max_iterations : Z) (tolerance : Q)
    (dangling_strategy : option BaseDanglingNodeStrategy)
    (personalization_strategy : option BasePersonalizationStrategy)
  : result PowerIterationEngine :=
  if negb (Qltb 0 damping_factor && Qltb damping_factor 1)
  then Raise ValueError
  else Ok {| damping_factor := damping_factor;
             max_iterations := max_iterations;
             tolerance := tolerance;
             dangling_strategy :=
               match dangling_strategy with
               | Some s => s
               | None => UniformDanglingStrategy
               end;
             personalization_strategy :=
               match personalization_strategy with
               | Some s => s
               | None => SuspicionBasedPersonalization 5
               end;
             _transition_matrix := None;
             _personalization_vector := None;
             _page_rank := None;
             _iterations_performed := 0;
             _converged := false |}.

(** Assignments to the cache attributes. *)
Definition set_transition_matrix (e : PowerIterationEngine) (m : matrix) :=
  {| damping_factor := damping_factor e; max_iterations := max_iterations e;
     tolerance := tolerance e; dangling_strategy := dangling_strategy e;
     personalization_strategy := personalization_strategy e;
     _transition_matrix := Some m;
     _personalization_vector := _personalization_vector e;
     _page_rank := _page_rank e;
     _iterations_performed := _iterations_performed e;
     _converged := _converged e |}.

Definition set_personalization_vector (e : PowerIterationEngine) (p : vec) :=
  {| damping_factor := damping_factor e; max_iterations := max_iterations e;
     tolerance := tolerance e; dangling_strategy := dangling_strategy e;
     personalization_strategy := personalization_strategy e;
     _transition_matrix := _transition_matrix e;
     _personalization_vector := Some p;
     _page_rank := _page_rank e;
     _iterations_performed := _iterations_performed e;
     _converged := _converged e |}.

Definition set_page_rank (e : PowerIterationEngine) (r : vec) :=
  {| damping_factor := damping_factor e; max_iterations := max_iterations e;
     tolerance := tolerance e; dangling_strategy := dangling_strategy e;
     personalization_strategy := personalization_strategy e;
     _transition_matrix := _transition_matrix e;
     _personalization_vector := _personalization_vector e;
     _page_rank := Some r;
     _iterations_performed := _iterations_performed e;
     _converged := _converged e |}.

Definition set_convergence (e : PowerIterationEngine) (c : bool) (it : Z) :=
  {| damping_factor := damping_factor e; max_iterations := max_iterations e;
     tolerance := tolerance e; dangling_strategy := dangling_strategy e;
     personalization_strategy := personalization_strategy e;
     _transition_matrix := _transition_matrix e;
     _personalization_vector := _personalization_vector e;
     _page_rank := _page_rank e;
     _iterations_performed := it;
     _converged := c |}.

(** The column normalisation of [build_transition_matrix] (lines 84-93):
    a zero matrix whose column [j] becomes [weighted_adj[:, j] / out_degree[j]]
    where [out_degree[j] > 0]. *)
Definition normalize_columns (n : nat) (weighted_adj : matrix) (out_degree : vec)
  : matrix :=
  fold_left
    (fun transition_matrix j =>
       if Qltb 0 (nth j out_degree 0%Q)
       then set_column transition_matrix j
              (vdiv (column weighted_adj j) (nth j out_degree 0%Q))
       else transition_matrix)
    (seq 0 n) (repeat (zeros n) n).

(** [out_degree == 0] *)
Definition is_zero (out_degree : vec) : list bool :=
  map (fun d => Qeq_bool d 0) out_degree.

(** [PowerIterationEngine.build_transition_matrix] *)
Definition build_transition_matrix (self : PowerIterationEngine)
    (adjacency_matrix : matrix) (weights : option matrix)
  : PowerIterationEngine * result matrix :=
  let n := nrows adjacency_matrix in
  let weighted_adj :=
    match weights with
    | Some w => mmul adjacency_matrix w
    | None => adjacency_matrix
    end in
  let out_degree := sum_axis0 weighted_adj in
  let dangling_mask := is_zero out_degree in
  let transition_matrix := normalize_columns n weighted_adj out_degree in
  match handle_dangling_nodes (dangling_strategy self) transition_matrix dangling_mask with
  | Ok transition_matrix =>
      (set_transition_matrix self transition_matrix, Ok transition_matrix)
  | Raise e => (self, Raise e)
  end.

(** [PowerIterationEngine.compute_personalization_vector] *)
Definition compute_personalization_vector (self : PowerIterationEngine)
    (node_ids : list string)
    (suspicious_nodes base_weights : option (dict string Q))
  : PowerIterationEngine * vec :=
  let personalization :=
    Strategies.compute_personalization_vector (personalization_strategy self)
      node_ids suspicious_nodes base_weights in
  (set_personalization_vector self personalization, personalization).

(** The [graph] argument of the dense entry point is any object: attribute
    lookup by name finds nothing ([None], an AttributeError), a method
    [get_normalized_matrix] taking no argument (given by the triple it
    returns), a dictionary from node ids to indices, or some other value. *)
Inductive attr_value : Type :=
| NormalizedMatrixMethod (returns : matrix * list bool * list string)
| NodeIndex (d : dict string nat)
| OtherValue.

Definition GraphObject : Type := string -> option attr_value.

(** The body of the dense loop (lines 146-149). *)
Definition dense_step (damping_factor : Q) (matrix_ : matrix)
    (dangling_mask : list bool) (p r_prev : vec) : vec :=
  let dangling_sum := vsum (select r_prev dangling_mask) in
  let r := vscale (1 - damping_factor) (matvec matrix_ r_prev) in
  vadd r (vscale (damping_factor + (1 - damping_factor) * dangling_sum) p).

(** [for iteration in range(...)] of the dense path: [todo] iterations are
    left, [iteration] is the loop variable.  [Some k] reports a [break] that
    stored [iteration + 1 = k]. *)
Fixpoint dense_loop (damping_factor tolerance : Q) (matrix_ : matrix)
    (dangling_mask : list bool) (p : vec)
    (todo : nat) (iteration : Z) (r : vec) : vec * option Z :=
  match todo with
  | O => (r, None)
  | S todo' =>
      let r_prev := r in
      let r := dense_step damping_factor matrix_ dangling_mask p r_prev in
      let diff := norm1 (vsub r r_prev) in
      if Qltb diff tolerance then (r, Some (iteration + 1)%Z)
      else dense_loop damping_factor tolerance matrix_ dangling_mask p
             todo' (iteration + 1)%Z r
  end.

(** The seeding of [p] in the dense path (lines 130-134). *)
Definition dense_seed (graph : GraphObject) (n : nat)
    (suspicious_nodes : option (dict string Q)) : result vec :=
  if truthy suspicious_nodes then
    fold_left
      (fun acc kv =>
         p <- acc ;;
         match graph "_node_to_idx"%string with
         | None => Raise AttributeError
         | Some (NodeIndex node_to_idx) =>
             match get node_to_idx (fst kv) with
             | Some idx =>
                 if Nat.ltb idx (length p) then Ok (list_set p idx (snd kv))
                 else Raise IndexError
             | None => Ok p
             end
         | Some _ => Raise TypeError
         end)
      (items suspicious_nodes) (Ok (zeros n))
  else Ok (zeros n).

(** [{node_id: float(score) for node_id, score in zip(node_ids, r)}] *)
Definition score_dict (node_ids : list string) (r : vec) : dict string Q :=
  dict_of (combine node_ids r).

(** The dense entry point.  The source spells its name with U+0640 between
    [compute] and [_page_rank]; so does the embedding. *)
Definition computeـpage_rank (self : PowerIterationEngine) (graph : GraphObject)
    (suspicious_nodes : option (dict string Q))
  : PowerIterationEngine * result (dict string Q) :=
  match graph "get_normalized_matrix"%string with
  | None => (self, Raise AttributeError)
  | Some (NodeIndex _) | Some OtherValue => (self, Raise TypeError)
  | Some (NormalizedMatrixMethod (matrix_, dangling_mask, node_ids)) =>
      let n := length node_ids in
      match dense_seed graph n suspicious_nodes with
      | Raise e => (self, Raise e)
      | Ok p =>
          let p := if Qltb 0 (vsum p) then vdiv p (vsum p)
                   else vdiv (ones n) (of_nat n) in
          let r := p in
          let '(r, broke) :=
            dense_loop (damping_factor self) (tolerance self) matrix_
              dangling_mask p (Z.to_nat (max_iterations self)) 0 r in
          let self :=
            match broke with
            | Some k => set_convergence self true k
            | None => self
            end in
          (self, Ok (score_dict node_ids r))
      end
  end.

(** [get_convergence_info], without the two description strings. *)
Record ConvergenceInfo : Type := {
  converged : bool;
  iterations_performed : Z;
  info_damping_factor : Q;
  info_tolerance : Q
}.

Definition get_convergence_info (self : PowerIterationEngine) : ConvergenceInfo :=
  {| converged := _converged self;
     iterations_performed := _iterations_performed self;
     info_damping_factor := damping_factor self;
     info_tolerance := tolerance self |}.

(** The body of the sparse loop up to the damping (lines 284-300). *)
Definition sparse_step (damping_factor : Q) (n : nat) (weighted_adj_csc : matrix)
    (out_degree : vec) (dangling_mask : list bool) (dangling_teleport p r_prev : vec)
  : vec :=
  let rM := zeros n in
  let non_dangling := map (Qltb 0) out_degree in
  let rM :=
    if any non_dangling then
      fold_left
        (fun rM j =>
           let col := column weighted_adj_csc j in
           vadd rM (vscale (nth j r_prev 0%Q) (vdiv col (nth j out_degree 0%Q))))
        (where_true non_dangling) rM
    else rM in
  let rM :=
    if any dangling_mask then
      fold_left
        (fun rM j => vadd rM (vscale (nth j r_prev 0%Q) dangling_teleport))
        (where_true dangling_mask) rM
    else rM in
  vadd (vscale (1 - damping_factor) rM) (vscale damping_factor p).

(** [for iteration in range(...)] of the sparse path. *)
Fixpoint sparse_loop (damping_factor tolerance : Q) (n : nat)
    (weighted_adj_csc : matrix) (out_degree : vec) (dangling_mask : list bool)
    (dangling_teleport p : vec)
    (todo : nat) (iteration : Z) (r : vec) : vec * option Z :=
  match todo with
  | O => (r, None)
  | S todo' =>
      let r_prev := r in
      let r := sparse_step damping_factor n weighted_adj_csc out_degree
                 dangling_mask dangling_teleport p r_prev in
      let diff := norm1 (vsub r r_prev) in
      if Qltb diff tolerance then (r, Some (iteration + 1)%Z)
      else sparse_loop damping_factor tolerance n weighted_adj_csc out_degree
             dangling_mask dangling_teleport p todo' (iteration + 1)%Z r
  end.

(** [PowerIterationEngine.compute_sparse_page_rank].  Every strategy object
    has the method [handle_dangling_nodes], so the [hasattr] test of the
    source holds: the strategy is called on a dummy matrix, its result is
    dropped (an exception of the call is not), and the dangling mass is
    teleported through [p]. *)
Definition compute_sparse_page_rank (self : PowerIterationEngine)
    (node_ids : list string) (sparse_adjacency : matrix) (weights : option matrix)
    (suspicious_nodes base_weights : option (dict string Q))
  : PowerIterationEngine * result (dict string Q) :=
  let n := length node_ids in
  let weighted_adj :=
    match weights with
    | Some w => mmul sparse_adjacency w
    | None => sparse_adjacency
    end in
  let weighted_adj_csc := weighted_adj in
  let out_degree := sum_axis0 weighted_adj_csc in
  let dangling_mask := is_zero out_degree in
  let '(self, p) :=
    compute_personalization_vector self node_ids suspicious_nodes base_weights in
  let r := vdiv (ones n) (of_nat n) in
  let dangling_teleport :=
    if any dangling_mask then
      let dangling_indices := where_true dangling_mask in
      let dummy_matrix := take_columns (eye n) dangling_indices in
      handled <- handle_dangling_nodes (dangling_strategy self) dummy_matrix
                   (repeat true (length dangling_indices)) ;;
      Ok p
    else Ok (zeros n) in
  match dangling_teleport with
  | Raise e => (self, Raise e)
  | Ok dangling_teleport =>
      let '(r, broke) :=
        sparse_loop (damping_factor self) (tolerance self) n weighted_adj_csc
          out_degree dangling_mask dangling_teleport p
          (Z.to_nat (max_iterations self)) 0 r in
      let self :=
        match broke with
        | Some k => set_convergence self true k
        | None => set_convergence self false (max_iterations self)
        end in
      let self := set_page_rank self r in
      (self, Ok (score_dict node_ids r))
  end.

End Engine.

(* ------------------------------------------------------------------ *)
(** * graph.py                                                         *)
(* ------------------------------------------------------------------ *)

Module Graph.
Import Py.

Record SparseGraph : Type := {
  directed : bool;
  _adjacency_list : dict string (dict string Q);
  _node_to_idx : dict string nat;
  _idx_to_node : dict nat string;
  _edge_count : Z
}.

(** [SparseGraph.__init__] *)
Definition __init__ (directed : bool) : SparseGraph :=
  {| directed := directed;
     _adjacency_list := [];
     _node_to_idx := [];
     _idx_to_node := [];
     _edge_count := 0 |}.

(** [d[k]]: KeyError when the key is absent. *)
Definition getitem {K V : Type} `{EqKey K} (d : dict K V) (k : K) : result V :=
  match get d k with
  | Some v => Ok v
  | None => Raise KeyError
  end.

(** [SparseGraph.add_node] *)
Definition add_node (self : SparseGraph) (node_id : string) : SparseGraph :=
  if negb (mem (_adjacency_list self) node_id) then
    let idx := length (_adjacency_list self) in
    {| directed := directed self;
       _adjacency_list := set (_adjacency_list self) node_id [];
       _node_to_idx := set (_node_to_idx self) node_id idx;
       _idx_to_node := set (_idx_to_node self) idx node_id;
       _edge_count := _edge_count self |}
  else self.

(** [if k not in self._adjacency_list[a]: self._edge_count += 1] followed by
    [self._adjacency_list[a][k] = weight]. *)
Definition store_edge (self : SparseGraph) (a k : string) (weight : Q)
  : result SparseGraph :=
  neighbors <- getitem (_adjacency_list self) a ;;
  let edge_count :=
    if negb (mem neighbors k) then (_edge_count self + 1)%Z
    else _edge_count self in
  Ok {| directed := directed self;
        _adjacency_list := set (_adjacency_list self) a (set neighbors k weight);
        _node_to_idx := _node_to_idx self;
        _idx_to_node := _idx_to_node self;
        _edge_count := edge_count |}.

(** [SparseGraph.add_edge] *)
Definition add_edge (self : SparseGraph) (source target : string) (weight : Q)
  : result SparseGraph :=
  let self := add_node self source in
  let self := add_node self target in
  self <- store_edge self source target weight ;;
  if negb (directed self) && negb (String.eqb source target)
  then store_edge self target source weight
  else Ok self.

(** [del self._adjacency_list[a][k]] followed by [self._edge_count -= 1];
    either lookup raises KeyError on an absent key. *)
Definition drop_edge (self : SparseGraph) (a k : string) : result SparseGraph :=
  neighbors <- getitem (_adjacency_list self) a ;;
  if mem neighbors k then
    Ok {| directed := directed self;
          _adjacency_list := set (_adjacency_list self) a (del neighbors k);
          _node_to_idx := _node_to_idx self;
          _idx_to_node := _idx_to_node self;
          _edge_count := (_edge_count self - 1)%Z |}
  else Raise KeyError.

(** [SparseGraph.remove_edge] *)
Definition remove_edge (self : SparseGraph) (source target : string)
  : result (SparseGraph * bool) :=
  if match get (_adjacency_list self) source with
     | Some neighbors => mem neighbors target
     | None => false
     end
  then
    self <- drop_edge self source target ;;
    if negb (directed self) && negb (String.eqb source target)
    then self <- drop_edge self target source ;; Ok (self, true)
    else Ok (self, true)
  else Ok (self, false).

(** [SparseGraph.get_nodes] *)
Definition get_nodes (self : SparseGraph) : list string :=
  keys (_adjacency_list self).

(** [SparseGraph.get_edges] *)
Definition get_edges (self : SparseGraph) : list (string * string * Q) :=
  flat_map
    (fun sn => map (fun tw => (fst sn, fst tw, snd tw)) (snd sn))
    (_adjacency_list self).

(** The weight stored for the pair [(source, target)], if any. *)
Definition edge_weight (self : SparseGraph) (source target : string) : option Q :=
  match get (_adjacency_list self) source with
  | Some neighbors => get neighbors target
  | None => None
  end.

(** A sequence of calls on one graph object. *)
Inductive op : Type :=
| AddNode (node_id : string)
| AddEdge (source target : string) (weight : Q)
| RemoveEdge (source target : string).

Definition apply_op (self : SparseGraph) (o : op) : result SparseGraph :=
  match o with
  | AddNode node_id => Ok (add_node self node_id)
  | AddEdge source target weight => add_edge self source target weight
  | RemoveEdge source target =>
      r <- remove_edge self source target ;; Ok (fst r)
  end.

Fixpoint run (self : SparseGraph) (ops : list op) : result SparseGraph :=
  match ops with
  | [] => Ok self
  | o :: ops' => self <- apply_op self o ;; run self ops'
  end.

(** The attributes of a [SparseGraph] instance: those set by [__init__] and
    the methods of the class, in source order. *)
Definition SparseGraph_attributes : list string :=
  [ "directed"; "_adjacency_list"; "_node_to_idx"; "_idx_to_node"; "_edge_count";
    "__init__"; "add_node"; "add_edge"; "remove_edge"; "get_neighbors";
    "get_out_degree"; "get_in_degree"; "get_nodes"; "get_edges";
    "get_adjacency_matrix"; "get_sparse_adjacency_matrix"; "subgraph";
    "save_to_file"; "load_from_file"; "__str__"; "__len__";
    "to_sparse_matrix"; "get_dangling_nodes" ]%string.

(** Attribute lookup on a [SparseGraph] instance, as the dense entry point
    sees it. *)
Definition getattr (self : SparseGraph) : Engine.GraphObject :=
  fun name =>
    if String.eqb name "_node_to_idx" then Some (Engine.NodeIndex (_node_to_idx self))
    else if existsb (String.eqb name) SparseGraph_attributes
         then Some Engine.OtherValue
         else None.

(** ** Text format *)

Definition LF : ascii := "010"%char.
Definition CR : ascii := "013"%char.

(** [str.isspace] on one character below U+0100: the ASCII white space
    (codes 9 to 13 and 28 to 32), U+0085 and U+00A0. *)
Definition is_space (c : ascii) : bool :=
  let n := nat_of_ascii c in
  (Nat.leb 9 n && Nat.leb n 13) || (Nat.leb 28 n && Nat.leb n 32)
  || Nat.eqb n 133 || Nat.eqb n 160.

Fixpoint lstrip (s : string) : string :=
  match s with
  | EmptyString => EmptyString
  | String c s' => if is_space c then lstrip s' else s
  end.

Fixpoint rstrip (s : string) : string :=
  match s with
  | EmptyString => EmptyString
  | String c s' =>
      match rstrip s' with
      | EmptyString => if is_space c then EmptyString else String c EmptyString
      | r => String c r
      end
  end.

(** [s.strip()] *)
Definition strip (s : string) : string := lstrip (rstrip s).

(** [s.split(sep)] for a one-character separator. *)
Fixpoint split (sep : ascii) (s : string) : list string :=
  match s with
  | EmptyString => [EmptyString]
  | String c s' =>
      if Ascii.eqb c sep then EmptyString :: split sep s'
      else match split sep s' with
           | [] => [String c EmptyString]
           | part :: parts => String c part :: parts
           end
  end.

(** Reading in text mode turns "\r\n" and a lone "\r" into "\n". *)
Fixpoint universal_newlines (s : string) : string :=
  match s with
  | EmptyString => EmptyString
  | String c s' =>
      if Ascii.eqb c CR then
        match s' with
        | String c' s'' =>
            if Ascii.eqb c' LF then String LF (universal_newlines s'')
            else String LF (universal_newlines s')
        | EmptyString => String LF EmptyString
        end
      else String c (universal_newlines s')
  end.

(** The pieces of a text, each kept with its line feed; the last piece is
    what follows the last line feed. *)
Fixpoint pieces (s : string) : list string :=
  match s with
  | EmptyString => [EmptyString]
  | String c s' =>
      if Ascii.eqb c LF then String c EmptyString :: pieces s'
      else match pieces s' with
           | [] => [String c EmptyString]
           | l :: ls => String c l :: ls
           end
  end.

(** [f.readlines()] *)
Definition readlines (content : string) : list string :=
  filter (fun l => negb (String.eqb l EmptyString))
    (pieces (universal_newlines content)).

Definition bool_str (b : bool) : string :=
  if b then "True"%string else "False"%string.

(** [str(i)] for an integer. *)
Definition int_str (i : Z) : string := NilZero.string_of_int (Z.to_int i).

Definition nl : string := String LF EmptyString.

Section TextFormat.

(** The text of a float, [f"{weight}"], and [float(text)] ([None]: ValueError). *)
Variable fmt_float : Q -> string.
Variable parse_float : string -> option Q.

Definition edge_line (e : string * string * Q) : string :=
  (fst (fst e) ++ "," ++ snd (fst e) ++ "," ++ fmt_float (snd e) ++ nl)%string.

(** [SparseGraph.save_to_file]: the text written to the file. *)
Definition save_to_file (self : SparseGraph) : string :=
  (("directed:" ++ bool_str (directed self) ++ nl)
   ++ ("nodes:" ++ int_str (Z.of_nat (length (_adjacency_list self))) ++ nl)
   ++ ("edges:" ++ int_str (_edge_count self) ++ nl)
   ++ String.concat "" (map edge_line (get_edges self)))%string.

(** One iteration of the loop over [lines[3:]]. *)
Definition load_line (graph : SparseGraph) (line : string) : result SparseGraph :=
  if negb (String.eqb (strip line) EmptyString) then
    let parts := split "," (strip line) in
    if Nat.leb 2 (length parts) then
      let source := nth 0 parts EmptyString in
      let target := nth 1 parts EmptyString in
      weight <- (if Nat.ltb 2 (length parts)
                 then match parse_float (nth 2 parts EmptyString) with
                      | Some w => Ok w
                      | None => Raise ValueError
                      end
                 else Ok 1%Q) ;;
      add_edge graph source target weight
    else Ok graph
  else Ok graph.

(** [SparseGraph.load_from_file], on the text of the file. *)
Definition load_from_file (content : string) : result SparseGraph :=
  let lines := readlines content in
  match lines with
  | [] => Raise IndexError
  | line0 :: _ =>
      match split ":" (strip line0) with
      | _ :: flag :: _ =>
          let directed := String.eqb flag "True" in
          fold_left (fun acc line => graph <- acc ;; load_line graph line)
            (skipn 3 lines) (Ok (__init__ directed))
      | _ => Raise IndexError
      end
  end.

End TextFormat.

End Graph.

(* ------------------------------------------------------------------ *)
(** * pagerank.py: the ranking of fraud candidates                     *)
(* ------------------------------------------------------------------ *)

Module Ranking.
Import Py Np.

(** [xs.sort(key=key, reverse=True)].  Python's sort is stable, also under
    [reverse=True]: entries with equal keys keep their order.  There is one
    such arrangement of a list, and insertion from the right computes it. *)
Fixpoint insert_desc {A : Type} (key : A -> Q) (x : A) (l : list A) : list A :=
  match l with
  | [] => [x]
  | y :: l' =>
      if Qle_bool (key y) (key x) then x :: l else y :: insert_desc key x l'
  end.

Definition sort_desc {A : Type} (key : A -> Q) (l : list A) : list A :=
  fold_right (insert_desc key) [] l.

(** [xs[:k]]: a negative [k] counts from the end. *)
Definition slice_to {A : Type} (xs : list A) (k : Z) : list A :=
  if (0 <=? k)%Z then firstn (Z.to_nat k) xs
  else firstn (length xs - Z.to_nat (- k)) xs.

Section FloatProducts.

(** The order of the ranking turns on the float value of
    [pr_score * (1.0 + suspicion)]: the two float operations are parameters,
    and the exact sum and product are one instance. *)
Variable float_add : Q -> Q -> Q.
Variable float_mul : Q -> Q -> Q.

(** [PowerIterationEngine.get_top_fraud_candidates]; the method does not
    read the engine.  A candidate is the tuple
    [(node_id, pr_score, suspicion, combined_score)]. *)
Definition get_top_fraud_candidates (page_rank_scores : dict string Q)
    (top_k : Z) (suspicion_scores : option (dict string Q))
  : list (string * Q * Q) :=
  let candidates :=
    if truthy suspicion_scores then
      let candidates :=
        map (fun kv =>
               let suspicion :=
                 match get (items suspicion_scores) (fst kv) with
                 | Some s => s
                 | None => 0%Q
                 end in
               let combined_score := float_mul (snd kv) (float_add 1 suspicion) in
               (fst kv, snd kv, suspicion, combined_score))
          page_rank_scores in
      sort_desc (fun x => snd x) candidates
    else
      let candidates :=
        map (fun kv => (fst kv, snd kv, 0%Q, snd kv)) page_rank_scores in
      sort_desc (fun x => snd (fst (fst x))) candidates in
  map (fun x => fst x) (slice_to candidates top_k).

End FloatProducts.

End Ranking.

(* ------------------------------------------------------------------ *)
(** * graph.py: degrees, matrix views, dangling nodes, subgraphs       *)
(* ------------------------------------------------------------------ *)

Module GraphViews.
Import Py Np Graph.

(** [SparseGraph.get_neighbors] (the copy is the value itself) *)
Definition get_neighbors (self : SparseGraph) (node_id : string) : dict string Q :=
  match get (_adjacency_list self) node_id with
  | Some neighbors => neighbors
  | None => []
  end.

(** [sum(xs)]: from 0, left to right. *)
Definition py_sum (xs : list Q) : Q := fold_left Qplus xs 0%Q.

(** [SparseGraph.get_out_degree] *)
Definition get_out_degree (self : SparseGraph) (node_id : string) : Q :=
  let neighbors :=
    match get (_adjacency_list self) node_id with
    | Some neighbors => neighbors
    | None => []
    end in
  py_sum (map snd neighbors).

(** [SparseGraph.get_in_degree] *)
Definition get_in_degree (self : SparseGraph) (node_id : string) : Q :=
  if negb (directed self) then get_out_degree self node_id
  else
    fold_left
      (fun total sn =>
         match get (snd sn) node_id with
         | Some w => (total + w)%Q
         | None => total
         end)
      (_adjacency_list self) 0%Q.

(** [SparseGraph.__len__] *)
Definition __len__ (self : SparseGraph) : nat := length (_adjacency_list self).

(** [matrix[i, j] = x]; numpy raises IndexError outside the shape. *)
Definition set_entry (M : matrix) (i j : nat) (x : Q) : result matrix :=
  if Nat.ltb i (nrows M) && Nat.ltb j (length (nth i M [])) then
    Ok (list_set M i (list_set (nth i M []) j x))
  else Raise IndexError.

(** The two nested loops shared by the matrix views: for every node in
    insertion order, for every stored neighbour, [write] at the row of the
    source and the column of the target. *)
Definition for_each_edge {A : Type} (self : SparseGraph)
    (write : A -> nat -> nat -> Q -> result A) (node_ids : list string)
    (start : A) : result A :=
  fold_left
    (fun acc isource =>
       a <- acc ;;
       neighbors <- getitem (_adjacency_list self) (snd isource) ;;
       fold_left
         (fun acc tw =>
            a <- acc ;;
            j <- getitem (_node_to_idx self) (fst tw) ;;
            write a (fst isource) j (snd tw))
         neighbors (Ok a))
    (enumerate node_ids) (Ok start).

(** [SparseGraph.get_adjacency_matrix] *)
Definition get_adjacency_matrix (self : SparseGraph)
  : result (matrix * list string) :=
  let node_ids := get_nodes self in
  let n := length node_ids in
  let matrix := repeat (zeros n) n in
  matrix <- for_each_edge self set_entry node_ids matrix ;;
  Ok (matrix, node_ids).

(** [sparse.coo_matrix((data, (rows, cols)), shape=(n, n)).tocsr()], as the
    array it denotes: the values given for one position are summed; scipy
    raises ValueError on an index outside the shape.  The three lists [data],
    [rows] and [cols] grow together and are kept as one list of triples
    [(row, col, value)]. *)
Definition coo_entry (entries : list (nat * nat * Q)) (i j : nat) : Q :=
  vsum (map snd
          (filter (fun e => Nat.eqb (fst (fst e)) i && Nat.eqb (snd (fst e)) j)
             entries)).

Definition coo_matrix (n : nat) (entries : list (nat * nat * Q)) : result matrix :=
  if forallb (fun e => Nat.ltb (fst (fst e)) n && Nat.ltb (snd (fst e)) n) entries
  then Ok (map (fun i => map (fun j => coo_entry entries i j) (seq 0 n)) (seq 0 n))
  else Raise ValueError.

(** [SparseGraph.get_sparse_adjacency_matrix] *)
Definition get_sparse_adjacency_matrix (self : SparseGraph)
  : result (matrix * list string) :=
  let node_ids := get_nodes self in
  let n := length node_ids in
  entries <-
    for_each_edge self
      (fun entries i j weight => Ok (entries ++ [(i, j, weight)]))
      node_ids [] ;;
  csr_matrix <- coo_matrix n entries ;;
  Ok (csr_matrix, node_ids).

(** [SparseGraph.get_dangling_nodes] *)
Definition get_dangling_nodes (self : SparseGraph) : result (list bool) :=
  let n := length (_adjacency_list self) in
  let dangling_mask := repeat false n in
  fold_left
    (fun acc nn =>
       dangling_mask <- acc ;;
       match snd nn with
       | [] =>
           idx <- getitem (_node_to_idx self) (fst nn) ;;
           if Nat.ltb idx (length dangling_mask)
           then Ok (list_set dangling_mask idx true)
           else Raise IndexError
       | _ :: _ => Ok dangling_mask
       end)
    (_adjacency_list self) (Ok dangling_mask).

(** [SparseGraph.subgraph].  The argument is a set; [nodes] lists it in the
    order in which the two loops iterate over it. *)
Definition subgraph (self : SparseGraph) (nodes : list string)
  : result SparseGraph :=
  let subgraph := __init__ (directed self) in
  let subgraph :=
    fold_left
      (fun subgraph node =>
         if mem (_adjacency_list self) node then add_node subgraph node
         else subgraph)
      nodes subgraph in
  fold_left
    (fun acc source =>
       subgraph <- acc ;;
       if mem (_adjacency_list self) source then
         neighbors <- getitem (_adjacency_list self) source ;;
         fold_left
           (fun acc tw =>
              subgraph <- acc ;;
              if existsb (String.eqb (fst tw)) nodes
              then add_edge subgraph source (fst tw) (snd tw)
              else Ok subgraph)
           neighbors (Ok subgraph)
       else Ok subgraph)
    nodes (Ok subgraph).

(** [to_sparse_matrix] can end in an UnboundLocalError, which no other
    function of the embedding raises. *)
Inductive outcome (A : Type) : Type :=
| Returned (a : A)
| Raised (e : exn)
| RaisedUnboundLocalError.

Arguments Returned {A} a.
Arguments Raised {A} e.
Arguments RaisedUnboundLocalError {A}.

(** [SparseGraph.to_sparse_matrix].  The loop over the neighbours is not
    nested in the loop over the nodes: it runs once, after it, on the values
    that [u], [total_weight] and [neighbors] have from the last pass ([None]:
    no pass has bound them).  [weight / total_weight] raises
    ZeroDivisionError on a zero total. *)
Definition to_sparse_matrix (self : SparseGraph)
  : outcome (matrix * list string) :=
  let node_ids := keys (_adjacency_list self) in
  let n := length node_ids in
  match
    fold_left
      (fun acc sn =>
         bound <- acc ;;
         u <- getitem (_node_to_idx self) (fst sn) ;;
         let total_weight := py_sum (map snd (snd sn)) in
         Ok (Some (u, total_weight, snd sn)))
      (_adjacency_list self) (Ok None)
  with
  | Raise e => Raised e
  | Ok None => RaisedUnboundLocalError
  | Ok (Some (u, total_weight, neighbors)) =>
      match
        fold_left
          (fun acc tw =>
             entries <- acc ;;
             v <- getitem (_node_to_idx self) (fst tw) ;;
             if Qeq_bool total_weight 0 then Raise ZeroDivisionError
             else Ok (entries ++ [(v, u, (snd tw / total_weight)%Q)]))
          neighbors (Ok [])
      with
      | Raise e => Raised e
      | Ok entries =>
          match coo_matrix n entries with
          | Ok m => Returned (m, node_ids)
          | Raise e => Raised e
          end
      end
  end.

End GraphViews.

(* ------------------------------------------------------------------ *)
(** * Vocabulary of the statements                                     *)
(* ------------------------------------------------------------------ *)

Import Py Np Strategies.
Local Open Scope string_scope.
Local Open Scope list_scope.

(** The graph object of the concrete runs: a two-node cycle [a -> b -> a]
    that offers [get_normalized_matrix] and [_node_to_idx]. *)
Definition cycle2_adjacency : matrix := [[0; 1]; [1; 0]]%Q.

Definition cycle2_object : Engine.GraphObject :=
  fun name =>
    if String.eqb name "get_normalized_matrix" then
      Some (Engine.NormalizedMatrixMethod
              (Engine.normalize_columns 2 cycle2_adjacency (sum_axis0 cycle2_adjacency),
               Engine.is_zero (sum_axis0 cycle2_adjacency),
               ["a"; "b"]))
    else if String.eqb name "_node_to_idx" then
      Some (Engine.NodeIndex [("a", 0%nat); ("b", 1%nat)])
    else None.


(** The recurrence as the specification writes it:
    [r' = (1 - alpha) * (M @ r + dangling_sum * p) + alpha * p], where
    [dangling_sum] is the mass of [r] on the dangling nodes. *)
Definition recurrence (alpha : Q) (M : matrix) (dangling_mask : list bool)
    (p r : vec) : vec :=
  let dangling_sum := vsum (select r dangling_mask) in
  vadd (vscale (1 - alpha) (vadd (matvec M r) (vscale dangling_sum p)))
       (vscale alpha p).

(** The L1 norm of [step r - r]. *)
Definition residual (step : vec -> vec) (r : vec) : Q := norm1 (vsub (step r) r).

(** [r_t], from [r_0 = r]. *)
Definition iterate (step : vec -> vec) (t : nat) (r : vec) : vec := Nat.iter t step r.

(** [t] is the first step whose residual is below the tolerance. *)
Definition first_below (step : vec -> vec) (tol : Q) (r0 : vec) (t : nat) : Prop :=
  (residual step (iterate step t r0) < tol)%Q /\
  forall t', (t' < t)%nat -> ~ (residual step (iterate step t' r0) < tol)%Q.

(** The loop shared by both paths, over an arbitrary step function. *)
Fixpoint power_loop (step : vec -> vec) (tol : Q) (todo : nat) (iteration : Z)
    (r : vec) : vec * option Z :=
  match todo with
  | O => (r, None)
  | S todo' =>
      if Qltb (residual step r) tol then (step r, Some (iteration + 1)%Z)
      else power_loop step tol todo' (iteration + 1)%Z (step r)
  end.

(** A square array of side [n]. *)
Definition square (n : nat) (M : matrix) : Prop :=
  length M = n /\ Forall (fun row => length row = n) M.

(** The two accumulations of the sparse loop body. *)
Definition live_term (W : matrix) (od r : vec) (j : nat) : vec :=
  vscale (nth j r 0%Q) (vdiv (column W j) (nth j od 0%Q)).

Definition sink_term (tp r : vec) (j : nat) : vec :=
  vscale (nth j r 0%Q) tp.

(** Two engine objects with the same configuration; their caches are free. *)
Definition same_configuration (e e' : Engine.PowerIterationEngine) : Prop :=
  Engine.damping_factor e = Engine.damping_factor e' /\
  Engine.max_iterations e = Engine.max_iterations e' /\
  Engine.tolerance e = Engine.tolerance e' /\
  Engine.dangling_strategy e = Engine.dangling_strategy e' /\
  Engine.personalization_strategy e = Engine.personalization_strategy e'.

(** ** Invariants of the graph store *)

(** Keys are pairwise distinct, the counter is the number of stored pairs,
    and every target is a node. *)
Definition base_wf (g : Graph.SparseGraph) : Prop :=
  NoDup (keys (Graph._adjacency_list g)) /\
  (forall s nb, get (Graph._adjacency_list g) s = Some nb -> NoDup (keys nb)) /\
  Graph._edge_count g = Z.of_nat (length (Graph.get_edges g)) /\
  (forall s t, Graph.edge_weight g s t <> None ->
               mem (Graph._adjacency_list g) t = true).

(** An undirected graph stores every edge in both directions, same weight. *)
Definition mirrored (g : Graph.SparseGraph) : Prop :=
  Graph.directed g = false ->
  forall s t w, Graph.edge_weight g s t = Some w -> Graph.edge_weight g t s = Some w.

Definition wf (g : Graph.SparseGraph) : Prop := base_wf g /\ mirrored g.

(** By how much [add_edge g s t _] moves the counter. *)
Definition counter_step (g : Graph.SparseGraph) (s t : string) : Z :=
  match Graph.edge_weight g s t with
  | Some _ => 0
  | None => if Graph.directed g || String.eqb s t then 1 else 2
  end.

(** ** The text format *)

(** [c in s] *)
Fixpoint has_char (c : ascii) (s : string) : bool :=
  match s with
  | EmptyString => false
  | String c' s' => Ascii.eqb c' c || has_char c s'
  end.

(** A text that the line format keeps apart: no comma, no line break. *)
Definition plain (s : string) : Prop :=
  has_char ","%char s = false /\
  has_char Graph.LF s = false /\
  has_char Graph.CR s = false.

(** A source id opens its line: [strip] must not eat into it. *)
Definition no_leading_space (s : string) : Prop := Graph.lstrip s = s.

(** The text of a weight closes its line. *)
Definition no_trailing_space (s : string) : Prop := Graph.rstrip s = s.

(** Every node has an edge, as its source or as its target. *)
Definition no_isolated_node (g : Graph.SparseGraph) : Prop :=
  forall x, In x (Graph.get_nodes g) ->
            exists s t w, In (s, t, w) (Graph.get_edges g) /\ (x = s \/ x = t).

(** The lines of a text, each closed by a line feed. *)
Definition unlines (bodies : list string) : string :=
  fold_right (fun b rest => (b ++ Graph.nl) ++ rest)%string EmptyString bodies.

(** The three header lines and the edge lines of [save_to_file], without
    their line feeds. *)
Definition header_bodies (g : Graph.SparseGraph) : list string :=
  [ ("directed:" ++ Graph.bool_str (Graph.directed g))%string;
    ("nodes:" ++ Graph.int_str (Z.of_nat (length (Graph._adjacency_list g))))%string;
    ("edges:" ++ Graph.int_str (Graph._edge_count g))%string ].

Definition edge_body (fmt_float : Q -> string) (e : string * string * Q) : string :=
  (fst (fst e) ++ "," ++ snd (fst e) ++ "," ++ fmt_float (snd e))%string.

(** [h] stores nothing that [g] does not. *)
Definition sub_graph (h g : Graph.SparseGraph) : Prop :=
  forall s t w, Graph.edge_weight h s t = Some w -> Graph.edge_weight g s t = Some w.

(** A printer and a parser for weights that are whole numbers, in the way
    Python writes them ("2.0"); used to run the text format on examples. *)
Definition whole_fmt (w : Q) : string :=
  (Graph.int_str (Qnum w) ++ ".0")%string.

Definition whole_parse (s : string) : option Q :=
  match Graph.split "."%char s with
  | [a; b] =>
      if String.eqb b "0"
      then option_map (fun i => inject_Z (Z.of_int i)) (NilZero.int_of_string a)
      else None
  | _ => None
  end.

(** An edge that the text format can carry: the ids and the text of the
    weight hold no comma and no line break, the source id does not start and
    the text of the weight does not end with white space, and the text of the
    weight reads back as the weight. *)
Definition writable (fmt_float : Q -> string) (parse_float : string -> option Q)
    (e : string * string * Q) : Prop :=
  plain (fst (fst e)) /\ no_leading_space (fst (fst e)) /\
  plain (snd (fst e)) /\
  plain (fmt_float (snd e)) /\ no_trailing_space (fmt_float (snd e)) /\
  parse_float (fmt_float (snd e)) = Some (snd e).

(** An undirected graph with a path [a - b - c] and a self-loop on [c]. *)
Definition example_ops : list Graph.op :=
  [ Graph.AddEdge "a" "b" 2; Graph.AddEdge "b" "c" 3; Graph.AddEdge "c" "c" 1 ].

Definition example_graph : Graph.SparseGraph :=
  {| Graph.directed := false;
     Graph._adjacency_list :=
       [ ("a", [("b", 2%Q)]);
         ("b", [("a", 2%Q); ("c", 3%Q)]);
         ("c", [("b", 3%Q); ("c", 1%Q)]) ];
     Graph._node_to_idx := [("a", 0%nat); ("b", 1%nat); ("c", 2%nat)];
     Graph._idx_to_node := [(0%nat, "a"); (1%nat, "b"); (2%nat, "c")];
     Graph._edge_count := 5 |}.

(** A probability distribution over [n] nodes. *)
Definition distribution (n : nat) (v : vec) : Prop :=
  length v = n /\ Forall (fun x => 0 <= x)%Q v /\ (vsum v == 1)%Q.

(** Every entry of the array is non-negative. *)
Definition nonneg_matrix (W : matrix) : Prop :=
  Forall (Forall (fun x => 0 <= x)%Q) W.

(** A mapping whose values are non-negative. *)
Definition nonneg_values (d : option (dict string Q)) : Prop :=
  Forall (fun kv => 0 <= snd kv)%Q (items d).

(** ** Examples of engines *)

(** The engine that [PowerIterationEngine(damping_factor=0.5,
    max_iterations=k, tolerance=0.01)] builds. *)
Definition example_engine (max_iterations : Z) : Engine.PowerIterationEngine :=
  {| Engine.damping_factor := 1 # 2;
     Engine.max_iterations := max_iterations;
     Engine.tolerance := 1 # 100;
     Engine.dangling_strategy := UniformDanglingStrategy;
     Engine.personalization_strategy := SuspicionBasedPersonalization 5;
     Engine._transition_matrix := None;
     Engine._personalization_vector := None;
     Engine._page_rank := None;
     Engine._iterations_performed := 0;
     Engine._converged := false |}.

(** ** The ranking of candidates *)

(** The suspicion score that the ranking reads for a node: 0 when none is
    given. *)
Definition suspicion_of (suspicion_scores : option (dict string Q))
    (node_id : string) : Q :=
  match get (items suspicion_scores) node_id with
  | Some s => s
  | None => 0%Q
  end.

(** The key by which the code ranks a triple [(node_id, pr_score,
    suspicion)]: the combined score as it computes it,
    [pr_score * (1.0 + suspicion)] with its two float operations, when
    suspicion scores are given, and the PageRank score otherwise. *)
Definition ranking_key (float_add float_mul : Q -> Q -> Q)
    (suspicion_scores : option (dict string Q)) (c : string * Q * Q) : Q :=
  if truthy suspicion_scores
  then float_mul (snd (fst c)) (float_add 1 (snd c))
  else snd (fst c).

(** Larger keys first. *)
Definition by_key (key : string * Q * Q -> Q) (c c' : string * Q * Q) : Prop :=
  (key c' <= key c)%Q.

(** ** The index of the graph store *)

(** Nodes are numbered in insertion order and both index maps say so. *)
Definition indexed (g : Graph.SparseGraph) : Prop :=
  Graph._node_to_idx g
  = combine (Graph.get_nodes g) (seq 0 (length (Graph.get_nodes g))) /\
  Graph._idx_to_node g
  = combine (seq 0 (length (Graph.get_nodes g))) (Graph.get_nodes g).

(** The entry that the matrix views hold for the pair of the [i]-th and the
    [j]-th node. *)
Definition weight_at (g : Graph.SparseGraph) (i j : nat) : Q :=
  match Graph.edge_weight g (nth i (Graph.get_nodes g) EmptyString)
          (nth j (Graph.get_nodes g) EmptyString) with
  | Some w => w
  | None => 0%Q
  end.

(** By how much [remove_edge g s t] moves the counter down. *)
Definition counter_drop (g : Graph.SparseGraph) (s t : string) : Z :=
  match Graph.edge_weight g s t with
  | Some _ => if Graph.directed g || String.eqb s t then 1 else 2
  | None => 0
  end.

(** Triples [(row, col, value)] whose positions lie in an [n] by [n] array. *)
Definition in_shape (n : nat) (entries : list (nat * nat * Q)) : Prop :=
  forallb (fun e => Nat.ltb (fst (fst e)) n && Nat.ltb (snd (fst e)) n) entries
  = true.

(** ** Subgraphs *)

(** [x in nodes] *)
Definition member (nodes : list string) (x : string) : bool :=
  existsb (String.eqb x) nodes.

(** [h] is a part of what [subgraph] builds from [g] and [nodes]: a
    well-formed graph of the same kind whose nodes are the members of [nodes]
    that [g] has, and which stores only pairs of members, with the weight
    that [g] stores. *)
Definition within (g : Graph.SparseGraph) (nodes : list string)
    (h : Graph.SparseGraph) : Prop :=
  wf h /\ Graph.directed h = Graph.directed g /\
  (forall x, mem (Graph._adjacency_list h) x
             = member nodes x && mem (Graph._adjacency_list g) x) /\
  (forall s t w, Graph.edge_weight h s t = Some w ->
                 Graph.edge_weight g s t = Some w /\
                 member nodes s = true /\ member nodes t = true).

(** [h] holds every pair of [g] that [covered] selects and that ends in a
    member. *)
Definition holds_pairs (g : Graph.SparseGraph) (nodes : list string)
    (covered : string -> string -> Prop) (h : Graph.SparseGraph) : Prop :=
  forall s t w, covered s t -> member nodes t = true ->
                Graph.edge_weight g s t = Some w ->
                Graph.edge_weight h s t = Some w.

(** [a] stands before an occurrence of [b] in the list. *)
Inductive precedes {A : Type} (a b : A) : list A -> Prop :=
| precedes_here (l : list A) : In b l -> precedes a b (a :: l)
| precedes_later (x : A) (l : list A) : precedes a b l -> precedes a b (x :: l).

(** ** More example graphs *)

(** The example graph after the removal of an edge and the addition of an
    edge to a new node. *)
Definition example_ops_more : list Graph.op :=
  [ Graph.RemoveEdge "a" "b"; Graph.AddEdge "c" "d" 1 ].

Definition example_graph_more : Graph.SparseGraph :=
  Eval vm_compute in
    match Graph.run example_graph example_ops_more with
    | Ok g => g
    | Raise _ => example_graph
    end.

(** A directed path [a -> b -> c] with an isolated node [z]. *)
Definition path_ops : list Graph.op :=
  [ Graph.AddEdge "a" "b" 1; Graph.AddNode "z"; Graph.AddEdge "b" "c" 2 ].

Definition path_graph : Graph.SparseGraph :=
  Eval vm_compute in
    match Graph.run (Graph.__init__ true) path_ops with
    | Ok g => g
    | Raise _ => Graph.__init__ true
    end.

(** ** Shapes of the operands *)

(** Both operands of [adjacency * weights] are [n] by [n] arrays, as numpy
    and scipy ask of an elementwise product; without weights, the adjacency
    is. *)
Definition operands_square (n : nat) (adjacency : matrix)
    (weights : option matrix) : Prop :=
  square n adjacency /\
  match weights with
  | Some w => square n w
  | None => True
  end.

(* ------------------------------------------------------------------ *)
(** * Facts about vectors                                              *)
(* ------------------------------------------------------------------ *)

Module NpFacts.
Import Np.

Lemma Qltb_lt (x y : Q) : Qltb x y = true <-> (x < y)%Q.
Proof.
  unfold Qltb. rewrite negb_true_iff. split.
  - intros Hb. apply Qnot_le_lt. intros Hle.
    apply Qle_bool_iff in Hle. congruence.
  - intros Hlt. destruct (Qle_bool y x) eqn:Hb; [| reflexivity].
    apply Qle_bool_iff in Hb. exfalso. exact (Qlt_not_le _ _ Hlt Hb).
Qed.

Lemma Qltb_nlt (x y : Q) : Qltb x y = false <-> ~ (x < y)%Q.
Proof.
  rewrite <- Qltb_lt. destruct (Qltb x y); split; congruence.
Qed.

Lemma length_map2 {A B C : Type} (f : A -> B -> C) (xs : list A) (ys : list B) :
  length (map2 f xs ys) = Nat.min (length xs) (length ys).
Proof.
  revert ys. induction xs as [| x xs IH]; intros [| y ys]; simpl; auto.
Qed.

Lemma nth_map2 {A B C : Type} (f : A -> B -> C) (xs : list A) (ys : list B)
    (i : nat) (da : A) (db : B) (dc : C) :
  (i < length xs)%nat -> (i < length ys)%nat ->
  nth i (map2 f xs ys) dc = f (nth i xs da) (nth i ys db).
Proof.
  revert ys i. induction xs as [| x xs IH]; intros [| y ys] [| i]; simpl;
    intros Hx Hy; try lia; auto.
  apply IH; lia.
Qed.

Lemma veq_refl (u : vec) : veq u u.
Proof. induction u; constructor; auto. reflexivity. Qed.

Lemma veq_nth (u v : vec) :
  length u = length v ->
  (forall i, (i < length u)%nat -> (nth i u 0 == nth i v 0)%Q) ->
  veq u v.
Proof.
  revert v. induction u as [| x u IH]; intros [| y v] Hlen Hnth;
    simpl in Hlen; try discriminate; constructor.
  - apply (Hnth 0%nat). simpl. lia.
  - apply IH; [lia |]. intros i Hi. apply (Hnth (S i)). simpl. lia.
Qed.

Lemma vsum_app (u v : vec) : (vsum (u ++ v) == vsum u + vsum v)%Q.
Proof.
  induction u as [| x u IH]; simpl.
  - ring.
  - rewrite IH. ring.
Qed.

Lemma vsum_map_ext {A : Type} (f g : A -> Q) (l : list A) :
  (forall a, In a l -> (f a == g a)%Q) ->
  (vsum (map f l) == vsum (map g l))%Q.
Proof.
  induction l as [| a l IH]; simpl; intros Hfg.
  - reflexivity.
  - rewrite (Hfg a) by auto. rewrite IH by auto. reflexivity.
Qed.

Lemma vsum_map_scale {A : Type} (c : Q) (f : A -> Q) (l : list A) :
  (vsum (map (fun a => c * f a) l) == c * vsum (map f l))%Q.
Proof.
  induction l as [| a l IH]; simpl.
  - ring.
  - rewrite IH. ring.
Qed.

Lemma vsum_map_plus {A : Type} (f g : A -> Q) (l : list A) :
  (vsum (map (fun a => f a + g a) l) == vsum (map f l) + vsum (map g l))%Q.
Proof.
  induction l as [| a l IH]; simpl.
  - ring.
  - rewrite IH. ring.
Qed.

Lemma vsum_map_filter {A : Type} (P : A -> bool) (f : A -> Q) (l : list A) :
  (vsum (map f (filter P l))
   == vsum (map (fun a => if P a then f a else 0) l))%Q.
Proof.
  induction l as [| a l IH]; simpl.
  - reflexivity.
  - destruct (P a); simpl; rewrite IH; ring.
Qed.

(** A list is the table of its entries. *)
Lemma list_as_table {A : Type} (l : list A) (d : A) :
  l = map (fun j => nth j l d) (seq 0 (length l)).
Proof.
  apply (nth_ext _ _ d d).
  - rewrite length_map, length_seq. reflexivity.
  - intros i Hi. symmetry.
    transitivity (nth i (map (fun j => nth j l d) (seq 0 (length l))) (nth 0 l d)).
    { apply nth_indep. rewrite length_map, length_seq. exact Hi. }
    rewrite (map_nth (fun j => nth j l d)).
    rewrite seq_nth by exact Hi. reflexivity.
Qed.

Lemma combine_map_same {A B C : Type} (f : A -> B) (g : A -> C) (l : list A) :
  combine (map f l) (map g l) = map (fun a => (f a, g a)) l.
Proof. induction l; simpl; congruence. Qed.

Lemma filter_snd_map {A B : Type} (f : A -> B) (g : A -> bool) (l : list A) :
  map fst (filter snd (map (fun a => (f a, g a)) l)) = map f (filter g l).
Proof.
  induction l as [| a l IH]; simpl; [reflexivity |].
  destruct (g a); simpl; rewrite IH; reflexivity.
Qed.

(** [np.where(mask)[0]] lists the indices whose mask entry is true. *)
Lemma where_true_filter (mask : list bool) :
  where_true mask = filter (fun j => nth j mask false) (seq 0 (length mask)).
Proof.
  unfold where_true, Py.enumerate.
  rewrite (list_as_table mask false) at 2.
  rewrite <- (map_id (seq 0 (length mask))) at 1.
  rewrite combine_map_same, filter_snd_map, map_id. reflexivity.
Qed.

(** [v[mask]] lists the entries of [v] at those indices. *)
Lemma select_where (v : vec) (mask : list bool) :
  length v = length mask ->
  select v mask = map (fun j => nth j v 0%Q) (where_true mask).
Proof.
  intros Hlen. rewrite where_true_filter. unfold select.
  rewrite (list_as_table v 0%Q) at 1. rewrite (list_as_table mask false) at 1.
  rewrite Hlen, combine_map_same, filter_snd_map. reflexivity.
Qed.

Lemma where_true_bound (mask : list bool) (j : nat) :
  In j (where_true mask) -> (j < length mask)%nat.
Proof.
  rewrite where_true_filter, filter_In, in_seq. lia.
Qed.

Lemma any_false_where (mask : list bool) :
  any mask = false -> where_true mask = [].
Proof.
  intros Hany. rewrite where_true_filter.
  assert (Hall : forall j, nth j mask false = false).
  { intros j. destruct (nth j mask false) eqn:Hj; [| reflexivity].
    assert (Hin : In true mask).
    { destruct (Nat.lt_ge_cases j (length mask)) as [Hlt | Hge].
      - rewrite <- Hj. apply nth_In. exact Hlt.
      - rewrite nth_overflow in Hj by exact Hge. discriminate. }
    unfold any in Hany.
    assert (Hex : existsb (fun b => b) mask = true)
      by (apply existsb_exists; exists true; auto).
    congruence. }
  induction (seq 0 (length mask)) as [| j l IH]; simpl; [reflexivity |].
  rewrite Hall. exact IH.
Qed.

(** [dot] as a sum over indices. *)
Lemma dot_as_sum (u v : vec) :
  length u = length v ->
  dot u v = vsum (map (fun j => nth j u 0 * nth j v 0)%Q (seq 0 (length u))).
Proof.
  intros Hlen. unfold dot, vmul. f_equal.
  apply (nth_ext _ _ 0%Q 0%Q).
  - rewrite length_map2, length_map, length_seq. lia.
  - intros i Hi. rewrite length_map2 in Hi.
    rewrite (nth_map2 Qmult u v 0%Q 0%Q 0%Q) by lia.
    symmetry.
    transitivity (nth i (map (fun j => nth j u 0 * nth j v 0)%Q (seq 0 (length u)))
                    (nth 0 u 0 * nth 0 v 0)%Q).
    { apply nth_indep. rewrite length_map, length_seq. lia. }
    rewrite (map_nth (fun j => (nth j u 0 * nth j v 0)%Q)).
    rewrite seq_nth by lia. reflexivity.
Qed.

(** The additive accumulation of both loops. *)
Lemma fold_vadd_length (g : nat -> vec) (n : nat) (js : list nat) (acc : vec) :
  length acc = n -> (forall j, In j js -> length (g j) = n) ->
  length (fold_left (fun a j => vadd a (g j)) js acc) = n.
Proof.
  revert acc. induction js as [| j js IH]; simpl; intros acc Hacc Hg; [exact Hacc |].
  apply IH; [| auto].
  unfold vadd. rewrite length_map2, Hacc, (Hg j) by auto. lia.
Qed.

Lemma fold_vadd_nth (g : nat -> vec) (n i : nat) (js : list nat) (acc : vec) :
  length acc = n -> (forall j, In j js -> length (g j) = n) -> (i < n)%nat ->
  (nth i (fold_left (fun a j => vadd a (g j)) js acc) 0
   == nth i acc 0 + vsum (map (fun j => nth i (g j) 0) js))%Q.
Proof.
  revert acc. induction js as [| j js IH]; simpl; intros acc Hacc Hg Hi.
  - ring.
  - rewrite IH; [| | auto | exact Hi].
    + unfold vadd. rewrite (nth_map2 Qplus acc (g j) 0%Q 0%Q 0%Q)
        by (rewrite ?Hacc, ?(Hg j) by auto; lia).
      ring.
    + unfold vadd. rewrite length_map2, Hacc, (Hg j) by auto. lia.
Qed.

End NpFacts.

(* ------------------------------------------------------------------ *)
(** * The power iteration                                              *)
(* ------------------------------------------------------------------ *)

Module LoopFacts.
Import Np NpFacts.

Lemma dense_loop_power_loop (alpha tol : Q) (M : matrix) (mask : list bool)
    (p : vec) (todo : nat) :
  forall (it : Z) (r : vec),
    Engine.dense_loop alpha tol M mask p todo it r
    = power_loop (Engine.dense_step alpha M mask p) tol todo it r.
Proof.
  induction todo as [| todo IH]; intros it r; simpl; [reflexivity |].
  unfold residual. destruct (Qltb _ tol); [reflexivity | apply IH].
Qed.

Lemma sparse_loop_power_loop (alpha tol : Q) (n : nat) (W : matrix) (od : vec)
    (mask : list bool) (tp p : vec) (todo : nat) :
  forall (it : Z) (r : vec),
    Engine.sparse_loop alpha tol n W od mask tp p todo it r
    = power_loop (Engine.sparse_step alpha n W od mask tp p) tol todo it r.
Proof.
  induction todo as [| todo IH]; intros it r; simpl; [reflexivity |].
  unfold residual. destruct (Qltb _ tol); [reflexivity | apply IH].
Qed.

Lemma iterate_shift (step : vec -> vec) (t : nat) (r : vec) :
  iterate step (S t) r = iterate step t (step r).
Proof. unfold iterate. apply Nat.iter_succ_r. Qed.

Lemma first_below_unique (step : vec -> vec) (tol : Q) (r0 : vec) (t1 t2 : nat) :
  first_below step tol r0 t1 -> first_below step tol r0 t2 -> t1 = t2.
Proof.
  intros [H1 L1] [H2 L2].
  destruct (Nat.lt_trichotomy t1 t2) as [Hlt | [Heq | Hgt]]; [| exact Heq |].
  - exfalso. exact (L2 t1 Hlt H1).
  - exfalso. exact (L1 t2 Hgt H2).
Qed.

(** What the loop returns, by cases on its break. *)
Lemma power_loop_spec (step : vec -> vec) (tol : Q) (todo : nat) :
  forall (it : Z) (r : vec),
    match power_loop step tol todo it r with
    | (r', Some k) =>
        exists t, (t < todo)%nat /\ k = (it + Z.of_nat (S t))%Z /\
                  first_below step tol r t /\ r' = iterate step (S t) r
    | (r', None) =>
        (forall t, (t < todo)%nat -> ~ (residual step (iterate step t r) < tol)%Q) /\
        r' = iterate step todo r
    end.
Proof.
  induction todo as [| todo IH]; intros it r; cbn [power_loop].
  - split; [intros t Ht; lia | reflexivity].
  - destruct (Qltb (residual step r) tol) eqn:Hb.
    + exists 0%nat. split; [lia |]. split; [lia |]. split; [split |].
      * apply Qltb_lt. exact Hb.
      * intros t' Ht'. lia.
      * reflexivity.
    + specialize (IH (it + 1)%Z (step r)).
      destruct (power_loop step tol todo (it + 1) (step r)) as [r' [k |]].
      * destruct IH as (t & Ht & Hk & [Hres Hleast] & Hr').
        exists (S t). split; [lia |]. split; [lia |]. split; [split |].
        -- rewrite iterate_shift. exact Hres.
        -- intros [| t'] Ht'.
           ++ apply Qltb_nlt. exact Hb.
           ++ rewrite iterate_shift. apply Hleast. lia.
        -- rewrite iterate_shift. exact Hr'.
      * destruct IH as [Hnone Hr']. split.
        -- intros [| t] Ht.
           ++ apply Qltb_nlt. exact Hb.
           ++ rewrite iterate_shift. apply Hnone. lia.
        -- rewrite iterate_shift. exact Hr'.
Qed.

(** The two lines of the dense loop body compute the recurrence. *)
Lemma dense_step_recurrence (alpha : Q) (M : matrix) (mask : list bool) (p r : vec) :
  veq (Engine.dense_step alpha M mask p r) (recurrence alpha M mask p r).
Proof.
  unfold Engine.dense_step, recurrence.
  generalize (vsum (select r mask)) as s. generalize (matvec M r) as x.
  intros x. revert p. induction x as [| a x IH]; intros [| b p] s; simpl;
    try constructor.
  - ring.
  - apply IH.
Qed.

End LoopFacts.

(** C7.  Each pass of the dense loop computes
    [r' = (1 - alpha) (M r + dangling_sum p) + alpha p]; the loop breaks,
    storing the iteration count [t + 1], exactly at the first step [t] of its
    budget whose L1 residual [|r_{t+1} - r_t|] is below the tolerance, and
    returns [r_{t+1}]; when no step of the budget is below it, the loop ends
    without a break on the last iterate. *)
Theorem dense_loop_recurrence_and_stop :
  forall (alpha tol : Q) (M : matrix) (mask : list bool) (p r0 : vec) (todo : nat),
    let step := Engine.dense_step alpha M mask p in
    let out := Engine.dense_loop alpha tol M mask p todo 0 r0 in
    (forall r, veq (step r) (recurrence alpha M mask p r)) /\
    (forall k, snd out = Some k <->
               exists t, (t < todo)%nat /\ k = Z.of_nat (S t) /\
                         first_below step tol r0 t) /\
    (forall t, (t < todo)%nat -> first_below step tol r0 t ->
               fst out = iterate step (S t) r0) /\
    ((forall t, (t < todo)%nat -> ~ (residual step (iterate step t r0) < tol)%Q) ->
     fst out = iterate step todo r0 /\ snd out = None).
Proof.
  intros alpha tol M mask p r0 todo step out.
  assert (Hspec := LoopFacts.power_loop_spec step tol todo 0 r0).
  assert (Hout : out = power_loop step tol todo 0 r0)
    by apply LoopFacts.dense_loop_power_loop.
  rewrite <- Hout in Hspec. clearbody out. clear Hout.
  split; [intros r; apply LoopFacts.dense_step_recurrence |].
  destruct out as [r' [k |]]; simpl.
  - destruct Hspec as (t & Ht & Hk & Hfirst & Hr').
    split; [| split].
    + intros k'. split.
      * intros Heq. injection Heq as Heq. subst k'. exists t.
        split; [exact Ht |]. split; [lia | exact Hfirst].
      * intros (t' & Ht' & Hk' & Hfirst').
        rewrite (LoopFacts.first_below_unique Hfirst' Hfirst) in Hk'.
        f_equal. lia.
    + intros t' Ht' Hfirst'.
      rewrite (LoopFacts.first_below_unique Hfirst' Hfirst). exact Hr'.
    + intros Hnone. exfalso. destruct Hfirst as [Hres _].
      exact (Hnone t Ht Hres).
  - destruct Hspec as [Hnone Hr'].
    split; [| split].
    + intros k. split; [discriminate |].
      intros (t & Ht & _ & [Hres _]). exfalso. exact (Hnone t Ht Hres).
    + intros t Ht [Hres _]. exfalso. exact (Hnone t Ht Hres).
    + intros _. split; [exact Hr' | reflexivity].
Qed.

(* ------------------------------------------------------------------ *)
(** * One step of the dense loop against one step of the sparse loop   *)
(* ------------------------------------------------------------------ *)

Module StepFacts.
Import Np NpFacts.

(** Arithmetic on lengths, up to the names [vec] and [matrix]. *)
Ltac shapes :=
  repeat match goal with H : square _ _ |- _ => destruct H end;
  unfold matrix, vec in *; lia.

Lemma nth_map_in {A B : Type} (f : A -> B) (l : list A) (i : nat) (d : A) (d' : B) :
  (i < length l)%nat -> nth i (map f l) d' = f (nth i l d).
Proof.
  intros Hi. transitivity (nth i (map f l) (f d)).
  - apply nth_indep. rewrite length_map. exact Hi.
  - apply map_nth.
Qed.

Lemma length_list_set {A : Type} (xs : list A) (i : nat) (x : A) :
  length (Py.list_set xs i x) = length xs.
Proof.
  revert i. induction xs as [| y xs IH]; intros [| i]; simpl; auto.
Qed.

Lemma nth_list_set {A : Type} (xs : list A) (i j : nat) (x d : A) :
  (j < length xs)%nat ->
  nth j (Py.list_set xs i x) d = if Nat.eqb i j then x else nth j xs d.
Proof.
  revert i j. induction xs as [| y xs IH]; intros [| i] [| j]; simpl;
    intros Hj; try lia; auto.
  apply IH. lia.
Qed.

Lemma square_row (n : nat) (M : matrix) (i : nat) :
  square n M -> (i < n)%nat -> length (nth i M []) = n.
Proof.
  intros [Hlen Hrows] Hi. rewrite Forall_forall in Hrows.
  apply Hrows. apply nth_In. lia.
Qed.

Lemma square_ncols (n : nat) (M : matrix) : square n M -> ncols M = n.
Proof.
  intros [Hlen Hrows]. destruct M as [| row M]; simpl in *; [exact Hlen |].
  inversion Hrows; assumption.
Qed.

Lemma length_sum_axis0 (n : nat) (M : matrix) :
  square n M -> length (sum_axis0 M) = n.
Proof.
  intros Hsq. unfold sum_axis0.
  rewrite length_map, length_seq. apply square_ncols. exact Hsq.
Qed.

Lemma square_zeros (n : nat) : square n (repeat (zeros n) n).
Proof.
  split; [apply repeat_length |].
  apply Forall_forall. intros row Hin. apply repeat_spec in Hin. subst row.
  apply repeat_length.
Qed.

Lemma nth_zeros (n j : nat) : nth j (zeros n) 0%Q = 0%Q.
Proof.
  unfold zeros. destruct (Nat.lt_ge_cases j n) as [Hlt | Hge].
  - apply nth_repeat_lt. exact Hlt.
  - apply nth_overflow. rewrite repeat_length. exact Hge.
Qed.

Lemma square_set_column (n : nat) (M : matrix) (j : nat) (c : vec) :
  square n M -> length c = n -> square n (set_column M j c).
Proof.
  intros [Hlen Hrows] Hc. unfold set_column. unfold matrix, vec in *. split.
  - rewrite length_map2. lia.
  - apply Forall_forall. intros row Hin.
    destruct (In_nth _ _ [] Hin) as (i & Hi & Hrow).
    rewrite length_map2 in Hi.
    rewrite (nth_map2 (fun row x => Py.list_set row j x) M c [] 0%Q []) in Hrow by lia.
    rewrite <- Hrow, length_list_set.
    apply (square_row (n := n)); [split; assumption | lia].
Qed.

Lemma entry_set_column (n : nat) (M : matrix) (j : nat) (c : vec) (i j' : nat) :
  square n M -> length c = n -> (i < n)%nat -> (j' < n)%nat ->
  nth j' (nth i (set_column M j c) []) 0%Q
  = if Nat.eqb j j' then nth i c 0%Q else nth j' (nth i M []) 0%Q.
Proof.
  intros Hsq Hc Hi Hj'. unfold set_column.
  rewrite (nth_map2 (fun row x => Py.list_set row j x) M c [] 0%Q [])
    by shapes.
  apply nth_list_set. rewrite (square_row Hsq Hi). exact Hj'.
Qed.

Lemma length_column (M : matrix) (j : nat) : length (column M j) = length M.
Proof. unfold column. apply length_map. Qed.

Lemma nth_column (M : matrix) (i j : nat) :
  (i < length M)%nat -> nth i (column M j) 0%Q = nth j (nth i M []) 0%Q.
Proof.
  intros Hi. unfold column.
  apply (nth_map_in (fun row : vec => nth j row 0%Q)). exact Hi.
Qed.

Lemma nth_vdiv (v : vec) (a : Q) (i : nat) :
  (i < length v)%nat -> nth i (vdiv v a) 0%Q = (nth i v 0 / a)%Q.
Proof.
  intros Hi. unfold vdiv.
  apply (nth_map_in (fun x : Q => (x / a)%Q)). exact Hi.
Qed.

Lemma nth_vscale (v : vec) (a : Q) (i : nat) :
  (i < length v)%nat -> nth i (vscale a v) 0%Q = (a * nth i v 0)%Q.
Proof.
  intros Hi. unfold vscale.
  apply (nth_map_in (Qmult a)). exact Hi.
Qed.

(** The columns written by [normalize_columns], over any list of columns. *)
Lemma normalize_fold (n : nat) (W : matrix) (od : vec) (js : list nat) :
  square n W ->
  forall T : matrix,
    square n T ->
    let T' :=
      fold_left
        (fun T j =>
           if Qltb 0 (nth j od 0%Q)
           then set_column T j (vdiv (column W j) (nth j od 0%Q))
           else T)
        js T in
    square n T' /\
    forall i j, (i < n)%nat -> (j < n)%nat ->
      nth j (nth i T' []) 0%Q
      = if existsb (Nat.eqb j) js && Qltb 0 (nth j od 0%Q)
        then (nth j (nth i W []) 0 / nth j od 0)%Q
        else nth j (nth i T []) 0%Q.
Proof.
  intros HW. induction js as [| j0 js IH]; intros T HT; cbn [fold_left].
  - split; [exact HT |]. intros i j Hi Hj. reflexivity.
  - set (T1 := if Qltb 0 (nth j0 od 0%Q)
               then set_column T j0 (vdiv (column W j0) (nth j0 od 0%Q)) else T).
    assert (Hc : length (vdiv (column W j0) (nth j0 od 0%Q)) = n).
    { unfold vdiv. rewrite length_map, length_column. apply HW. }
    assert (HT1 : square n T1).
    { unfold T1. destruct (Qltb 0 (nth j0 od 0%Q)); [| exact HT].
      apply square_set_column; assumption. }
    destruct (IH T1 HT1) as [Hsq Hentry]. split; [exact Hsq |].
    intros i j Hi Hj. rewrite (Hentry i j Hi Hj). cbn [existsb].
    destruct (Nat.eqb j j0) eqn:Hjj0.
    + apply Nat.eqb_eq in Hjj0. subst j0. cbn [orb].
      destruct (Qltb 0 (nth j od 0%Q)) eqn:Hpos.
      * rewrite andb_true_r. destruct (existsb (Nat.eqb j) js); [reflexivity |].
        cbn [andb]. unfold T1. rewrite ?Hpos.
        rewrite (entry_set_column (n := n)) by assumption.
        rewrite Nat.eqb_refl.
        rewrite nth_vdiv by (rewrite length_column; shapes).
        rewrite nth_column by shapes. reflexivity.
      * rewrite !andb_false_r. unfold T1. rewrite ?Hpos. reflexivity.
    + cbn [orb]. destruct (existsb (Nat.eqb j) js && Qltb 0 (nth j od 0%Q));
        [reflexivity |].
      unfold T1. destruct (Qltb 0 (nth j0 od 0%Q)); [| reflexivity].
      rewrite (entry_set_column (n := n)) by assumption.
      rewrite Nat.eqb_sym, Hjj0. reflexivity.
Qed.

Lemma existsb_seq (n j : nat) : (j < n)%nat -> existsb (Nat.eqb j) (seq 0 n) = true.
Proof.
  intros Hj. apply existsb_exists. exists j. split.
  - apply in_seq. lia.
  - apply Nat.eqb_refl.
Qed.

(** The entries of the normalised matrix. *)
Lemma normalize_columns_spec (n : nat) (W : matrix) (od : vec) :
  square n W ->
  square n (Engine.normalize_columns n W od) /\
  forall i j, (i < n)%nat -> (j < n)%nat ->
    nth j (nth i (Engine.normalize_columns n W od) []) 0%Q
    = if Qltb 0 (nth j od 0%Q) then (nth j (nth i W []) 0 / nth j od 0)%Q else 0%Q.
Proof.
  intros HW. unfold Engine.normalize_columns.
  destruct (normalize_fold od (seq 0 n) HW (square_zeros n)) as [Hsq Hentry].
  split; [exact Hsq |]. intros i j Hi Hj.
  rewrite (Hentry i j Hi Hj), existsb_seq by exact Hj. cbn [andb].
  destruct (Qltb 0 (nth j od 0%Q)); [reflexivity |].
  rewrite nth_repeat_lt by exact Hi. apply nth_zeros.
Qed.

Lemma skip_guard {A : Type} (f : A -> nat -> A) (mask : list bool) (acc : A) :
  (if any mask then fold_left f (where_true mask) acc else acc)
  = fold_left f (where_true mask) acc.
Proof.
  destruct (any mask) eqn:Hany; [reflexivity |].
  rewrite (any_false_where _ Hany). reflexivity.
Qed.

End StepFacts.

Module StepEq.
Import Np NpFacts StepFacts.

Lemma nth_matvec (M : matrix) (r : vec) (i : nat) :
  (i < length M)%nat -> nth i (matvec M r) 0%Q = dot (nth i M []) r.
Proof.
  intros Hi. unfold matvec.
  apply (nth_map_in (fun row : vec => dot row r)). exact Hi.
Qed.

Lemma length_dense_step (alpha : Q) (n : nat) (M : matrix) (mask : list bool)
    (p r : vec) :
  square n M -> length p = n ->
  length (Engine.dense_step alpha M mask p r) = n.
Proof.
  intros HM Hp. unfold Engine.dense_step, vadd, vscale, matvec.
  rewrite length_map2, !length_map. shapes.
Qed.

Lemma nth_dense_step (alpha : Q) (n : nat) (M : matrix) (mask : list bool)
    (p r : vec) (i : nat) :
  square n M -> length p = n -> (i < n)%nat ->
  nth i (Engine.dense_step alpha M mask p r) 0%Q
  = ((1 - alpha) * dot (nth i M []) r
     + (alpha + (1 - alpha) * vsum (select r mask)) * nth i p 0)%Q.
Proof.
  intros HM Hp Hi. unfold Engine.dense_step, vadd.
  rewrite (nth_map2 Qplus _ _ 0%Q 0%Q 0%Q)
    by (unfold vscale, matvec; rewrite !length_map; shapes).
  rewrite !nth_vscale by (unfold matvec; rewrite ?length_map; shapes).
  rewrite nth_matvec by shapes. reflexivity.
Qed.

Lemma sparse_step_unfold (alpha : Q) (n : nat) (W : matrix) (od : vec)
    (mask : list bool) (tp p r : vec) :
  Engine.sparse_step alpha n W od mask tp p r
  = vadd (vscale (1 - alpha)
            (fold_left (fun a j => vadd a (sink_term tp r j)) (where_true mask)
               (fold_left (fun a j => vadd a (live_term W od r j))
                  (where_true (map (Qltb 0) od)) (zeros n))))
         (vscale alpha p).
Proof.
  unfold Engine.sparse_step. cbv zeta.
  rewrite !skip_guard. reflexivity.
Qed.

Lemma length_live_term (n : nat) (W : matrix) (od r : vec) (j : nat) :
  square n W -> length (live_term W od r j) = n.
Proof.
  intros HW. unfold live_term, vscale, vdiv.
  rewrite !length_map, length_column. shapes.
Qed.

Lemma length_sink_term (tp r : vec) (j : nat) : length (sink_term tp r j) = length tp.
Proof. unfold sink_term, vscale. apply length_map. Qed.

Lemma nth_live_term (n : nat) (W : matrix) (od r : vec) (i j : nat) :
  square n W -> (i < n)%nat ->
  nth i (live_term W od r j) 0%Q
  = (nth j r 0 * (nth j (nth i W []) 0 / nth j od 0))%Q.
Proof.
  intros HW Hi. unfold live_term.
  rewrite nth_vscale by (unfold vdiv; rewrite length_map, length_column; shapes).
  rewrite nth_vdiv by (rewrite length_column; shapes).
  rewrite nth_column by shapes. reflexivity.
Qed.

Lemma nth_sink_term (tp r : vec) (i j : nat) :
  (i < length tp)%nat ->
  nth i (sink_term tp r j) 0%Q = (nth j r 0 * nth i tp 0)%Q.
Proof. intros Hi. unfold sink_term. apply nth_vscale. exact Hi. Qed.

Lemma length_sparse_step (alpha : Q) (n : nat) (W : matrix) (od : vec)
    (mask : list bool) (tp p r : vec) :
  square n W -> length tp = n -> length p = n ->
  length (Engine.sparse_step alpha n W od mask tp p r) = n.
Proof.
  intros HW Htp Hp. rewrite sparse_step_unfold. unfold vadd at 1.
  rewrite length_map2. unfold vscale. rewrite !length_map.
  rewrite (fold_vadd_length (sink_term tp r) (n := n)).
  - shapes.
  - apply (fold_vadd_length (live_term W od r) (n := n)).
    + apply repeat_length.
    + intros j _. apply length_live_term. exact HW.
  - intros j _. rewrite length_sink_term. exact Htp.
Qed.

Lemma nth_sparse_step (alpha : Q) (n : nat) (W : matrix) (od : vec)
    (mask : list bool) (tp p r : vec) (i : nat) :
  square n W -> length tp = n -> length p = n -> (i < n)%nat ->
  (nth i (Engine.sparse_step alpha n W od mask tp p r) 0
   == (1 - alpha)
      * (vsum (map (fun j => nth j r 0 * (nth j (nth i W []) 0 / nth j od 0))
                 (where_true (map (Qltb 0) od)))
         + vsum (map (fun j => nth j r 0 * nth i tp 0) (where_true mask)))
      + alpha * nth i p 0)%Q.
Proof.
  intros HW Htp Hp Hi.
  assert (Hlive : forall js,
             length (fold_left (fun a j => vadd a (live_term W od r j)) js (zeros n)) = n).
  { intros js. apply fold_vadd_length; [apply repeat_length |].
    intros j _. apply length_live_term. exact HW. }
  assert (Hsink : forall j, In j (where_true mask) -> length (sink_term tp r j) = n).
  { intros j _. rewrite length_sink_term. exact Htp. }
  rewrite sparse_step_unfold. unfold vadd at 1.
  rewrite (nth_map2 Qplus _ _ 0%Q 0%Q 0%Q).
  2:{ unfold vscale. rewrite length_map.
      rewrite (fold_vadd_length (sink_term tp r) (n := n)); auto. }
  2:{ unfold vscale. rewrite length_map. shapes. }
  rewrite !nth_vscale.
  2:{ shapes. }
  2:{ rewrite (fold_vadd_length (sink_term tp r) (n := n)); auto. }
  rewrite (fold_vadd_nth (sink_term tp r) (n := n)); auto.
  rewrite (fold_vadd_nth (live_term W od r) (n := n));
    [| apply repeat_length | intros j _; apply length_live_term; exact HW | exact Hi].
  rewrite nth_zeros.
  rewrite (map_ext _ (fun j => nth j r 0 * (nth j (nth i W []) 0 / nth j od 0))%Q)
    by (intros j; apply (nth_live_term (n := n)); assumption).
  rewrite (map_ext (fun j => nth i (sink_term tp r j) 0%Q)
             (fun j => nth j r 0 * nth i tp 0)%Q)
    by (intros j; apply nth_sink_term; shapes).
  ring.
Qed.

End StepEq.

(** C4, as amended.  On a square weighted adjacency [W], with the matrix
    that [build_transition_matrix] normalises from it (column [j] divided by
    its sum where that is positive, zero elsewhere), the mask of the columns
    whose sum is zero, the same teleport vector [p], the same damping and the
    same iterate [r], one pass of the dense loop body and one pass of the
    sparse loop body give the same next iterate. *)
Theorem dense_step_eq_sparse_step :
  forall (alpha : Q) (n : nat) (W : matrix) (p r : vec),
    square n W -> length p = n -> length r = n ->
    let out_degree := sum_axis0 W in
    let dangling_mask := Engine.is_zero out_degree in
    let dangling_teleport := if any dangling_mask then p else zeros n in
    veq (Engine.dense_step alpha (Engine.normalize_columns n W out_degree)
           dangling_mask p r)
        (Engine.sparse_step alpha n W out_degree dangling_mask dangling_teleport p r).
Proof.
  intros alpha n W p r HW Hp Hr od mask tp.
  assert (Hod : length od = n) by (apply StepFacts.length_sum_axis0; exact HW).
  assert (Hmask : length mask = n)
    by (unfold mask, Engine.is_zero; rewrite length_map; exact Hod).
  assert (Htp : length tp = n).
  { unfold tp. destruct (any mask); [exact Hp | apply repeat_length]. }
  destruct (@StepFacts.normalize_columns_spec n W od HW) as [HM Hentry].
  apply NpFacts.veq_nth.
  - rewrite (@StepEq.length_dense_step alpha n _ mask p r HM Hp).
    rewrite (@StepEq.length_sparse_step alpha n W od mask tp p r HW Htp Hp).
    reflexivity.
  - rewrite (@StepEq.length_dense_step alpha n _ mask p r HM Hp). intros i Hi.
    rewrite (@StepEq.nth_dense_step alpha n _ mask p r i HM Hp Hi).
    rewrite (@StepEq.nth_sparse_step alpha n W od mask tp p r i HW Htp Hp Hi).
    (* the matrix-vector product, column by column *)
    assert (Hrow := @StepFacts.square_row n _ i HM Hi).
    rewrite NpFacts.dot_as_sum by congruence.
    rewrite Hrow.
    rewrite NpFacts.where_true_filter, length_map, Hod.
    rewrite NpFacts.vsum_map_filter.
    assert (Hlive :
      (vsum (map (fun j => nth j (nth i (Engine.normalize_columns n W od) []) 0
                           * nth j r 0) (seq 0 n))
       == vsum (map (fun j => if nth j (map (Qltb 0) od) false
                              then nth j r 0 * (nth j (nth i W []) 0 / nth j od 0)
                              else 0) (seq 0 n)))%Q).
    { apply NpFacts.vsum_map_ext. intros j Hj. apply in_seq in Hj.
      rewrite (Hentry i j) by lia.
      rewrite (@StepFacts.nth_map_in _ _ (Qltb 0) od j 0%Q false) by lia.
      destruct (Qltb 0 (nth j od 0%Q)); ring. }
    rewrite Hlive. clear Hlive.
    (* the mass on the dangling columns *)
    rewrite NpFacts.select_where by congruence.
    assert (Hsink :
      (vsum (map (fun j => nth j r 0 * nth i tp 0) (where_true mask))
       == vsum (map (fun j => nth j r 0) (where_true mask)) * nth i p 0)%Q).
    { unfold tp. destruct (any mask) eqn:Hany.
      - transitivity (vsum (map (fun j => nth i p 0 * nth j r 0)%Q (where_true mask))).
        + apply NpFacts.vsum_map_ext. intros j _. ring.
        + rewrite NpFacts.vsum_map_scale. ring.
      - rewrite (NpFacts.any_false_where _ Hany). simpl. ring. }
    rewrite Hsink. ring.
Qed.

(** The hypotheses of [dense_step_eq_sparse_step] hold on the two-node cycle. *)
Lemma dense_step_eq_sparse_step_cycle2 :
  veq (Engine.dense_step (1 # 2)
         (Engine.normalize_columns 2 cycle2_adjacency (sum_axis0 cycle2_adjacency))
         (Engine.is_zero (sum_axis0 cycle2_adjacency)) [1; 0]%Q [1 # 2; 1 # 2]%Q)
      (Engine.sparse_step (1 # 2) 2 cycle2_adjacency (sum_axis0 cycle2_adjacency)
         (Engine.is_zero (sum_axis0 cycle2_adjacency))
         (if any (Engine.is_zero (sum_axis0 cycle2_adjacency))
          then [1; 0]%Q else zeros 2)
         [1; 0]%Q [1 # 2; 1 # 2]%Q).
Proof.
  apply (@dense_step_eq_sparse_step (1 # 2) 2 cycle2_adjacency [1; 0]%Q [1 # 2; 1 # 2]%Q).
  - split; [reflexivity | repeat constructor].
  - reflexivity.
  - reflexivity.
Defined.

(* ------------------------------------------------------------------ *)
(** * Mass: what the normalisation and the sparse step conserve        *)
(* ------------------------------------------------------------------ *)

Module Mass.
Import Np NpFacts StepFacts StepEq.

Lemma vsum_as_table (v : vec) :
  vsum v = vsum (map (fun i => nth i v 0%Q) (seq 0 (length v))).
Proof. rewrite <- (list_as_table v 0%Q). reflexivity. Qed.

Lemma vsum_zero {A : Type} (l : list A) : (vsum (map (fun _ => 0) l) == 0)%Q.
Proof. induction l as [| a l IH]; simpl; [reflexivity | rewrite IH; ring]. Qed.

(** Two nested sums may be taken in either order. *)
Lemma vsum_exchange {A B : Type} (f : A -> B -> Q) (xs : list A) (ys : list B) :
  (vsum (map (fun x => vsum (map (f x) ys)) xs)
   == vsum (map (fun y => vsum (map (fun x => f x y) xs)) ys))%Q.
Proof.
  induction xs as [| x xs IH]; cbn [map vsum fold_right].
  - rewrite vsum_zero. reflexivity.
  - fold (vsum (map (fun x => vsum (map (f x) ys)) xs)). rewrite IH.
    rewrite <- vsum_map_plus. apply vsum_map_ext. intros y _. reflexivity.
Qed.

Lemma vsum_map_scale_r {A : Type} (c : Q) (f : A -> Q) (l : list A) :
  (vsum (map (fun a => f a * c) l) == vsum (map f l) * c)%Q.
Proof.
  induction l as [| a l IH]; simpl; [ring | rewrite IH; ring].
Qed.

Lemma vsum_nonneg (v : vec) : Forall (fun x => 0 <= x)%Q v -> (0 <= vsum v)%Q.
Proof.
  induction 1 as [| x v Hx Hv IH]; simpl; [apply Qle_refl |].
  rewrite <- (Qplus_0_r 0). apply Qplus_le_compat; assumption.
Qed.

(** The sum of column [j] is entry [j] of [sum(axis=0)]. *)
Lemma nth_sum_axis0 (n : nat) (W : matrix) (j : nat) :
  square n W -> (j < n)%nat ->
  nth j (sum_axis0 W) 0%Q = vsum (map (fun i => nth j (nth i W []) 0%Q) (seq 0 n)).
Proof.
  intros HW Hj. unfold sum_axis0.
  rewrite (@nth_map_in _ _ (fun j => vsum (column W j)) (seq 0 (ncols W)) j 0%nat 0%Q)
    by (rewrite length_seq, (square_ncols HW); exact Hj).
  rewrite seq_nth by (rewrite (square_ncols HW); exact Hj). cbn [Nat.add].
  rewrite vsum_as_table, length_column.
  replace (length W) with n by (symmetry; apply HW).
  f_equal. apply map_ext_in. intros i Hi. apply in_seq in Hi.
  apply nth_column. shapes.
Qed.

(** A column of positive sum is normalised to a column of sum 1. *)
Lemma normalized_column_sum (n : nat) (W : matrix) (j : nat) :
  square n W -> (j < n)%nat -> (0 < nth j (sum_axis0 W) 0)%Q ->
  (vsum (map (fun i => nth j (nth i W []) 0 / nth j (sum_axis0 W) 0) (seq 0 n))
   == 1)%Q.
Proof.
  intros HW Hj Hpos.
  transitivity (vsum (map (fun i => nth j (nth i W []) 0%Q) (seq 0 n))
                * / nth j (sum_axis0 W) 0)%Q.
  - rewrite <- vsum_map_scale_r. apply vsum_map_ext. intros i _.
    unfold Qdiv. reflexivity.
  - rewrite <- (nth_sum_axis0 HW Hj). apply Qmult_inv_r.
    intros Hzero. rewrite Hzero in Hpos. exact (Qlt_irrefl 0 Hpos).
Qed.

(** Before the dangling fix-up, [build_transition_matrix] has normalised
    every column of positive sum to sum 1. *)
Lemma normalize_columns_stochastic (n : nat) (W : matrix) (j : nat) :
  square n W -> (j < n)%nat -> (0 < nth j (sum_axis0 W) 0)%Q ->
  (vsum (column (Engine.normalize_columns n W (sum_axis0 W)) j) == 1)%Q.
Proof.
  intros HW Hj Hpos.
  destruct (@normalize_columns_spec n W (sum_axis0 W) HW) as [HM Hentry].
  rewrite vsum_as_table, length_column.
  replace (length (Engine.normalize_columns n W (sum_axis0 W))) with n
    by (symmetry; apply HM).
  transitivity
    (vsum (map (fun i => nth j (nth i W []) 0 / nth j (sum_axis0 W) 0) (seq 0 n)))%Q;
    [| apply normalized_column_sum; assumption].
  apply vsum_map_ext. intros i Hi. apply in_seq in Hi.
  rewrite nth_column by shapes. rewrite (Hentry i j) by lia.
  apply Qltb_lt in Hpos. rewrite Hpos. reflexivity.
Qed.

(** One pass of the sparse loop body keeps the total mass: with non-negative
    column sums and a teleport vector of sum 1, the next iterate sums to
    [(1 - alpha) * sum r + alpha]. *)
Lemma sparse_step_mass (alpha : Q) (n : nat) (W : matrix) (p r : vec) :
  square n W -> length p = n -> length r = n ->
  (forall j, (j < n)%nat -> 0 <= nth j (sum_axis0 W) 0)%Q ->
  (vsum p == 1)%Q ->
  let od := sum_axis0 W in
  let mask := Engine.is_zero od in
  let tp := if any mask then p else zeros n in
  (vsum (Engine.sparse_step alpha n W od mask tp p r)
   == (1 - alpha) * vsum r + alpha)%Q.
Proof.
  intros HW Hp Hr Hnonneg Hp1 od mask tp.
  assert (Hod : length od = n) by (apply length_sum_axis0; exact HW).
  assert (Hmask : length mask = n)
    by (unfold mask, Engine.is_zero; rewrite length_map; exact Hod).
  assert (Htp : length tp = n).
  { unfold tp. destruct (any mask); [exact Hp | apply repeat_length]. }
  rewrite vsum_as_table.
  rewrite (@length_sparse_step alpha n W od mask tp p r HW Htp Hp).
  set (live := where_true (map (Qltb 0) od)).
  set (sink := where_true mask).
  transitivity
    (vsum (map (fun i =>
                  (1 - alpha)
                  * (vsum (map (fun j => nth j r 0 * (nth j (nth i W []) 0 / nth j od 0))
                             live)
                     + vsum (map (fun j => nth j r 0 * nth i tp 0) sink))
                  + alpha * nth i p 0) (seq 0 n)))%Q.
  { apply vsum_map_ext. intros i Hi. apply in_seq in Hi.
    apply (@nth_sparse_step alpha n W od mask tp p r i HW Htp Hp). lia. }
  rewrite vsum_map_plus, vsum_map_scale, vsum_map_plus, vsum_map_scale.
  (* the teleport part *)
  assert (Hpsum : (vsum (map (fun i => nth i p 0%Q) (seq 0 n)) == 1)%Q).
  { rewrite <- Hp, <- vsum_as_table. exact Hp1. }
  rewrite Hpsum.
  (* the live columns *)
  assert (Hlive :
    (vsum (map (fun i => vsum (map (fun j => nth j r 0
                                             * (nth j (nth i W []) 0 / nth j od 0))
                                   live)) (seq 0 n))
     == vsum (map (fun j => nth j r 0%Q) live))%Q).
  { rewrite vsum_exchange. apply vsum_map_ext. intros j Hj.
    rewrite vsum_map_scale.
    unfold live in Hj. rewrite where_true_filter, filter_In in Hj.
    destruct Hj as [Hj Hpos]. apply in_seq in Hj.
    rewrite length_map, Hod in Hj.
    rewrite (@nth_map_in _ _ (Qltb 0) od j 0%Q false) in Hpos by lia.
    apply Qltb_lt in Hpos.
    assert (Hj' : (j < n)%nat) by lia.
    pose proof (@normalized_column_sum n W j HW Hj' Hpos) as Hone.
    fold od in Hone. rewrite Hone. ring. }
  (* the dangling columns *)
  assert (Hsink :
    (vsum (map (fun i => vsum (map (fun j => nth j r 0 * nth i tp 0) sink)) (seq 0 n))
     == vsum (map (fun j => nth j r 0%Q) sink))%Q).
  { rewrite vsum_exchange. unfold tp, sink.
    destruct (any mask) eqn:Hany.
    - apply vsum_map_ext. intros j _. rewrite vsum_map_scale, Hpsum. ring.
    - rewrite (any_false_where _ Hany). reflexivity. }
  rewrite Hlive, Hsink.
  (* every column is live or dangling *)
  assert (Hsplit :
    (vsum (map (fun j => nth j r 0%Q) live) + vsum (map (fun j => nth j r 0%Q) sink)
     == vsum r)%Q).
  { unfold live, sink. rewrite !where_true_filter, !vsum_map_filter.
    rewrite length_map, Hod, Hmask, <- vsum_map_plus.
    rewrite (vsum_as_table r), Hr. apply vsum_map_ext. intros j Hj.
    apply in_seq in Hj.
    rewrite (@nth_map_in _ _ (Qltb 0) od j 0%Q false) by lia.
    unfold mask, Engine.is_zero.
    rewrite (@nth_map_in _ _ (fun d => Qeq_bool d 0) od j 0%Q false) by lia.
    destruct (Qltb 0 (nth j od 0%Q)) eqn:Hpos;
      destruct (Qeq_bool (nth j od 0%Q) 0) eqn:Hzero; try ring.
    - apply Qltb_lt in Hpos. apply Qeq_bool_iff in Hzero.
      rewrite Hzero in Hpos. exfalso. exact (Qlt_irrefl 0 Hpos).
    - exfalso. apply Qltb_nlt in Hpos. apply Qeq_bool_neq in Hzero.
      assert (Hj' : (j < n)%nat) by lia.
      pose proof (Hnonneg j Hj') as Hge. fold od in Hge.
      apply Qle_lteq in Hge. destruct Hge as [Hlt | Heq]; [exact (Hpos Hlt) |].
      apply Hzero. symmetry. exact Heq. }
  rewrite Hsplit. ring.
Qed.

End Mass.

Module MassLoop.
Import Np NpFacts StepFacts StepEq Mass.

Lemma of_nat_succ (k : nat) : (of_nat (S k) == of_nat k + 1)%Q.
Proof.
  unfold of_nat. rewrite Nat2Z.inj_succ, <- Z.add_1_r, inject_Z_plus. reflexivity.
Qed.

Lemma of_nat_pos (k : nat) : (0 < k)%nat -> (0 < of_nat k)%Q.
Proof.
  intros Hk. unfold of_nat. change 0%Q with (inject_Z 0).
  rewrite <- Zlt_Qlt. lia.
Qed.

Lemma vsum_ones_div (k : nat) (c : Q) :
  (vsum (vdiv (ones k) c) == of_nat k / c)%Q.
Proof.
  unfold vdiv, ones. induction k as [| k IH]; cbn [repeat map vsum fold_right].
  - change (of_nat 0) with 0%Q. unfold Qdiv. ring.
  - fold (vsum (map (fun x => (x / c)%Q) (repeat 1%Q k))).
    rewrite IH, of_nat_succ. unfold Qdiv. ring.
Qed.

(** The uniform vector is a distribution. *)
Lemma uniform_distribution (n : nat) :
  (0 < n)%nat -> distribution n (vdiv (ones n) (of_nat n)).
Proof.
  intros Hn. pose proof (of_nat_pos Hn) as Hpos. split; [| split].
  - unfold vdiv, ones. rewrite length_map. apply repeat_length.
  - unfold vdiv, ones. apply Forall_forall. intros x Hx.
    apply in_map_iff in Hx. destruct Hx as (y & <- & Hy).
    apply repeat_spec in Hy. subst y.
    apply Qle_shift_div_l; [exact Hpos |]. rewrite Qmult_0_l. discriminate.
  - rewrite vsum_ones_div. field. intros Hzero.
    rewrite Hzero in Hpos. exact (Qlt_irrefl 0 Hpos).
Qed.

Lemma nonneg_entry (n : nat) (W : matrix) (i j : nat) :
  nonneg_matrix W -> (0 <= nth j (nth i W []) 0)%Q.
Proof.
  intros HW. unfold nonneg_matrix in HW. rewrite Forall_forall in HW.
  destruct (Nat.lt_ge_cases i (length W)) as [Hi | Hi].
  - specialize (HW (nth i W []) (nth_In W [] Hi)). rewrite Forall_forall in HW.
    destruct (Nat.lt_ge_cases j (length (nth i W []))) as [Hj | Hj].
    + apply HW. apply nth_In. exact Hj.
    + rewrite nth_overflow by exact Hj. apply Qle_refl.
  - rewrite (nth_overflow W) by exact Hi. destruct j; apply Qle_refl.
Qed.

Lemma nonneg_nth (v : vec) (i : nat) :
  Forall (fun x => 0 <= x)%Q v -> (0 <= nth i v 0)%Q.
Proof.
  intros Hv. rewrite Forall_forall in Hv.
  destruct (Nat.lt_ge_cases i (length v)) as [Hi | Hi].
  - apply Hv. apply nth_In. exact Hi.
  - rewrite nth_overflow by exact Hi. apply Qle_refl.
Qed.

Lemma column_sums_nonneg (n : nat) (W : matrix) (j : nat) :
  square n W -> nonneg_matrix W -> (j < n)%nat -> (0 <= nth j (sum_axis0 W) 0)%Q.
Proof.
  intros Hsq HW Hj. rewrite (nth_sum_axis0 Hsq Hj). apply vsum_nonneg.
  apply Forall_forall. intros x Hx. apply in_map_iff in Hx.
  destruct Hx as (i & <- & _). apply (nonneg_entry n). exact HW.
Qed.

(** One pass of the sparse loop body maps distributions to distributions. *)
Lemma sparse_step_distribution (alpha : Q) (n : nat) (W : matrix) (p r : vec) :
  (0 <= alpha <= 1)%Q ->
  square n W -> nonneg_matrix W -> distribution n p -> distribution n r ->
  let od := sum_axis0 W in
  let mask := Engine.is_zero od in
  let tp := if any mask then p else zeros n in
  distribution n (Engine.sparse_step alpha n W od mask tp p r).
Proof.
  intros [Ha0 Ha1] Hsq HW (Hp & Hp0 & Hp1) (Hr & Hr0 & Hr1) od mask tp.
  assert (Htp : length tp = n).
  { unfold tp. destruct (any mask); [exact Hp | apply repeat_length]. }
  assert (Htp0 : Forall (fun x => 0 <= x)%Q tp).
  { unfold tp. destruct (any mask); [exact Hp0 |].
    apply Forall_forall. intros x Hx. apply repeat_spec in Hx. subst x.
    apply Qle_refl. }
  pose proof (@length_sparse_step alpha n W od mask tp p r Hsq Htp Hp) as Hlen.
  split; [exact Hlen | split].
  - apply Forall_forall. intros x Hx.
    destruct (In_nth _ _ 0%Q Hx) as (i & Hi & <-). rewrite Hlen in Hi.
    rewrite (@nth_sparse_step alpha n W od mask tp p r i Hsq Htp Hp Hi).
    assert (H1a : (0 <= 1 - alpha)%Q) by lra.
    assert (Hlive :
      (0 <= vsum (map (fun j => nth j r 0 * (nth j (nth i W []) 0 / nth j od 0))
                    (where_true (map (Qltb 0) od))))%Q).
    { apply vsum_nonneg. apply Forall_forall. intros y Hy.
      apply in_map_iff in Hy. destruct Hy as (j & <- & Hj).
      rewrite where_true_filter, filter_In in Hj. destruct Hj as [Hj Hpos].
      apply in_seq in Hj. rewrite length_map in Hj.
      rewrite (@nth_map_in _ _ (Qltb 0) od j 0%Q false) in Hpos by lia.
      apply Qltb_lt in Hpos.
      apply Qmult_le_0_compat; [apply nonneg_nth; exact Hr0 |].
      apply Qle_shift_div_l; [exact Hpos |]. rewrite Qmult_0_l.
      apply (nonneg_entry n). exact HW. }
    assert (Hsink :
      (0 <= vsum (map (fun j => nth j r 0 * nth i tp 0) (where_true mask)))%Q).
    { apply vsum_nonneg. apply Forall_forall. intros y Hy.
      apply in_map_iff in Hy. destruct Hy as (j & <- & _).
      apply Qmult_le_0_compat; apply nonneg_nth; assumption. }
    pose proof (nonneg_nth i Hp0) as Hpi.
    assert (H1 : (0 <= (1 - alpha)
                       * (vsum (map (fun j => nth j r 0
                                               * (nth j (nth i W []) 0 / nth j od 0))
                                  (where_true (map (Qltb 0) od)))
                          + vsum (map (fun j => nth j r 0 * nth i tp 0)
                                    (where_true mask))))%Q).
    { apply Qmult_le_0_compat; [exact H1a |]. lra. }
    assert (H2 : (0 <= alpha * nth i p 0)%Q)
      by (apply Qmult_le_0_compat; assumption).
    lra.
  - transitivity ((1 - alpha) * vsum r + alpha)%Q; [| rewrite Hr1; ring].
    apply sparse_step_mass; try assumption.
    intros j Hj. apply (@column_sums_nonneg n); assumption.
Qed.

(** What holds of the start and is kept by the step holds of the result. *)
Lemma power_loop_invariant (P : vec -> Prop) (step : vec -> vec) (tol : Q)
    (todo : nat) :
  (forall r, P r -> P (step r)) ->
  forall (it : Z) (r : vec), P r -> P (fst (power_loop step tol todo it r)).
Proof.
  intros Hstep. induction todo as [| todo IH]; intros it r Hr; cbn [power_loop].
  - exact Hr.
  - destruct (Qltb (residual step r) tol); cbn [fst].
    + apply Hstep. exact Hr.
    + apply IH. apply Hstep. exact Hr.
Qed.

(** With a teleport vector that is a distribution, the sparse path succeeds
    under the Uniform strategy and its scores form a distribution. *)
Lemma sparse_page_rank_distribution (e : Engine.PowerIterationEngine)
    (node_ids : list string) (A : matrix)
    (suspicious_nodes base_weights : option (dict string Q)) :
  let n := length node_ids in
  (0 <= Engine.damping_factor e <= 1)%Q ->
  (0 < n)%nat -> square n A -> nonneg_matrix A ->
  distribution n
    (compute_personalization_vector (Engine.personalization_strategy e)
       node_ids suspicious_nodes base_weights) ->
  forall scores,
    snd (Engine.compute_sparse_page_rank e node_ids A None
           suspicious_nodes base_weights) = Ok scores ->
    exists r,
      Engine._page_rank
        (fst (Engine.compute_sparse_page_rank e node_ids A None
                suspicious_nodes base_weights)) = Some r /\
      scores = Engine.score_dict node_ids r /\
      distribution n r.
Proof.
  intros n Halpha Hn Hsq HA Hp scores.
  unfold Engine.compute_sparse_page_rank. cbn.
  set (p := compute_personalization_vector _ _ _ _) in *.
  set (od := sum_axis0 A). set (mask := Engine.is_zero od).
  fold n.
  assert (Hinv : forall todo,
             distribution n
               (fst (Engine.sparse_loop (Engine.damping_factor e) (Engine.tolerance e)
                       n A od mask (if any mask then p else zeros n) p todo 0
                       (vdiv (ones n) (of_nat n))))).
  { intros todo. rewrite LoopFacts.sparse_loop_power_loop.
    apply power_loop_invariant; [| apply uniform_distribution; exact Hn].
    intros r Hr. apply sparse_step_distribution; assumption. }
  destruct (any mask) eqn:Hany.
  - destruct (handle_dangling_nodes _ _ _); cbn; [| discriminate].
    specialize (Hinv (Z.to_nat (Engine.max_iterations e))).
    destruct (Engine.sparse_loop _ _ _ _ _ _ _ _ _ _ _) as [r [k |]];
      cbn in *; intros Heq; injection Heq as <-; exists r; auto.
  - cbn. specialize (Hinv (Z.to_nat (Engine.max_iterations e))).
    destruct (Engine.sparse_loop _ _ _ _ _ _ _ _ _ _ _) as [r [k |]];
      cbn in *; intros Heq; injection Heq as <-; exists r; auto.
Qed.

End MassLoop.

(* ------------------------------------------------------------------ *)
(** * The personalization strategies                                   *)
(* ------------------------------------------------------------------ *)

Module Personalization.
Import Np NpFacts StepFacts MassLoop.

Lemma nonneg_list_set (v : vec) (i : nat) (x : Q) :
  Forall (fun y => 0 <= y)%Q v -> (0 <= x)%Q ->
  Forall (fun y => 0 <= y)%Q (Py.list_set v i x).
Proof.
  intros Hv Hx. revert i. induction Hv as [| y v Hy Hv IH]; intros [| i]; simpl;
    constructor; auto.
Qed.

Lemma vsum_vdiv (v : vec) (c : Q) : (vsum (vdiv v c) == vsum v / c)%Q.
Proof.
  unfold vdiv. induction v as [| x v IH]; simpl.
  - unfold Qdiv. ring.
  - rewrite IH. unfold Qdiv. ring.
Qed.

(** Dividing a non-negative vector by its positive sum gives a distribution. *)
Lemma normalized_distribution (n : nat) (v : vec) :
  length v = n -> Forall (fun y => 0 <= y)%Q v -> (0 < vsum v)%Q ->
  distribution n (vdiv v (vsum v)).
Proof.
  intros Hlen Hv Hpos. split; [| split].
  - unfold vdiv. rewrite length_map. exact Hlen.
  - unfold vdiv. apply Forall_forall. intros x Hx.
    apply in_map_iff in Hx. destruct Hx as (y & <- & Hy).
    rewrite Forall_forall in Hv.
    apply Qle_shift_div_l; [exact Hpos |]. rewrite Qmult_0_l. apply Hv. exact Hy.
  - rewrite vsum_vdiv. field. intros Hzero.
    rewrite Hzero in Hpos. exact (Qlt_irrefl 0 Hpos).
Qed.

(** X2.  The transaction-volume strategy returns a probability distribution
    on every non-empty node list, whatever the non-negative base weights
    and suspicion scores: it falls back to the uniform vector when no base
    weight is given or the accumulated mass is zero. *)
Lemma volume_distribution (node_ids : list string)
    (suspicious_nodes base_weights : option (dict string Q)) :
  (0 < length node_ids)%nat ->
  nonneg_values suspicious_nodes -> nonneg_values base_weights ->
  distribution (length node_ids)
    (volume_compute_personalization_vector node_ids suspicious_nodes base_weights).
Proof.
  intros Hn Hs Hb. unfold volume_compute_personalization_vector.
  set (n := length node_ids) in *.
  destruct (truthy base_weights); cbn [negb];
    [| apply uniform_distribution; exact Hn].
  set (idx := node_to_idx_of node_ids).
  (* the base weights *)
  assert (Hfold1 : forall kvs st,
             Forall (fun kv => 0 <= snd kv)%Q kvs ->
             length (fst st) = n /\ Forall (fun y => 0 <= y)%Q (fst st) /\ (0 <= snd st)%Q ->
             let st' :=
               fold_left
                 (fun st kv =>
                    match get idx (fst kv) with
                    | Some i => (Py.list_set (fst st) i (snd kv), (snd st + snd kv)%Q)
                    | None => st
                    end) kvs st in
             length (fst st') = n /\ Forall (fun y => 0 <= y)%Q (fst st') /\ (0 <= snd st')%Q).
  { induction kvs as [| kv kvs IH]; intros st Hkvs Hst; cbn [fold_left]; [exact Hst |].
    inversion Hkvs as [| ? ? Hkv Hkvs']; subst. apply IH; [exact Hkvs' |].
    destruct Hst as (Hlen & Hnn & Htw).
    destruct (get idx (fst kv)); cbn [fst snd]; [| auto].
    split; [rewrite length_list_set; exact Hlen |].
    split; [apply nonneg_list_set; assumption | lra]. }
  assert (Hinit : length (fst (zeros n, 0%Q)) = n /\
                  Forall (fun y => 0 <= y)%Q (fst (zeros n, 0%Q)) /\
                  (0 <= snd (zeros n, 0%Q))%Q).
  { cbn [fst snd]. split; [apply repeat_length |]. split; [| apply Qle_refl].
    apply Forall_forall. intros x Hx. apply repeat_spec in Hx. subst x. apply Qle_refl. }
  specialize (Hfold1 (items base_weights) (zeros n, 0%Q) Hb Hinit).
  cbv zeta in Hfold1.
  match type of Hfold1 with
  | context [fold_left ?f ?l ?a] => destruct (fold_left f l a) as [pers tw]
  end.
  cbn [fst snd] in Hfold1.
  destruct Hfold1 as (Hlen & Hnn & Htw).
  (* the suspicion boost *)
  assert (Hfold2 : forall kvs v,
             Forall (fun kv => 0 <= snd kv)%Q kvs ->
             length v = n /\ Forall (fun y => 0 <= y)%Q v ->
             let v' :=
               fold_left
                 (fun pers kv =>
                    match get idx (fst kv) with
                    | Some i =>
                        Py.list_set pers i (nth i pers 0 + snd kv * tw / of_nat n)%Q
                    | None => pers
                    end) kvs v in
             length v' = n /\ Forall (fun y => 0 <= y)%Q v').
  { induction kvs as [| kv kvs IH]; intros v Hkvs Hv; cbn [fold_left]; [exact Hv |].
    inversion Hkvs as [| ? ? Hkv Hkvs']; subst. apply IH; [exact Hkvs' |].
    destruct Hv as (Hlenv & Hnnv).
    destruct (get idx (fst kv)) as [i |]; [| auto].
    split; [rewrite length_list_set; exact Hlenv |].
    apply nonneg_list_set; [exact Hnnv |].
    pose proof (nonneg_nth i Hnnv) as Hi.
    assert (0 <= snd kv * tw / of_nat n)%Q.
    { apply Qle_shift_div_l; [apply of_nat_pos; exact Hn |].
      rewrite Qmult_0_l. apply Qmult_le_0_compat; assumption. }
    lra. }
  set (pers2 :=
         if truthy suspicious_nodes
         then fold_left
                (fun pers kv =>
                   match get idx (fst kv) with
                   | Some i =>
                       Py.list_set pers i (nth i pers 0 + snd kv * tw / of_nat n)%Q
                   | None => pers
                   end) (items suspicious_nodes) pers
         else pers).
  assert (Hpers2 : length pers2 = n /\ Forall (fun y => 0 <= y)%Q pers2).
  { unfold pers2. destruct (truthy suspicious_nodes); [| auto].
    apply Hfold2; auto. }
  destruct Hpers2 as [Hlen2 Hnn2].
  destruct (Qltb 0 (vsum pers2)) eqn:Hpos.
  - apply Qltb_lt in Hpos. apply normalized_distribution; assumption.
  - apply uniform_distribution; exact Hn.
Qed.

(** X3.  On a non-empty node list, with a suspicion weight of at least 1 and
    non-negative base weights and suspicion scores, the suspicion-based
    strategy returns a non-negative vector with one entry per node that sums
    to 1 or, when the accumulated mass is zero, to 0 (the strategy has no
    uniform fallback). *)
Lemma suspicion_distribution_or_zero (suspicion_weight : Q) (node_ids : list string)
    (suspicious_nodes base_weights : option (dict string Q)) :
  (0 < length node_ids)%nat -> (1 <= suspicion_weight)%Q ->
  nonneg_values suspicious_nodes -> nonneg_values base_weights ->
  let v := suspicion_compute_personalization_vector suspicion_weight node_ids
             suspicious_nodes base_weights in
  distribution (length node_ids) v \/
  (length v = length node_ids /\ Forall (fun y => 0 <= y)%Q v /\ (vsum v == 0)%Q).
Proof.
  intros Hn Hw Hs Hb. unfold suspicion_compute_personalization_vector.
  set (n := length node_ids) in *. set (idx := node_to_idx_of node_ids).
  destruct (uniform_distribution Hn) as (Hlen0 & Hnn0 & _). fold n in Hlen0, Hnn0.
  assert (Hfold1 : forall kvs v,
             Forall (fun kv => 0 <= snd kv)%Q kvs ->
             length v = n /\ Forall (fun y => 0 <= y)%Q v ->
             let v' :=
               fold_left
                 (fun pers kv =>
                    match get idx (fst kv) with
                    | Some i => Py.list_set pers i (snd kv)
                    | None => pers
                    end) kvs v in
             length v' = n /\ Forall (fun y => 0 <= y)%Q v').
  { induction kvs as [| kv kvs IH]; intros v Hkvs Hv; cbn [fold_left]; [exact Hv |].
    inversion Hkvs as [| ? ? Hkv Hkvs']; subst. apply IH; [exact Hkvs' |].
    destruct Hv as (Hlenv & Hnnv).
    destruct (get idx (fst kv)) as [i |]; [| auto].
    split; [rewrite length_list_set; exact Hlenv |].
    apply nonneg_list_set; assumption. }
  assert (Hfold2 : forall kvs v,
             Forall (fun kv => 0 <= snd kv)%Q kvs ->
             length v = n /\ Forall (fun y => 0 <= y)%Q v ->
             let v' :=
               fold_left
                 (fun pers kv =>
                    match get idx (fst kv) with
                    | Some i =>
                        Py.list_set pers i
                          (nth i pers 0 * (1 + (suspicion_weight - 1) * snd kv))%Q
                    | None => pers
                    end) kvs v in
             length v' = n /\ Forall (fun y => 0 <= y)%Q v').
  { induction kvs as [| kv kvs IH]; intros v Hkvs Hv; cbn [fold_left]; [exact Hv |].
    inversion Hkvs as [| ? ? Hkv Hkvs']; subst. apply IH; [exact Hkvs' |].
    destruct Hv as (Hlenv & Hnnv).
    destruct (get idx (fst kv)) as [i |]; [| auto].
    split; [rewrite length_list_set; exact Hlenv |].
    apply nonneg_list_set; [exact Hnnv |].
    apply Qmult_le_0_compat; [apply nonneg_nth; exact Hnnv |].
    assert (0 <= (suspicion_weight - 1) * snd kv)%Q
      by (apply Qmult_le_0_compat; [lra | exact Hkv]).
    lra. }
  set (pers1 :=
         if truthy base_weights
         then fold_left
                (fun pers kv =>
                   match get idx (fst kv) with
                   | Some i => Py.list_set pers i (snd kv)
                   | None => pers
                   end) (items base_weights) (vdiv (ones n) (of_nat n))
         else vdiv (ones n) (of_nat n)).
  assert (Hpers1 : length pers1 = n /\ Forall (fun y => 0 <= y)%Q pers1).
  { unfold pers1. destruct (truthy base_weights); [| auto]. apply Hfold1; auto. }
  set (pers2 :=
         if truthy suspicious_nodes
         then fold_left
                (fun pers kv =>
                   match get idx (fst kv) with
                   | Some i =>
                       Py.list_set pers i
                         (nth i pers 0 * (1 + (suspicion_weight - 1) * snd kv))%Q
                   | None => pers
                   end) (items suspicious_nodes) pers1
         else pers1).
  assert (Hpers2 : length pers2 = n /\ Forall (fun y => 0 <= y)%Q pers2).
  { unfold pers2. destruct (truthy suspicious_nodes); [| exact Hpers1].
    apply Hfold2; auto. }
  destruct Hpers2 as [Hlen2 Hnn2]. cbv zeta.
  destruct (Qltb 0 (vsum pers2)) eqn:Hpos.
  - left. apply Qltb_lt in Hpos. apply normalized_distribution; assumption.
  - right. split; [exact Hlen2 | split; [exact Hnn2 |]].
    apply Qltb_nlt in Hpos. pose proof (Mass.vsum_nonneg Hnn2) as Hge.
    apply Qle_antisym; [| exact Hge]. apply Qnot_lt_le. exact Hpos.
Qed.

End Personalization.

(* ------------------------------------------------------------------ *)
(** * The sparse path reads the configuration only                     *)
(* ------------------------------------------------------------------ *)

Module Determinism.

Lemma same_configuration_refl (e : Engine.PowerIterationEngine) :
  same_configuration e e.
Proof. repeat split. Qed.

Lemma sparse_result_of_configuration (e e' : Engine.PowerIterationEngine)
    (node_ids : list string) (A : matrix) (W : option matrix)
    (suspicious_nodes base_weights : option (dict string Q)) :
  same_configuration e e' ->
  snd (Engine.compute_sparse_page_rank e node_ids A W suspicious_nodes base_weights)
  = snd (Engine.compute_sparse_page_rank e' node_ids A W suspicious_nodes base_weights).
Proof.
  destruct e, e'. unfold same_configuration. cbn.
  intros (-> & -> & -> & -> & ->).
  unfold Engine.compute_sparse_page_rank. cbn.
  destruct (any _).
  - destruct (handle_dangling_nodes _ _ _); cbn; [| reflexivity].
    destruct (Engine.sparse_loop _ _ _ _ _ _ _ _ _ _ _) as [r [k |]]; reflexivity.
  - cbn.
    destruct (Engine.sparse_loop _ _ _ _ _ _ _ _ _ _ _) as [r [k |]]; reflexivity.
Qed.

Lemma sparse_keeps_configuration (e : Engine.PowerIterationEngine)
    (node_ids : list string) (A : matrix) (W : option matrix)
    (suspicious_nodes base_weights : option (dict string Q)) :
  same_configuration e
    (fst (Engine.compute_sparse_page_rank e node_ids A W suspicious_nodes base_weights)).
Proof.
  destruct e. unfold Engine.compute_sparse_page_rank. cbn.
  destruct (any _).
  - destruct (handle_dangling_nodes _ _ _); cbn; [| repeat split].
    destruct (Engine.sparse_loop _ _ _ _ _ _ _ _ _ _ _) as [r [k |]]; repeat split.
  - cbn.
    destruct (Engine.sparse_loop _ _ _ _ _ _ _ _ _ _ _) as [r [k |]]; repeat split.
Qed.

End Determinism.

(** C9.  The result of [compute_sparse_page_rank] on an engine that has
    already served an earlier call, with any inputs, is the result on the
    engine as it was before that call: the outcome is a function of the
    arguments and of the configuration, and the cached diagnostics of earlier
    computations do not enter it.  In particular two runs in a row on the same
    inputs return the same mapping. *)
Theorem compute_sparse_page_rank_deterministic :
  forall (e : Engine.PowerIterationEngine)
         (ids0 : list string) (A0 : matrix) (W0 : option matrix)
         (s0 b0 : option (dict string Q))
         (node_ids : list string) (A : matrix) (W : option matrix)
         (suspicious_nodes base_weights : option (dict string Q)),
    snd (Engine.compute_sparse_page_rank
           (fst (Engine.compute_sparse_page_rank e ids0 A0 W0 s0 b0))
           node_ids A W suspicious_nodes base_weights)
    = snd (Engine.compute_sparse_page_rank e
             node_ids A W suspicious_nodes base_weights).
Proof.
  intros. symmetry.
  apply Determinism.sparse_result_of_configuration.
  apply Determinism.sparse_keeps_configuration.
Qed.

(* ------------------------------------------------------------------ *)
(** * The entry points around their loops                              *)
(* ------------------------------------------------------------------ *)

Module EngineFacts.

(** The dense entry point, on an object that offers the method and whose
    seeding succeeds, runs [dense_loop] from [r = p] and writes the
    diagnostics only on a break. *)
Lemma dense_entry_point_runs_loop (e : Engine.PowerIterationEngine)
    (graph : Engine.GraphObject) (M : matrix) (mask : list bool)
    (node_ids : list string) (suspicious_nodes : option (dict string Q)) (p0 : vec) :
  graph "get_normalized_matrix"
  = Some (Engine.NormalizedMatrixMethod (M, mask, node_ids)) ->
  Engine.dense_seed graph (length node_ids) suspicious_nodes = Ok p0 ->
  let n := length node_ids in
  let p := if Qltb 0 (vsum p0) then vdiv p0 (vsum p0) else vdiv (ones n) (of_nat n) in
  let out := Engine.dense_loop (Engine.damping_factor e) (Engine.tolerance e)
               M mask p (Z.to_nat (Engine.max_iterations e)) 0 p in
  Engine.computeـpage_rank e graph suspicious_nodes
  = (match snd out with
     | Some k => Engine.set_convergence e true k
     | None => e
     end,
     Ok (Engine.score_dict node_ids (fst out))).
Proof.
  intros Hmethod Hseed n p out. unfold Engine.computeـpage_rank.
  rewrite Hmethod, Hseed. fold n. fold p. fold out.
  destruct out as [r [k |]]; reflexivity.
Qed.

(** X5.  A call of the sparse entry point that returns always writes the
    diagnostics that [get_convergence_info] reports: either convergence with
    an iteration count between 1 and [max_iterations], or no convergence
    with [max_iterations] as the count. *)
Lemma sparse_convergence_record (e : Engine.PowerIterationEngine)
    (node_ids : list string) (A : matrix) (W : option matrix)
    (suspicious_nodes base_weights : option (dict string Q))
    (scores : dict string Q) :
  snd (Engine.compute_sparse_page_rank e node_ids A W suspicious_nodes base_weights)
  = Ok scores ->
  let e' := fst (Engine.compute_sparse_page_rank e node_ids A W
                   suspicious_nodes base_weights) in
  (Engine._converged e' = true /\
   (1 <= Engine._iterations_performed e' <= Engine.max_iterations e)%Z) \/
  (Engine._converged e' = false /\
   Engine._iterations_performed e' = Engine.max_iterations e).
Proof.
  unfold Engine.compute_sparse_page_rank. cbn.
  match goal with
  | |- context [Engine.sparse_loop ?a ?tol ?n ?Wc ?od ?mask] =>
      set (loop := fun tp p => Engine.sparse_loop a tol n Wc od mask tp p
                                 (Z.to_nat (Engine.max_iterations e)) 0
                                 (vdiv (ones n) (of_nat n)))
  end.
  assert (Hloop : forall tp p,
             match loop tp p with
             | (_, Some k) => (1 <= k <= Engine.max_iterations e)%Z
             | (_, None) => True
             end).
  { intros tp p. unfold loop. rewrite LoopFacts.sparse_loop_power_loop.
    match goal with
    | |- context [power_loop ?step ?tol ?todo 0 ?r] =>
        pose proof (LoopFacts.power_loop_spec step tol todo 0 r) as Hspec;
        destruct (power_loop step tol todo 0 r) as [r' [k |]]; [| exact I]
    end.
    destruct Hspec as (t & Ht & -> & _). lia. }
  destruct (any _).
  - destruct (handle_dangling_nodes _ _ _); cbn; [| discriminate].
    match goal with
    | |- context [Engine.sparse_loop ?a ?tol ?n ?Wc ?od ?mask ?tp ?p ?todo 0 ?r] =>
        specialize (Hloop tp p); unfold loop in Hloop;
        destruct (Engine.sparse_loop a tol n Wc od mask tp p todo 0 r) as [r' [k |]]
    end; cbn; intros _; [left | right]; auto.
  - cbn.
    match goal with
    | |- context [Engine.sparse_loop ?a ?tol ?n ?Wc ?od ?mask ?tp ?p ?todo 0 ?r] =>
        specialize (Hloop tp p); unfold loop in Hloop;
        destruct (Engine.sparse_loop a tol n Wc od mask tp p todo 0 r) as [r' [k |]]
    end; cbn; intros _; [left | right]; auto.
Qed.

End EngineFacts.

(* ------------------------------------------------------------------ *)
(** * The engine on well-formed inputs                                 *)
(* ------------------------------------------------------------------ *)

Module EngineMore.
Import Np NpFacts StepFacts StepEq Mass MassLoop.

Lemma where_true_all_false (mask : list bool) :
  Forall (fun b => b = false) mask -> where_true mask = [].
Proof.
  intros Hall. apply any_false_where. unfold any.
  destruct (existsb (fun b => b) mask) eqn:Hex; [| reflexivity].
  apply existsb_exists in Hex. destruct Hex as (b & Hin & Hb).
  rewrite Forall_forall in Hall. rewrite (Hall b Hin) in Hb. discriminate.
Qed.

Lemma is_zero_positive (n : nat) (od : vec) :
  length od = n ->
  (forall j, (j < n)%nat -> 0 < nth j od 0)%Q ->
  Forall (fun b => b = false) (Engine.is_zero od).
Proof.
  intros Hlen Hpos. unfold Engine.is_zero. apply Forall_forall.
  intros b Hb. apply in_map_iff in Hb. destruct Hb as (d & <- & Hd).
  destruct (In_nth _ _ 0%Q Hd) as (j & Hj & <-).
  destruct (Qeq_bool (nth j od 0%Q) 0) eqn:Hz; [| reflexivity].
  apply Qeq_bool_iff in Hz. specialize (Hpos j). rewrite Hz in Hpos.
  exfalso. apply (Qlt_irrefl 0). apply Hpos. lia.
Qed.

(** The Uniform strategy accepts the dummy matrix of the sparse path. *)
Lemma uniform_rows_ok (n : nat) (idx : list nat) :
  forall M : matrix,
    length M = n -> (forall i, In i idx -> (i < n)%nat) ->
    exists M',
      fold_left
        (fun acc i =>
           adjusted_matrix <- acc ;;
           if Nat.eqb n 0 then Raise Py.ZeroDivisionError
           else set_row_scalar adjusted_matrix i (1 / of_nat n)%Q)
        idx (Ok M) = Ok M' /\ length M' = n.
Proof.
  induction idx as [| i idx IH]; intros M Hlen Hidx; cbn [fold_left].
  - exists M. auto.
  - cbn [Py.bind]. assert (Hi : (i < n)%nat) by (apply Hidx; left; reflexivity).
    destruct (Nat.eqb_spec n 0) as [Hz | _]; [lia |].
    unfold set_row_scalar, nrows. rewrite Hlen.
    destruct (Nat.ltb_spec i n) as [_ | Hge]; [| lia].
    apply IH.
    + rewrite length_list_set. exact Hlen.
    + intros j Hj. apply Hidx. right. exact Hj.
Qed.

Lemma length_where_true (mask : list bool) :
  (length (where_true mask) <= length mask)%nat.
Proof.
  rewrite where_true_filter.
  etransitivity; [apply filter_length_le |]. rewrite length_seq. lia.
Qed.

Lemma uniform_accepts_dummy (n : nat) (mask : list bool) :
  (0 < n)%nat -> length mask = n ->
  exists M',
    uniform_handle_dangling_nodes
      (take_columns (eye n) (where_true mask))
      (repeat true (length (where_true mask))) = Ok M'.
Proof.
  intros Hn Hmask. unfold uniform_handle_dangling_nodes.
  assert (Hrows : nrows (take_columns (eye n) (where_true mask)) = n).
  { unfold nrows, take_columns, eye. rewrite !length_map, length_seq. reflexivity. }
  rewrite Hrows.
  destruct (@uniform_rows_ok n
              (where_true (repeat true (length (where_true mask))))
              (take_columns (eye n) (where_true mask)) Hrows) as (M' & HM' & _).
  - intros i Hi. apply where_true_bound in Hi. rewrite repeat_length in Hi.
    pose proof (length_where_true mask). lia.
  - exists M'. exact HM'.
Qed.

(** The elementwise product of two [n] by [n] arrays is one. *)
Lemma square_mmul (n : nat) (A W : matrix) :
  square n A -> square n W -> square n (mmul A W).
Proof.
  intros [HlenA HrowsA] [HlenW HrowsW]. unfold mmul. split.
  - rewrite length_map2. unfold matrix, vec in *. lia.
  - clear HlenA HlenW. revert W HrowsW.
    induction HrowsA as [| a A Ha _ IH]; intros [| w W] HrowsW; cbn [map2];
      try constructor.
    + inversion HrowsW as [| ? ? Hw _]; subst.
      unfold vmul. rewrite length_map2. unfold vec in *. lia.
    + inversion HrowsW; subst. apply IH. assumption.
Qed.

Lemma square_weighted (n : nat) (A : matrix) (weights : option matrix) :
  operands_square n A weights ->
  square n match weights with
           | Some w => mmul A w
           | None => A
           end.
Proof.
  intros [HA Hw]. destruct weights as [w |]; [apply square_mmul; assumption | exact HA].
Qed.

(** The sparse path under the Uniform strategy keeps a distribution. *)
Lemma sparse_distribution :
  forall (e : Engine.PowerIterationEngine) (node_ids : list string)
         (sparse_adjacency : matrix) (weights : option matrix)
         (suspicious_nodes base_weights : option (dict string Q)),
    let n := length node_ids in
    let weighted_adj :=
      match weights with
      | Some w => mmul sparse_adjacency w
      | None => sparse_adjacency
      end in
    Engine.dangling_strategy e = UniformDanglingStrategy ->
    (0 <= Engine.damping_factor e <= 1)%Q ->
    (0 < n)%nat -> square n weighted_adj -> nonneg_matrix weighted_adj ->
    distribution n
      (compute_personalization_vector (Engine.personalization_strategy e)
         node_ids suspicious_nodes base_weights) ->
    exists r,
      snd (Engine.compute_sparse_page_rank e node_ids sparse_adjacency weights
             suspicious_nodes base_weights) = Ok (Engine.score_dict node_ids r) /\
      Engine._page_rank
        (fst (Engine.compute_sparse_page_rank e node_ids sparse_adjacency weights
                suspicious_nodes base_weights)) = Some r /\
      distribution n r.
Proof.
  intros e node_ids A weights susp base n W Hstrategy Halpha Hn Hsq HW Hp.
  unfold Engine.compute_sparse_page_rank. fold n. fold W. cbn.
  set (p := compute_personalization_vector _ _ _ _) in *.
  set (od := sum_axis0 W). set (mask := Engine.is_zero od).
  assert (Hmask : length mask = n).
  { unfold mask, Engine.is_zero. rewrite length_map.
    apply StepFacts.length_sum_axis0. exact Hsq. }
  assert (Hinv : forall todo,
             distribution n
               (fst (Engine.sparse_loop (Engine.damping_factor e) (Engine.tolerance e)
                       n W od mask (if any mask then p else zeros n) p todo 0
                       (vdiv (ones n) (of_nat n))))).
  { intros todo. rewrite LoopFacts.sparse_loop_power_loop.
    apply MassLoop.power_loop_invariant;
      [| apply MassLoop.uniform_distribution; exact Hn].
    intros r Hr. apply MassLoop.sparse_step_distribution; assumption. }
  specialize (Hinv (Z.to_nat (Engine.max_iterations e))).
  destruct (any mask) eqn:Hany.
  - rewrite Hstrategy. cbn [handle_dangling_nodes UniformDanglingStrategy].
    destruct (@uniform_accepts_dummy n mask Hn Hmask) as (M' & HM').
    rewrite HM'. cbn.
    destruct (Engine.sparse_loop _ _ _ _ _ _ _ _ _ _ _) as [r [k |]];
      cbn in *; exists r; auto.
  - cbn.
    destruct (Engine.sparse_loop _ _ _ _ _ _ _ _ _ _ _) as [r [k |]];
      cbn in *; exists r; auto.
Qed.

End EngineMore.

(** X1.  On an [n] by [n] adjacency, with weights of the same shape if any,
    such that every column of the weighted adjacency has a positive sum,
    there is no dangling column: [build_transition_matrix] succeeds under
    the Uniform and under the Teleport strategy, caches its result, and every
    column of the matrix it returns sums to 1. *)
Theorem build_transition_matrix_stochastic :
  forall (e : Engine.PowerIterationEngine) (n : nat)
         (adjacency_matrix : matrix) (weights : option matrix),
    let weighted_adj :=
      match weights with
      | Some w => mmul adjacency_matrix w
      | None => adjacency_matrix
      end in
    (Engine.dangling_strategy e = UniformDanglingStrategy \/
     exists v, Engine.dangling_strategy e = TeleportDanglingStrategy v) ->
    operands_square n adjacency_matrix weights ->
    (forall j, (j < n)%nat -> 0 < nth j (sum_axis0 weighted_adj) 0)%Q ->
    exists T,
      snd (Engine.build_transition_matrix e adjacency_matrix weights) = Ok T /\
      Engine._transition_matrix
        (fst (Engine.build_transition_matrix e adjacency_matrix weights)) = Some T /\
      square n T /\
      forall j, (j < n)%nat -> (vsum (column T j) == 1)%Q.
Proof.
  intros e n A weights W Hstrategy Hshape Hpos.
  assert (Hrows : length A = n) by apply Hshape.
  assert (Hsq : square n W) by (apply EngineMore.square_weighted; exact Hshape).
  unfold Engine.build_transition_matrix. fold W. unfold nrows. rewrite Hrows.
  assert (Hnone : where_true (Engine.is_zero (sum_axis0 W)) = []).
  { apply EngineMore.where_true_all_false.
    apply (@EngineMore.is_zero_positive n); [| exact Hpos].
    apply StepFacts.length_sum_axis0. exact Hsq. }
  assert (Hhandle :
            handle_dangling_nodes (Engine.dangling_strategy e)
              (Engine.normalize_columns n W (sum_axis0 W))
              (Engine.is_zero (sum_axis0 W))
            = Ok (Engine.normalize_columns n W (sum_axis0 W))).
  { destruct Hstrategy as [-> | [v ->]]; cbn;
      unfold uniform_handle_dangling_nodes, teleport_handle_dangling_nodes;
      rewrite Hnone; reflexivity. }
  rewrite Hhandle. cbn [fst snd Engine.set_transition_matrix Engine._transition_matrix].
  exists (Engine.normalize_columns n W (sum_axis0 W)).
  split; [reflexivity |]. split; [reflexivity |].
  split; [apply (StepFacts.normalize_columns_spec (sum_axis0 W) Hsq) |].
  intros j Hj. apply Mass.normalize_columns_stochastic; auto.
Qed.

(** X1 (witness): the two-node cycle with unit weights on its edges, under
    the default strategy. *)
Lemma build_transition_matrix_stochastic_cycle2 :
  exists T,
    snd (Engine.build_transition_matrix (example_engine 100) cycle2_adjacency
           (Some cycle2_adjacency)) = Ok T /\
    Engine._transition_matrix
      (fst (Engine.build_transition_matrix (example_engine 100) cycle2_adjacency
              (Some cycle2_adjacency))) = Some T /\
    square 2 T /\
    forall j, (j < 2)%nat -> (vsum (column T j) == 1)%Q.
Proof.
  apply (@build_transition_matrix_stochastic (example_engine 100) 2
           cycle2_adjacency (Some cycle2_adjacency)).
  - left. reflexivity.
  - split; split; try reflexivity; repeat constructor.
  - intros [| [| j]] Hj; try lia; vm_compute; reflexivity.
Defined.

(** X4.  Under the Uniform strategy, on a non-empty list of [n] node ids
    with an [n] by [n] adjacency, weights of the same shape if any, a
    non-negative weighted adjacency and a damping factor in [0, 1]: when the
    personalization strategy returns a probability distribution, the sparse
    path returns without an exception, caches its score vector, and that
    vector is a probability distribution (non-negative entries of sum 1),
    whatever the iteration budget and the tolerance. *)
Theorem sparse_page_rank_is_distribution :
  forall (e : Engine.PowerIterationEngine) (node_ids : list string)
         (sparse_adjacency : matrix) (weights : option matrix)
         (suspicious_nodes base_weights : option (dict string Q)),
    let n := length node_ids in
    let weighted_adj :=
      match weights with
      | Some w => mmul sparse_adjacency w
      | None => sparse_adjacency
      end in
    Engine.dangling_strategy e = UniformDanglingStrategy ->
    (0 <= Engine.damping_factor e <= 1)%Q ->
    (0 < n)%nat -> operands_square n sparse_adjacency weights ->
    nonneg_matrix weighted_adj ->
    distribution n
      (compute_personalization_vector (Engine.personalization_strategy e)
         node_ids suspicious_nodes base_weights) ->
    exists r,
      snd (Engine.compute_sparse_page_rank e node_ids sparse_adjacency weights
             suspicious_nodes base_weights) = Ok (Engine.score_dict node_ids r) /\
      Engine._page_rank
        (fst (Engine.compute_sparse_page_rank e node_ids sparse_adjacency weights
                suspicious_nodes base_weights)) = Some r /\
      distribution n r.
Proof.
  intros e node_ids A weights susp base n W Hstrategy Halpha Hn Hshape HW Hp.
  apply EngineMore.sparse_distribution; try assumption.
  apply EngineMore.square_weighted. exact Hshape.
Qed.

(* ------------------------------------------------------------------ *)
(** * The sparse step is a contraction                                 *)
(* ------------------------------------------------------------------ *)

Module Contraction.
Import Np NpFacts StepFacts StepEq Mass MassLoop.

Lemma vsum_map_le {A : Type} (f g : A -> Q) (l : list A) :
  (forall a, In a l -> f a <= g a)%Q ->
  (vsum (map f l) <= vsum (map g l))%Q.
Proof.
  induction l as [| a l IH]; simpl; intros Hfg; [apply Qle_refl |].
  apply Qplus_le_compat; [apply Hfg; left; reflexivity |].
  apply IH. intros b Hb. apply Hfg. right. exact Hb.
Qed.

Lemma vsum_map_minus {A : Type} (f g : A -> Q) (l : list A) :
  (vsum (map (fun a => f a - g a) l) == vsum (map f l) - vsum (map g l))%Q.
Proof.
  induction l as [| a l IH]; simpl; [ring | rewrite IH; ring].
Qed.

Lemma abs_vsum_map {A : Type} (f : A -> Q) (l : list A) :
  (Qabs (vsum (map f l)) <= vsum (map (fun a => Qabs (f a)) l))%Q.
Proof.
  induction l as [| a l IH]; simpl; [discriminate |].
  eapply Qle_trans; [apply Qabs_triangle |].
  apply Qplus_le_compat; [apply Qle_refl | exact IH].
Qed.

Lemma length_vsub (u v : vec) (n : nat) :
  length u = n -> length v = n -> length (vsub u v) = n.
Proof. intros Hu Hv. unfold vsub. rewrite length_map2. lia. Qed.

Lemma nth_vsub (u v : vec) (n i : nat) :
  length u = n -> length v = n -> (i < n)%nat ->
  nth i (vsub u v) 0%Q = (nth i u 0 - nth i v 0)%Q.
Proof.
  intros Hu Hv Hi. unfold vsub. apply nth_map2; lia.
Qed.

Lemma norm1_as_table (v : vec) :
  norm1 v = vsum (map (fun i => Qabs (nth i v 0)) (seq 0 (length v))).
Proof.
  unfold norm1. rewrite vsum_as_table, length_map. f_equal.
  apply map_ext_in. intros i Hi. apply in_seq in Hi.
  apply (@nth_map_in _ _ Qabs v i 0%Q 0%Q). lia.
Qed.

(** A sum of non-negative multiples, against the same sum of absolute values. *)
Lemma abs_weighted_sum (d c : nat -> Q) (js : list nat) :
  (forall j, In j js -> 0 <= c j)%Q ->
  (Qabs (vsum (map (fun j => d j * c j) js))
   <= vsum (map (fun j => Qabs (d j) * c j) js))%Q.
Proof.
  intros Hc. eapply Qle_trans; [apply abs_vsum_map |].
  apply vsum_map_le. intros j Hj.
  rewrite Qabs_Qmult, (Qabs_pos (c j)) by (apply Hc; exact Hj). apply Qle_refl.
Qed.


(** One pass of the sparse loop body brings two iterates closer by the
    factor [1 - alpha], in the L1 norm. *)
Lemma step_lipschitz (alpha : Q) (n : nat) (W : matrix) (p r r' : vec) :
    (0 <= alpha <= 1)%Q ->
    square n W -> nonneg_matrix W -> distribution n p ->
    length r = n -> length r' = n ->
    let od := sum_axis0 W in
    let mask := Engine.is_zero od in
    let tp := if any mask then p else zeros n in
    let step := Engine.sparse_step alpha n W od mask tp p in
    (norm1 (vsub (step r) (step r')) <= (1 - alpha) * norm1 (vsub r r'))%Q.
Proof.
  intros [Ha0 Ha1] Hsq HW (Hp & Hp0 & Hp1) Hr Hr' od mask tp step.
  assert (Hod : length od = n) by (apply StepFacts.length_sum_axis0; exact Hsq).
  assert (Htp : length tp = n).
  { unfold tp. destruct (any mask); [exact Hp | apply repeat_length]. }
  assert (Htp0 : forall i, (0 <= nth i tp 0)%Q).
  { intros i. apply MassLoop.nonneg_nth. unfold tp.
    destruct (any mask); [exact Hp0 |].
    apply Forall_forall. intros x Hx. apply repeat_spec in Hx. subst x.
    apply Qle_refl. }
  assert (Hlen : forall v, length (step v) = n).
  { intros v. apply (@StepEq.length_sparse_step alpha n W od mask tp p v Hsq Htp Hp). }
  set (a := map Qabs (vsub r r')).
  assert (Ha : length a = n).
  { unfold a. rewrite length_map. apply length_vsub; assumption. }
  assert (Hnth_a : forall j, (j < n)%nat ->
                             nth j a 0%Q = Qabs (nth j r 0 - nth j r' 0)).
  { intros j Hj. unfold a.
    rewrite (@StepFacts.nth_map_in _ _ Qabs (vsub r r') j 0%Q 0%Q)
      by (rewrite (@length_vsub r r' n Hr Hr'); exact Hj).
    rewrite (@nth_vsub r r' n j Hr Hr' Hj). reflexivity. }
  (* entry by entry *)
  assert (Hentry : forall i, (i < n)%nat ->
            (Qabs (nth i (step r) 0 - nth i (step r') 0)
             <= nth i (step a) 0 - alpha * nth i p 0)%Q).
  { intros i Hi. unfold step.
    set (live := where_true (map (Qltb 0) od)).
    set (sink := where_true mask).
    set (c := fun j => (nth j (nth i W []) 0 / nth j od 0)%Q).
    set (d := fun j => (nth j r 0 - nth j r' 0)%Q).
    assert (Hlive_bound : forall j, In j live -> (j < n)%nat /\ (0 <= c j)%Q).
    { intros j Hj. unfold live in Hj.
      rewrite where_true_filter, filter_In in Hj. destruct Hj as [Hj Hpos].
      apply in_seq in Hj. rewrite length_map in Hj.
      rewrite (@StepFacts.nth_map_in _ _ (Qltb 0) od j 0%Q false) in Hpos by lia.
      apply Qltb_lt in Hpos. split; [lia |]. unfold c.
      apply Qle_shift_div_l; [exact Hpos |]. rewrite Qmult_0_l.
      apply (MassLoop.nonneg_entry n). exact HW. }
    assert (Hsink_bound : forall j, In j sink -> (j < n)%nat).
    { intros j Hj. apply where_true_bound in Hj.
      unfold mask, Engine.is_zero in Hj. rewrite length_map in Hj.
      rewrite Hod in Hj. exact Hj. }
    (* the three entries, as sums over the live and the dangling columns *)
    set (Lr := vsum (map (fun j => nth j r 0 * c j)%Q live)).
    set (Sr := vsum (map (fun j => nth j r 0 * nth i tp 0)%Q sink)).
    set (Lr' := vsum (map (fun j => nth j r' 0 * c j)%Q live)).
    set (Sr' := vsum (map (fun j => nth j r' 0 * nth i tp 0)%Q sink)).
    set (La := vsum (map (fun j => nth j a 0 * c j)%Q live)).
    set (Sa := vsum (map (fun j => nth j a 0 * nth i tp 0)%Q sink)).
    assert (Er : (nth i (Engine.sparse_step alpha n W od mask tp p r) 0
                  == (1 - alpha) * (Lr + Sr) + alpha * nth i p 0)%Q)
      by apply (@StepEq.nth_sparse_step alpha n W od mask tp p r i Hsq Htp Hp Hi).
    assert (Er' : (nth i (Engine.sparse_step alpha n W od mask tp p r') 0
                   == (1 - alpha) * (Lr' + Sr') + alpha * nth i p 0)%Q)
      by apply (@StepEq.nth_sparse_step alpha n W od mask tp p r' i Hsq Htp Hp Hi).
    assert (Ea : (nth i (Engine.sparse_step alpha n W od mask tp p a) 0
                  == (1 - alpha) * (La + Sa) + alpha * nth i p 0)%Q)
      by apply (@StepEq.nth_sparse_step alpha n W od mask tp p a i Hsq Htp Hp Hi).
    set (x1 := vsum (map (fun j => d j * c j)%Q live)).
    set (x2 := vsum (map (fun j => d j * nth i tp 0)%Q sink)).
    set (y1 := vsum (map (fun j => Qabs (d j) * c j)%Q live)).
    set (y2 := vsum (map (fun j => Qabs (d j) * nth i tp 0)%Q sink)).
    assert (H1 : (x1 == Lr - Lr')%Q).
    { unfold x1, Lr, Lr'. rewrite <- vsum_map_minus. apply vsum_map_ext.
      intros j _. unfold d. ring. }
    assert (H2 : (x2 == Sr - Sr')%Q).
    { unfold x2, Sr, Sr'. rewrite <- vsum_map_minus. apply vsum_map_ext.
      intros j _. unfold d. ring. }
    assert (H3 : (La == y1)%Q).
    { unfold La, y1. apply vsum_map_ext. intros j Hj.
      rewrite (Hnth_a j) by (apply Hlive_bound; exact Hj). reflexivity. }
    assert (H4 : (Sa == y2)%Q).
    { unfold Sa, y2. apply vsum_map_ext. intros j Hj.
      rewrite (Hnth_a j) by (apply Hsink_bound; exact Hj). reflexivity. }
    assert (B1 : (Qabs x1 <= y1)%Q).
    { unfold x1, y1. apply abs_weighted_sum. intros j Hj.
      apply Hlive_bound. exact Hj. }
    assert (B2 : (Qabs x2 <= y2)%Q).
    { unfold x2, y2.
      apply (@abs_weighted_sum d (fun _ => nth i tp 0%Q) sink).
      intros j _. apply Htp0. }
    pose proof (Qabs_triangle x1 x2) as B3.
    assert (H1a : (0 <= 1 - alpha)%Q) by lra.
    assert (Hmul : ((1 - alpha) * Qabs (x1 + x2) <= (1 - alpha) * (y1 + y2))%Q).
    { rewrite (Qmult_comm (1 - alpha) (Qabs (x1 + x2))).
      rewrite (Qmult_comm (1 - alpha) (y1 + y2)).
      apply Qmult_le_compat_r; [lra | exact H1a]. }
    assert (Hdiff :
      (nth i (Engine.sparse_step alpha n W od mask tp p r) 0
       - nth i (Engine.sparse_step alpha n W od mask tp p r') 0
       == (1 - alpha) * (x1 + x2))%Q).
    { rewrite Er, Er', H1, H2. ring. }
    assert (Habs :
      (Qabs (nth i (Engine.sparse_step alpha n W od mask tp p r) 0
             - nth i (Engine.sparse_step alpha n W od mask tp p r') 0)
       == (1 - alpha) * Qabs (x1 + x2))%Q).
    { rewrite (Qabs_wd _ _ Hdiff), Qabs_Qmult, (Qabs_pos (1 - alpha)) by exact H1a.
      reflexivity. }
    rewrite Habs, Ea, H3, H4.
    eapply Qle_trans; [exact Hmul |].
    apply Qle_lteq. right. ring. }
  (* summed over the entries *)
  rewrite norm1_as_table.
  rewrite (@length_vsub (step r) (step r') n (Hlen r) (Hlen r')).
  eapply Qle_trans.
  { apply vsum_map_le. intros i Hi. apply in_seq in Hi.
    rewrite (@nth_vsub (step r) (step r') n i (Hlen r) (Hlen r')) by lia.
    apply Hentry. lia. }
  rewrite vsum_map_minus, vsum_map_scale.
  assert (Hpsum : (vsum (map (fun i => nth i p 0%Q) (seq 0 n)) == 1)%Q).
  { rewrite <- Hp, <- Mass.vsum_as_table. exact Hp1. }
  rewrite Hpsum.
  assert (Hmass : (vsum (map (fun i => nth i (step a) 0%Q) (seq 0 n))
                   == (1 - alpha) * vsum a + alpha)%Q).
  { rewrite <- (Hlen a) at 1. rewrite <- Mass.vsum_as_table.
    apply Mass.sparse_step_mass; try assumption.
    intros j Hj. apply (@MassLoop.column_sums_nonneg n); assumption. }
  rewrite Hmass. unfold norm1. fold a. lra.
Qed.

(** The L1 norm of a non-negative vector is its sum. *)
Lemma norm1_nonneg (v : vec) :
  Forall (fun x => 0 <= x)%Q v -> (norm1 v == vsum v)%Q.
Proof.
  intros Hv. unfold norm1. induction Hv as [| x v Hx _ IH]; simpl; [reflexivity |].
  rewrite IH, (Qabs_pos x Hx). reflexivity.
Qed.

Lemma norm1_vsub_le (u v : vec) :
  length u = length v -> (norm1 (vsub u v) <= norm1 u + norm1 v)%Q.
Proof.
  revert v. unfold norm1, vsub.
  induction u as [| x u IH]; intros [| y v] Hlen; cbn [map2 map vsum fold_right];
    try discriminate Hlen.
  - lra.
  - injection Hlen as Hlen. specialize (IH v Hlen).
    assert (Ht : (Qabs (x - y) <= Qabs x + Qabs y)%Q).
    { rewrite <- (Qabs_opp y). apply Qabs_triangle. }
    unfold vsum in IH. lra.
Qed.

(** Under a contracting step the residual decays geometrically. *)
Lemma residual_decay (q : Q) (n : nat) (step : vec -> vec) (r0 : vec) :
  (forall r, length r = n -> length (step r) = n) ->
  (forall r r', length r = n -> length r' = n ->
                (norm1 (vsub (step r) (step r')) <= q * norm1 (vsub r r'))%Q) ->
  (0 <= q)%Q -> length r0 = n ->
  forall t, length (iterate step t r0) = n /\
            (residual step (iterate step t r0)
             <= q ^ Z.of_nat t * residual step r0)%Q.
Proof.
  intros Hlen Hlip Hq Hr0. induction t as [| t [IHlen IH]].
  - split; [exact Hr0 |]. cbn [iterate Nat.iter Z.of_nat Qpower].
    rewrite Qmult_1_l. apply Qle_refl.
  - assert (Hit : iterate step (S t) r0 = step (iterate step t r0)) by reflexivity.
    rewrite Hit. split; [apply Hlen; exact IHlen |].
    unfold residual at 1.
    eapply Qle_trans; [apply Hlip; [apply Hlen; exact IHlen | exact IHlen] |].
    fold (residual step (iterate step t r0)).
    replace (Z.of_nat (S t)) with (1 + Z.of_nat t)%Z by lia.
    rewrite Qpower_plus' by lia. rewrite Qpower_1_r.
    rewrite <- Qmult_assoc.
    rewrite (Qmult_comm q (residual step (iterate step t r0))).
    rewrite (Qmult_comm q (q ^ Z.of_nat t * residual step r0)).
    apply Qmult_le_compat_r; assumption.
Qed.





End Contraction.

(** X6.  One pass of the sparse loop body is a contraction in the L1 norm:
    on a square non-negative weighted adjacency, with a teleport vector that
    is a probability distribution and a damping factor in [0, 1], two
    iterates are mapped to iterates at most [(1 - alpha)] times as far
    apart. *)
Theorem sparse_step_contracts :
  forall (alpha : Q) (n : nat) (W : matrix) (p r r' : vec),
    (0 <= alpha <= 1)%Q ->
    square n W -> nonneg_matrix W -> distribution n p ->
    length r = n -> length r' = n ->
    let od := sum_axis0 W in
    let mask := Engine.is_zero od in
    let tp := if any mask then p else zeros n in
    let step := Engine.sparse_step alpha n W od mask tp p in
    (norm1 (vsub (step r) (step r')) <= (1 - alpha) * norm1 (vsub r r'))%Q.
Proof.
  intros alpha n W p r r' Halpha Hsq HW Hp Hr Hr'.
  apply Contraction.step_lipschitz; assumption.
Qed.

(** X6 (witness): the two-node cycle, from the two point masses. *)
Lemma sparse_step_contracts_cycle2 :
  let od := sum_axis0 cycle2_adjacency in
  let mask := Engine.is_zero od in
  let tp := if any mask then [1 # 2; 1 # 2]%Q else zeros 2 in
  let step :=
    Engine.sparse_step (1 # 2) 2 cycle2_adjacency od mask tp [1 # 2; 1 # 2]%Q in
  (norm1 (vsub (step [1; 0]) (step [0; 1]))
   <= (1 - (1 # 2)) * norm1 (vsub [1; 0] [0; 1]))%Q.
Proof.
  apply (@sparse_step_contracts (1 # 2) 2 cycle2_adjacency [1 # 2; 1 # 2]%Q
           [1; 0]%Q [0; 1]%Q).
  - split; discriminate.
  - split; [reflexivity | repeat constructor].
  - repeat constructor; discriminate.
  - split; [reflexivity | split; [repeat constructor; discriminate | reflexivity]].
  - reflexivity.
  - reflexivity.
Defined.

(** X7.  In exact arithmetic the change between successive iterates of the
    sparse loop body shrinks geometrically: on a non-empty square
    non-negative weighted adjacency, with a teleport vector that is a
    probability distribution and a damping factor in [0, 1], the L1 distance
    between the iterate after [t] passes from the uniform vector and the next
    one is at most [2 * (1 - alpha) ^ t].  This is a statement about the
    values of the recurrence; it does not say at which pass the float loop
    finds its residual below the tolerance. *)
Theorem sparse_residual_decays :
  forall (alpha : Q) (n : nat) (W : matrix) (p : vec) (t : nat),
    (0 <= alpha <= 1)%Q -> (0 < n)%nat ->
    square n W -> nonneg_matrix W -> distribution n p ->
    let od := sum_axis0 W in
    let mask := Engine.is_zero od in
    let tp := if any mask then p else zeros n in
    let step := Engine.sparse_step alpha n W od mask tp p in
    let r0 := vdiv (ones n) (of_nat n) in
    (residual step (iterate step t r0) <= 2 * (1 - alpha) ^ Z.of_nat t)%Q.
Proof.
  intros alpha n W p t Halpha Hn Hsq HW Hp od mask tp step r0.
  assert (Hr0 : distribution n r0) by (apply MassLoop.uniform_distribution; exact Hn).
  assert (Hstep : forall r, distribution n r -> distribution n (step r)).
  { intros r Hr. apply MassLoop.sparse_step_distribution; assumption. }
  assert (Htp : length tp = n).
  { unfold tp. destruct (any mask); [apply Hp | apply repeat_length]. }
  assert (Hlen : forall r, length r = n -> length (step r) = n).
  { intros r _. apply (@StepEq.length_sparse_step alpha n W od mask tp p r Hsq Htp).
    apply Hp. }
  assert (Hres0 : (residual step r0 <= 2)%Q).
  { unfold residual. destruct (Hstep r0 Hr0) as (Hl1 & Hn1 & Hs1).
    destruct Hr0 as (Hl0 & Hn0 & Hs0).
    eapply Qle_trans; [apply Contraction.norm1_vsub_le; congruence |].
    rewrite (Contraction.norm1_nonneg Hn1), (Contraction.norm1_nonneg Hn0), Hs1, Hs0.
    discriminate. }
  assert (H1a : (0 <= 1 - alpha)%Q) by (destruct Halpha; lra).
  destruct (@Contraction.residual_decay (1 - alpha) n step r0 Hlen) with (t := t)
    as [_ Hdecay].
  { intros r r' Hr Hr'.
    apply (@Contraction.step_lipschitz alpha n W p r r'); assumption. }
  { exact H1a. }
  { apply Hr0. }
  eapply Qle_trans; [exact Hdecay |].
  rewrite (Qmult_comm 2).
  rewrite (Qmult_comm ((1 - alpha) ^ Z.of_nat t) (residual step r0)).
  rewrite (Qmult_comm ((1 - alpha) ^ Z.of_nat t) 2).
  apply Qmult_le_compat_r; [exact Hres0 |]. apply Qpower_0_le. exact H1a.
Qed.


(* ------------------------------------------------------------------ *)
(** * The engine on the two-node cycle                                 *)
(* ------------------------------------------------------------------ *)

(** X4 (witness): the two-node cycle with the default strategies and unit
    weights on its edges. *)
Lemma sparse_page_rank_is_distribution_cycle2 :
  exists r,
    snd (Engine.compute_sparse_page_rank (example_engine 100) ["a"; "b"]
           cycle2_adjacency (Some cycle2_adjacency) None None)
    = Ok (Engine.score_dict ["a"; "b"] r) /\
    Engine._page_rank
      (fst (Engine.compute_sparse_page_rank (example_engine 100) ["a"; "b"]
              cycle2_adjacency (Some cycle2_adjacency) None None)) = Some r /\
    distribution 2 r.
Proof.
  apply (@sparse_page_rank_is_distribution (example_engine 100) ["a"; "b"]
           cycle2_adjacency (Some cycle2_adjacency) None None).
  - reflexivity.
  - split; discriminate.
  - cbn. lia.
  - split; split; try reflexivity; repeat constructor.
  - repeat constructor; discriminate.
  - split; [reflexivity | split; [repeat constructor; discriminate | reflexivity]].
Defined.

(** X7 (witness): the two-node cycle with damping 1/2, after eight passes. *)
Lemma sparse_residual_decays_cycle2 :
  let od := sum_axis0 cycle2_adjacency in
  let mask := Engine.is_zero od in
  let tp := if any mask then [1 # 2; 1 # 2]%Q else zeros 2 in
  let step :=
    Engine.sparse_step (1 # 2) 2 cycle2_adjacency od mask tp [1 # 2; 1 # 2]%Q in
  let r0 := vdiv (ones 2) (of_nat 2) in
  (residual step (iterate step 8 r0) <= 2 * (1 - (1 # 2)) ^ Z.of_nat 8)%Q.
Proof.
  apply (@sparse_residual_decays (1 # 2) 2 cycle2_adjacency [1 # 2; 1 # 2]%Q 8).
  - split; discriminate.
  - lia.
  - split; [reflexivity | repeat constructor].
  - repeat constructor; discriminate.
  - split; [reflexivity | split; [repeat constructor; discriminate | reflexivity]].
Defined.

(** X5 (witness): a budget of one iteration on the two-node cycle. *)
Lemma sparse_convergence_record_cycle2 :
  let e' := fst (Engine.compute_sparse_page_rank (example_engine 1) ["a"; "b"]
                   cycle2_adjacency None None None) in
  (Engine._converged e' = true /\
   (1 <= Engine._iterations_performed e' <= Engine.max_iterations (example_engine 1))%Z) \/
  (Engine._converged e' = false /\
   Engine._iterations_performed e' = Engine.max_iterations (example_engine 1)).
Proof.
  apply (@EngineFacts.sparse_convergence_record (example_engine 1) ["a"; "b"]
           cycle2_adjacency None None None
           [("a", 64 # 128); ("b", 64 # 128)]%Q).
  vm_compute. reflexivity.
Defined.

(** X2 (witness): two nodes, a volume on the first and a suspicion on the
    second. *)
Lemma volume_distribution_example :
  distribution (length ["a"; "b"])
    (volume_compute_personalization_vector ["a"; "b"]
       (Some [("b", 1 # 2)]) (Some [("a", 3)]))%Q.
Proof.
  apply (@Personalization.volume_distribution ["a"; "b"]
           (Some [("b", 1 # 2)]) (Some [("a", 3)]))%Q.
  - cbn. lia.
  - repeat constructor; discriminate.
  - repeat constructor; discriminate.
Defined.

(** X3 (witness): the same input under the suspicion-based strategy. *)
Lemma suspicion_distribution_or_zero_example :
  let v := suspicion_compute_personalization_vector 5 ["a"; "b"]
             (Some [("b", 1 # 2)]) (Some [("a", 3)])%Q in
  distribution (length ["a"; "b"]) v \/
  (length v = length ["a"; "b"] /\ Forall (fun y => 0 <= y)%Q v /\ (vsum v == 0)%Q).
Proof.
  apply (@Personalization.suspicion_distribution_or_zero 5 ["a"; "b"]
           (Some [("b", 1 # 2)]) (Some [("a", 3)]))%Q.
  - cbn. lia.
  - discriminate.
  - repeat constructor; discriminate.
  - repeat constructor; discriminate.
Defined.


(* ------------------------------------------------------------------ *)
(** * The Teleport strategy in the sparse path                         *)
(* ------------------------------------------------------------------ *)

Module TeleportFacts.
Import Np NpFacts.

(** [where_true] counts the entries that hold. *)
Lemma length_where_true_count (mask : list bool) :
  length (where_true mask) = count_occ bool_dec mask true.
Proof.
  unfold where_true, Py.enumerate. rewrite length_map.
  generalize 0%nat. induction mask as [| b mask IH]; intros s; [reflexivity |].
  cbn [length seq combine filter snd count_occ].
  destruct b; cbn [length].
  - destruct (bool_dec true true) as [_ | Hne]; [| congruence].
    rewrite IH. reflexivity.
  - destruct (bool_dec false true) as [Heq | _]; [discriminate |]. apply IH.
Qed.

Lemma where_true_some (mask : list bool) :
  In true mask -> (0 < length (where_true mask))%nat.
Proof.
  intros Hin. rewrite length_where_true_count.
  apply (count_occ_In bool_dec). exact Hin.
Qed.

Lemma where_true_not_all (mask : list bool) :
  In false mask -> (length (where_true mask) < length mask)%nat.
Proof.
  intros Hin. rewrite length_where_true_count.
  induction mask as [| b mask IH]; [destruct Hin |].
  cbn [count_occ length].
  pose proof (count_occ_bound bool_dec true mask) as Hle.
  destruct Hin as [-> | Hin].
  - destruct (bool_dec false true) as [Heq | _]; [discriminate | lia].
  - specialize (IH Hin). destruct (bool_dec b true); lia.
Qed.

Lemma where_true_all (k : nat) : where_true (repeat true k) = seq 0 k.
Proof.
  rewrite where_true_filter, repeat_length.
  apply forallb_filter_id. apply forallb_forall. intros j Hj.
  apply in_seq in Hj. apply nth_repeat_lt. lia.
Qed.

(** Once an assignment has raised, the loop is left. *)
Lemma fold_raise {A B : Type} (f : Py.result A -> B -> Py.result A) (e : Py.exn)
    (l : list B) :
  (forall b, f (Py.Raise e) b = Py.Raise e) ->
  fold_left f l (Py.Raise e) = Py.Raise e.
Proof.
  intros Hf. induction l as [| b l IH]; cbn [fold_left]; [reflexivity |].
  rewrite Hf. exact IH.
Qed.

(** A vector of the wrong length does not fit the rows of the dummy matrix. *)
Lemma teleport_rejects_dummy (n : nat) (idx : list nat) :
  (0 < length idx < n)%nat ->
  teleport_handle_dangling_nodes None (take_columns (eye n) idx)
    (repeat true (length idx)) = Py.Raise Py.ValueError.
Proof.
  intros Hk. unfold teleport_handle_dangling_nodes.
  assert (Hrows : nrows (take_columns (eye n) idx) = n).
  { unfold nrows, take_columns, eye. rewrite !length_map, length_seq. reflexivity. }
  rewrite Hrows, where_true_all.
  destruct (length idx) as [| k] eqn:Hlen; [lia |].
  assert (Hfirst : set_row_vec (take_columns (eye n) idx) 0 (vdiv (ones n) (of_nat n))
                   = Py.Raise Py.ValueError).
  { unfold set_row_vec. rewrite Hrows.
    destruct (Nat.ltb_spec 0 n) as [Hn | Hn]; [| lia].
    assert (Hwidth : length (nth 0 (take_columns (eye n) idx) []) = S k).
    { unfold take_columns, vec.
      rewrite (@StepFacts.nth_map_in _ _ (fun row => map (fun j => nth j row 0%Q) idx)
                 (eye n) 0 [] [])
        by (unfold eye; rewrite length_map, length_seq; exact Hn).
      rewrite length_map. exact Hlen. }
    rewrite Hwidth.
    assert (Hv : length (vdiv (ones n) (of_nat n)) = n).
    { unfold vdiv, ones. rewrite length_map, repeat_length. reflexivity. }
    rewrite Hv.
    destruct (Nat.eqb_spec n (S k)) as [Heq | _]; [lia |].
    destruct (Nat.eqb_spec n 1) as [Heq | _]; [lia |]. reflexivity. }
  cbn [seq fold_left Py.bind]. rewrite Hfirst.
  apply fold_raise. intros b. reflexivity.
Qed.

End TeleportFacts.

(** X8.  The sparse path cannot run under a Teleport strategy built without a
    vector when some but not all columns of the weighted adjacency are
    dangling: the strategy is called on a dummy matrix whose rows are as long
    as the number of dangling columns, the uniform vector it assigns has the
    length of the node list, and the call ends in a ValueError before the
    first iteration; no score vector is cached. *)
Theorem sparse_page_rank_teleport_raises :
  forall (e : Engine.PowerIterationEngine) (node_ids : list string)
         (sparse_adjacency : matrix) (weights : option matrix)
         (suspicious_nodes base_weights : option (dict string Q)),
    let n := length node_ids in
    let weighted_adj :=
      match weights with
      | Some w => mmul sparse_adjacency w
      | None => sparse_adjacency
      end in
    let dangling_mask := Engine.is_zero (sum_axis0 weighted_adj) in
    Engine.dangling_strategy e = TeleportDanglingStrategy None ->
    square n weighted_adj ->
    In true dangling_mask -> In false dangling_mask ->
    snd (Engine.compute_sparse_page_rank e node_ids sparse_adjacency weights
           suspicious_nodes base_weights) = Raise ValueError /\
    Engine._page_rank
      (fst (Engine.compute_sparse_page_rank e node_ids sparse_adjacency weights
              suspicious_nodes base_weights)) = Engine._page_rank e.
Proof.
  intros e node_ids A weights susp base n W mask Hstrategy Hsq Htrue Hfalse.
  unfold Engine.compute_sparse_page_rank. fold n. fold W. cbn. fold mask.
  assert (Hmask : length mask = n).
  { unfold mask, Engine.is_zero. rewrite length_map.
    apply StepFacts.length_sum_axis0. exact Hsq. }
  assert (Hany : any mask = true).
  { unfold any. apply existsb_exists. exists true. auto. }
  rewrite Hany, Hstrategy. cbn [handle_dangling_nodes TeleportDanglingStrategy].
  rewrite TeleportFacts.teleport_rejects_dummy.
  - cbn. split; reflexivity.
  - split; [apply TeleportFacts.where_true_some; exact Htrue |].
    rewrite <- Hmask. apply TeleportFacts.where_true_not_all. exact Hfalse.
Qed.

(** X8 (witness): a single edge [b -> a] in column form, so that the column
    of [a] is dangling and the column of [b] is not. *)
Lemma sparse_page_rank_teleport_raises_example :
  let e := Engine.set_page_rank (example_engine 100) [1; 0]%Q in
  let e :=
    {| Engine.damping_factor := Engine.damping_factor e;
       Engine.max_iterations := Engine.max_iterations e;
       Engine.tolerance := Engine.tolerance e;
       Engine.dangling_strategy := TeleportDanglingStrategy None;
       Engine.personalization_strategy := Engine.personalization_strategy e;
       Engine._transition_matrix := Engine._transition_matrix e;
       Engine._personalization_vector := Engine._personalization_vector e;
       Engine._page_rank := Engine._page_rank e;
       Engine._iterations_performed := Engine._iterations_performed e;
       Engine._converged := Engine._converged e |} in
  snd (Engine.compute_sparse_page_rank e ["a"; "b"] [[0; 1]; [0; 0]]%Q None
         None None) = Raise ValueError /\
  Engine._page_rank
    (fst (Engine.compute_sparse_page_rank e ["a"; "b"] [[0; 1]; [0; 0]]%Q None
            None None)) = Engine._page_rank e.
Proof.
  cbv zeta.
  apply (@sparse_page_rank_teleport_raises _ ["a"; "b"] [[0; 1]; [0; 0]]%Q None
           None None).
  - reflexivity.
  - split; [reflexivity | repeat constructor].
  - left. reflexivity.
  - right. left. reflexivity.
Defined.

(* ------------------------------------------------------------------ *)
(** * Concrete runs                                                    *)
(* ------------------------------------------------------------------ *)

(** C1 (code defect).  [build_transition_matrix] on the adjacency matrix
    [[0, 1], [0, 0]] with the default Uniform strategy, and with the Teleport
    strategy without a vector, returns [[1/2, 1/2], [0, 0]]: the strategy
    overwrites the ROW of the dangling index 0, so no column sums to 1. *)
Theorem build_transition_matrix_row_overwrite :
  exists e e',
    Engine.__init__ (85 # 100) 100 (1 # 100000000) None None = Ok e /\
    Engine.__init__ (85 # 100) 100 (1 # 100000000)
      (Some (TeleportDanglingStrategy None)) None = Ok e' /\
    snd (Engine.build_transition_matrix e [[0; 1]; [0; 0]]%Q None)
      = Ok [[1 # 2; 1 # 2]; [0; 0]]%Q /\
    snd (Engine.build_transition_matrix e' [[0; 1]; [0; 0]]%Q None)
      = Ok [[1 # 2; 1 # 2]; [0; 0]]%Q /\
    sum_axis0 [[1 # 2; 1 # 2]; [0; 0]]%Q = [1 # 2; 1 # 2]%Q /\
    Forall (fun s => ~ (s == 1)%Q) [1 # 2; 1 # 2]%Q.
Proof.
  eexists; eexists.
  split; [reflexivity |]. split; [reflexivity |].
  split; [vm_compute; reflexivity |]. split; [vm_compute; reflexivity |].
  split; [vm_compute; reflexivity |].
  repeat constructor; intro H; discriminate H.
Qed.

(** C2 (code defect).  With the single node [a] and the base weight
    [{a: 0.0}] the total mass is zero: the suspicion-based strategy returns
    the zero vector (it has no fall-back branch), the transaction-volume
    strategy returns the uniform vector. *)
Theorem suspicion_personalization_no_fallback :
  compute_personalization_vector (SuspicionBasedPersonalization 5)
    ["a"] None (Some [("a", 0%Q)]) = [0%Q] /\
  (vsum [0%Q] == 0)%Q /\
  compute_personalization_vector TransactionVolumePersonalization
    ["a"] None (Some [("a", 0%Q)]) = [1%Q].
Proof.
  split; [vm_compute; reflexivity |].
  split; [reflexivity | vm_compute; reflexivity].
Qed.

(** C3 (code defect, the one of C2).  The sparse path on the single node
    [a] with base weight [{a: 0.0}] returns the score 0 for [a] and reports
    convergence: the scores sum to 0. *)
Theorem compute_sparse_page_rank_zero_scores :
  exists e x,
    Engine.__init__ (85 # 100) 100 (1 # 100000000) None None = Ok e /\
    snd (Engine.compute_sparse_page_rank e ["a"] [[0%Q]] None None
           (Some [("a", 0%Q)])) = Ok [("a", x)] /\
    (x == 0)%Q /\
    Engine._converged
      (fst (Engine.compute_sparse_page_rank e ["a"] [[0%Q]] None None
              (Some [("a", 0%Q)]))) = true.
Proof.
  eexists; eexists.
  split; [reflexivity |].
  split; [vm_compute; reflexivity |].
  split; reflexivity.
Qed.

(** C5 (code defect).  A fresh engine with [max_iterations = 1] and tolerance
    [1e-12] on the two-node cycle with [a] suspicious: neither path meets
    the tolerance.  The sparse path records [converged = false],
    [iterations_performed = 1]; the dense path, whose loop has no [else]
    branch, leaves the record untouched: [iterations_performed] is still 0. *)
Theorem dense_exhaustion_not_recorded :
  exists e,
    Engine.__init__ (1 # 2) 1 (1 # 1000000000000) None None = Ok e /\
    let dense := Engine.computeـpage_rank e cycle2_object (Some [("a", 1%Q)]) in
    let sparse := Engine.compute_sparse_page_rank e ["a"; "b"] cycle2_adjacency
                    None (Some [("a", 1%Q)]) None in
    (exists scores, snd dense = Ok scores) /\
    Engine.converged (Engine.get_convergence_info (fst dense)) = false /\
    Engine.iterations_performed (Engine.get_convergence_info (fst dense)) = 0%Z /\
    (exists scores, snd sparse = Ok scores) /\
    Engine.converged (Engine.get_convergence_info (fst sparse)) = false /\
    Engine.iterations_performed (Engine.get_convergence_info (fst sparse)) = 1%Z.
Proof.
  eexists. split; [reflexivity |].
  cbv zeta.
  split; [eexists; vm_compute; reflexivity |].
  split; [vm_compute; reflexivity |].
  split; [vm_compute; reflexivity |].
  split; [eexists; vm_compute; reflexivity |].
  split; vm_compute; reflexivity.
Qed.

(** ** A [SparseGraph] has no [get_normalized_matrix] *)

(** C10.  On every [SparseGraph] instance, with every suspicion mapping and
    every engine, the dense entry point raises AttributeError at its first
    statement and leaves the engine as it was. *)
Theorem dense_entry_point_fails_on_SparseGraph :
  forall (e : Engine.PowerIterationEngine) (g : Graph.SparseGraph)
         (suspicious_nodes : option (dict string Q)),
    Engine.computeـpage_rank e (Graph.getattr g) suspicious_nodes
    = (e, Raise AttributeError).
Proof.
  intros e g suspicious_nodes.
  unfold Engine.computeـpage_rank, Graph.getattr.
  reflexivity.
Qed.

(** C4 (counterexample).  On the two-node cycle with [a] suspicious, one
    iteration at damping 1/2: the dense path starts from the normalised
    suspicion scores and returns 1/2 for [a]; the sparse path starts from the
    uniform vector with the strategy's teleport vector and returns 2/3. *)
Lemma dense_sparse_results_differ :
  exists e x y x' y',
    Engine.__init__ (1 # 2) 1 (1 # 100000000) None None = Ok e /\
    snd (Engine.computeـpage_rank e cycle2_object (Some [("a", 1%Q)]))
      = Ok [("a", x); ("b", y)] /\
    snd (Engine.compute_sparse_page_rank e ["a"; "b"] cycle2_adjacency None
           (Some [("a", 1%Q)]) None)
      = Ok [("a", x'); ("b", y')] /\
    (x == 1 # 2)%Q /\ (x' == 2 # 3)%Q /\ ~ (x == x')%Q.
Proof.
  do 5 eexists.
  split; [reflexivity |].
  split; [vm_compute; reflexivity |].
  split; [vm_compute; reflexivity |].
  split; [reflexivity |]. split; [reflexivity |].
  intro H. discriminate H.
Qed.

(* ------------------------------------------------------------------ *)
(** * The ranking of fraud candidates                                  *)
(* ------------------------------------------------------------------ *)

Module RankingFacts.
Import Ranking.

Section Sort.
Context {A : Type} (key : A -> Q).

(** Larger keys first. *)
Let before (x y : A) : Prop := (key y <= key x)%Q.

Lemma insert_desc_perm (x : A) (l : list A) :
  Permutation (insert_desc key x l) (x :: l).
Proof.
  induction l as [| y l IH]; cbn [insert_desc]; [reflexivity |].
  destruct (Qle_bool (key y) (key x)); [reflexivity |].
  rewrite IH. apply perm_swap.
Qed.

Lemma sort_desc_perm (l : list A) : Permutation (sort_desc key l) l.
Proof.
  induction l as [| x l IH]; cbn [sort_desc fold_right]; [reflexivity |].
  fold (sort_desc key l). rewrite insert_desc_perm, IH. reflexivity.
Qed.

Lemma insert_desc_sorted (x : A) (l : list A) :
  StronglySorted before l -> StronglySorted before (insert_desc key x l).
Proof.
  induction 1 as [| y l Hl IH Hy]; cbn [insert_desc].
  - repeat constructor.
  - destruct (Qle_bool (key y) (key x)) eqn:Hle.
    + apply Qle_bool_iff in Hle. constructor; [constructor; assumption |].
      constructor; [exact Hle |].
      rewrite Forall_forall in Hy |- *. intros z Hz. unfold before in *.
      eapply Qle_trans; [apply Hy; exact Hz | exact Hle].
    + constructor; [exact IH |].
      apply (Permutation_Forall (Permutation_sym (insert_desc_perm x l))).
      constructor; [| exact Hy]. unfold before.
      destruct (Qlt_le_dec (key x) (key y)) as [Hlt | Hge].
      * apply Qlt_le_weak. exact Hlt.
      * apply Qle_bool_iff in Hge. congruence.
Qed.

Lemma sort_desc_sorted (l : list A) : StronglySorted before (sort_desc key l).
Proof.
  induction l as [| x l IH]; cbn [sort_desc fold_right]; [constructor |].
  apply insert_desc_sorted. exact IH.
Qed.

Lemma length_sort_desc (l : list A) : length (sort_desc key l) = length l.
Proof. apply Permutation_length, sort_desc_perm. Qed.

(** Insertion keeps the order of the entries that were there. *)
Lemma insert_desc_keeps (x a b : A) (l : list A) :
  precedes a b l -> precedes a b (insert_desc key x l).
Proof.
  induction 1 as [l Hb | y l Hab IH]; cbn [insert_desc].
  - destruct (Qle_bool (key a) (key x)).
    + apply precedes_later, precedes_here. exact Hb.
    + apply precedes_here.
      apply (Permutation_in _ (Permutation_sym (insert_desc_perm x l))).
      right. exact Hb.
  - destruct (Qle_bool (key y) (key x)).
    + apply precedes_later, precedes_later. exact Hab.
    + apply precedes_later. exact IH.
Qed.

(** The new entry goes before every entry whose key is not larger. *)
Lemma insert_desc_first (x b : A) (l : list A) :
  In b l -> (key b <= key x)%Q -> precedes x b (insert_desc key x l).
Proof.
  intros Hb Hkey. induction l as [| y l IH]; [destruct Hb |].
  cbn [insert_desc]. destruct (Qle_bool (key y) (key x)) eqn:Hle.
  - apply precedes_here. exact Hb.
  - apply precedes_later. apply IH. destruct Hb as [-> | Hb]; [| exact Hb].
    exfalso. apply Qle_bool_iff in Hkey. congruence.
Qed.

(** The sort is stable. *)
Lemma sort_desc_stable (a b : A) (l : list A) :
  precedes a b l -> (key b <= key a)%Q -> precedes a b (sort_desc key l).
Proof.
  intros Hab Hkey. induction Hab as [l Hb | x l Hab IH]; cbn [sort_desc fold_right];
    fold (sort_desc key l).
  - apply insert_desc_first; [| exact Hkey].
    apply (Permutation_in _ (Permutation_sym (sort_desc_perm l))). exact Hb.
  - apply insert_desc_keeps. exact IH.
Qed.

End Sort.


(** An order kept by a map, on the entries of the list. *)
Lemma sorted_map {A B : Type} (R : A -> A -> Prop) (R' : B -> B -> Prop)
    (f : A -> B) (l : list A) :
  (forall x y, In x l -> In y l -> R x y -> R' (f x) (f y)) ->
  StronglySorted R l -> StronglySorted R' (map f l).
Proof.
  intros Hf Hl. induction Hl as [| x l Hl IH Hx]; cbn [map]; constructor.
  - apply IH. intros y z Hy Hz. apply Hf; right; assumption.
  - rewrite Forall_forall in Hx |- *. intros b Hb.
    apply in_map_iff in Hb. destruct Hb as (y & <- & Hy).
    apply Hf; [left; reflexivity | right; exact Hy | apply Hx; exact Hy].
Qed.

Lemma precedes_map {A B : Type} (f : A -> B) (a b : A) (l : list A) :
  precedes a b l -> precedes (f a) (f b) (map f l).
Proof.
  induction 1 as [l Hb | x l Hab IH]; cbn [map].
  - apply precedes_here. apply in_map. exact Hb.
  - apply precedes_later. exact IH.
Qed.

Lemma precedes_map_inv {A B : Type} (f : A -> B) (x y : B) (l : list A) :
  precedes x y (map f l) ->
  exists a b, f a = x /\ f b = y /\ precedes a b l.
Proof.
  induction l as [| c l IH]; cbn [map]; intros H; inversion H as [l' Hy | z l' Hxy]; subst.
  - apply in_map_iff in Hy. destruct Hy as (b & Hb & Hin).
    exists c, b. split; [reflexivity |]. split; [exact Hb |].
    apply precedes_here. exact Hin.
  - destruct (IH Hxy) as (a & b & Ha & Hb & Hab).
    exists a, b. split; [exact Ha |]. split; [exact Hb |].
    apply precedes_later. exact Hab.
Qed.

(** Every slice [xs[:k]] is a prefix. *)
Lemma slice_to_prefix {A : Type} (xs : list A) (k : Z) :
  exists rest, xs = slice_to xs k ++ rest.
Proof.
  unfold slice_to. destruct (0 <=? k)%Z.
  - exists (skipn (Z.to_nat k) xs). symmetry. apply firstn_skipn.
  - exists (skipn (length xs - Z.to_nat (- k)) xs). symmetry. apply firstn_skipn.
Qed.

(** The candidates before the cut: the triples of all nodes, larger keys
    first, ties in the order of the scores. *)
Lemma candidates_ranked (float_add float_mul : Q -> Q -> Q)
    (page_rank_scores : dict string Q)
    (suspicion_scores : option (dict string Q)) :
  let triples :=
    map (fun kv => (fst kv, snd kv, suspicion_of suspicion_scores (fst kv)))
      page_rank_scores in
  let key := ranking_key float_add float_mul suspicion_scores in
  exists candidates : list (string * Q * Q * Q),
    (forall top_k,
        get_top_fraud_candidates float_add float_mul page_rank_scores top_k
          suspicion_scores
        = map (fun x => fst x) (slice_to candidates top_k)) /\
    Permutation (map (fun x => fst x) candidates) triples /\
    StronglySorted (by_key key) (map (fun x => fst x) candidates) /\
    forall a b, precedes a b triples -> (key b <= key a)%Q ->
                precedes a b (map (fun x => fst x) candidates).
Proof.
  intros triples key.
  assert (Hgen : forall (key4 : string * Q * Q * Q -> Q)
                        (cands : list (string * Q * Q * Q)),
             map (fun x => fst x) cands = triples ->
             (forall z, In z cands -> key4 z = key (fst z)) ->
             Permutation (map (fun x => fst x) (sort_desc key4 cands)) triples /\
             StronglySorted (by_key key) (map (fun x => fst x) (sort_desc key4 cands)) /\
             forall a b, precedes a b triples -> (key b <= key a)%Q ->
                         precedes a b (map (fun x => fst x) (sort_desc key4 cands))).
  { intros key4 cands Hfst Hkey.
    assert (Hkey' : forall z, In z (sort_desc key4 cands) -> key4 z = key (fst z)).
    { intros z Hz. apply Hkey. apply (Permutation_in _ (sort_desc_perm key4 cands)).
      exact Hz. }
    split; [| split].
    - rewrite (sort_desc_perm key4 cands), Hfst. reflexivity.
    - apply (sorted_map (R := fun x y => (key4 y <= key4 x)%Q));
        [| apply (sort_desc_sorted key4)].
      intros x y Hx Hy Hxy. unfold by_key.
      rewrite <- (Hkey' x Hx), <- (Hkey' y Hy). exact Hxy.
    - intros a b Hab Hle. rewrite <- Hfst in Hab.
      destruct (precedes_map_inv _ _ Hab) as (a' & b' & <- & <- & Hab').
      apply (precedes_map (fun x => fst x)). apply sort_desc_stable; [exact Hab' |].
      assert (Ha' : In a' cands).
      { clear - Hab'. induction Hab' as [l Hb | x l _ IH]; [left; reflexivity |].
        right. exact IH. }
      assert (Hb' : In b' cands).
      { clear - Hab'. induction Hab' as [l Hb | x l _ IH]; [right; exact Hb |].
        right. exact IH. }
      rewrite (Hkey a' Ha'), (Hkey b' Hb'). exact Hle. }
  unfold get_top_fraud_candidates.
  destruct (truthy suspicion_scores) eqn:Htruthy.
  - match goal with
    | |- context [sort_desc ?key4 ?l] => exists (sort_desc key4 l); set (cands := l)
    end.
    split; [reflexivity |].
    apply (Hgen (fun x : string * Q * Q * Q => snd x) cands).
    + unfold cands, triples. rewrite map_map. reflexivity.
    + intros z Hz. unfold cands in Hz. apply in_map_iff in Hz.
      destruct Hz as (kv & <- & _). unfold key, ranking_key. rewrite Htruthy.
      reflexivity.
  - match goal with
    | |- context [sort_desc ?key4 ?l] => exists (sort_desc key4 l); set (cands := l)
    end.
    assert (Hnone : forall id, suspicion_of suspicion_scores id = 0%Q).
    { intros id. unfold suspicion_of.
      destruct suspicion_scores as [[| kv d] |]; cbn in *;
        try reflexivity; discriminate. }
    split; [reflexivity |].
    apply (Hgen (fun x : string * Q * Q * Q => snd (fst (fst x))) cands).
    + unfold cands, triples. rewrite map_map. apply map_ext.
      intros kv. cbn [fst snd]. rewrite Hnone. reflexivity.
    + intros z Hz. unfold cands in Hz. apply in_map_iff in Hz.
      destruct Hz as (kv & <- & _). unfold key, ranking_key. rewrite Htruthy.
      reflexivity.
Qed.

End RankingFacts.

(** X9.  [get_top_fraud_candidates] returns the head of a ranking of all
    nodes by the key the code computes: the returned triples, followed by
    those cut off, are the triples [(node_id, pr_score, suspicion)] of the
    scored nodes in some order (suspicion 0 where none is given), and in that
    order the key never increases.  The key is the combined score
    [pr_score * (1.0 + suspicion)] as the float operations give it when
    suspicion scores are passed, and [pr_score] otherwise; the statement
    holds whatever the two float operations return.  So the result is sorted
    by that key and no node that was cut off has a larger key than a
    returned one. *)
Theorem get_top_fraud_candidates_ranked :
  forall (float_add float_mul : Q -> Q -> Q)
         (page_rank_scores : dict string Q) (top_k : Z)
         (suspicion_scores : option (dict string Q)),
  exists rest,
    Permutation
      (Ranking.get_top_fraud_candidates float_add float_mul page_rank_scores
         top_k suspicion_scores ++ rest)
      (map (fun kv => (fst kv, snd kv, suspicion_of suspicion_scores (fst kv)))
         page_rank_scores) /\
    StronglySorted
      (by_key (ranking_key float_add float_mul suspicion_scores))
      (Ranking.get_top_fraud_candidates float_add float_mul page_rank_scores
         top_k suspicion_scores ++ rest).
Proof.
  intros float_add float_mul scores top_k susp.
  destruct (RankingFacts.candidates_ranked float_add float_mul scores susp)
    as (cands & Hout & Hperm & Hsorted & _).
  destruct (RankingFacts.slice_to_prefix cands top_k) as (rest & Hsplit).
  exists (map (fun x => fst x) rest). rewrite Hout, <- map_app, <- Hsplit.
  split; assumption.
Qed.

(** X10.  For a non-negative [top_k] the ranking returns [top_k] triples, or
    one for every scored node when there are fewer, whatever the float
    operations return. *)
Theorem get_top_fraud_candidates_length :
  forall (float_add float_mul : Q -> Q -> Q)
         (page_rank_scores : dict string Q) (top_k : Z)
         (suspicion_scores : option (dict string Q)),
    (0 <= top_k)%Z ->
    length (Ranking.get_top_fraud_candidates float_add float_mul page_rank_scores
              top_k suspicion_scores)
    = Nat.min (Z.to_nat top_k) (length page_rank_scores).
Proof.
  intros float_add float_mul scores top_k susp Hk.
  destruct (RankingFacts.candidates_ranked float_add float_mul scores susp)
    as (cands & Hout & Hperm & _ & _).
  rewrite Hout, length_map. apply Permutation_length in Hperm.
  rewrite !length_map in Hperm. rewrite <- Hperm.
  unfold Ranking.slice_to. destruct (Z.leb_spec 0 top_k) as [_ | Hneg]; [| lia].
  apply length_firstn.
Qed.

(** X10 (witness): the two best of three nodes, with exact products. *)
Lemma get_top_fraud_candidates_length_example :
  length (Ranking.get_top_fraud_candidates Qplus Qmult
            [("a", 1 # 4); ("b", 1 # 2); ("c", 1 # 4)]%Q 2 (Some [("c", 1)]%Q))
  = Nat.min (Z.to_nat 2) (length [("a", 1 # 4); ("b", 1 # 2); ("c", 1 # 4)]%Q).
Proof.
  apply (@get_top_fraud_candidates_length Qplus Qmult
           [("a", 1 # 4); ("b", 1 # 2); ("c", 1 # 4)]%Q 2 (Some [("c", 1)]%Q)).
  lia.
Defined.

(** X26.  Ties are broken by the order of [page_rank_scores]: in the full
    ranking (the returned triples followed by those cut off) a node that
    comes before another one in [page_rank_scores] and whose key, as the code
    computes it, is not smaller also comes before it.  The key is the one of
    X9, and the statement holds whatever the two float operations return. *)
Theorem get_top_fraud_candidates_stable :
  forall (float_add float_mul : Q -> Q -> Q)
         (page_rank_scores : dict string Q) (top_k : Z)
         (suspicion_scores : option (dict string Q)),
  exists rest,
    Permutation
      (Ranking.get_top_fraud_candidates float_add float_mul page_rank_scores
         top_k suspicion_scores ++ rest)
      (map (fun kv => (fst kv, snd kv, suspicion_of suspicion_scores (fst kv)))
         page_rank_scores) /\
    forall a b,
      precedes a b
        (map (fun kv => (fst kv, snd kv, suspicion_of suspicion_scores (fst kv)))
           page_rank_scores) ->
      (ranking_key float_add float_mul suspicion_scores b
       <= ranking_key float_add float_mul suspicion_scores a)%Q ->
      precedes a b
        (Ranking.get_top_fraud_candidates float_add float_mul page_rank_scores
           top_k suspicion_scores ++ rest).
Proof.
  intros float_add float_mul scores top_k susp.
  destruct (RankingFacts.candidates_ranked float_add float_mul scores susp)
    as (cands & Hout & Hperm & _ & Hstable).
  destruct (RankingFacts.slice_to_prefix cands top_k) as (rest & Hsplit).
  exists (map (fun x => fst x) rest). rewrite Hout, <- map_app, <- Hsplit.
  split; assumption.
Qed.

(* ------------------------------------------------------------------ *)
(** * Facts about dictionaries                                         *)
(* ------------------------------------------------------------------ *)

Module DictFacts.
Import Py.

Section Dict.
Context {K V : Type} `{EqKey K}.
Implicit Types (d : dict K V) (k : K) (v : V).

Lemma get_set_same d k v : get (set d k v) k = Some v.
Proof.
  induction d as [| [k' v'] d IH]; simpl.
  - destruct (key_dec k k); congruence.
  - destruct (key_dec k k') as [-> | Hne]; simpl.
    + destruct (key_dec k' k'); congruence.
    + destruct (key_dec k k'); congruence.
Qed.

Lemma get_set_other d k k' v : k <> k' -> get (set d k v) k' = get d k'.
Proof.
  intros Hne. induction d as [| [k0 v0] d IH]; simpl.
  - destruct (key_dec k' k); congruence.
  - destruct (key_dec k k0) as [-> | Hne0]; simpl.
    + destruct (key_dec k' k0); congruence.
    + destruct (key_dec k' k0); congruence.
Qed.

Lemma get_set d k k' v :
  get (set d k v) k' = if key_dec k k' then Some v else get d k'.
Proof.
  destruct (key_dec k k') as [<- | Hne].
  - apply get_set_same.
  - apply get_set_other. exact Hne.
Qed.

Lemma mem_true_iff d k : mem d k = true <-> In k (keys d).
Proof.
  unfold mem, keys. induction d as [| [k' v'] d IH]; simpl.
  - split; [discriminate | tauto].
  - destruct (key_dec k k') as [-> | Hne].
    + split; auto.
    + rewrite IH. split; [auto |]. intros [Heq | Hin]; congruence.
Qed.

Lemma mem_false_iff d k : mem d k = false <-> ~ In k (keys d).
Proof.
  rewrite <- mem_true_iff. destruct (mem d k); split; congruence.
Qed.

Lemma mem_get d k : mem d k = true <-> get d k <> None.
Proof.
  unfold mem. destruct (get d k); split; congruence.
Qed.

Lemma mem_set d k k' v :
  mem (set d k v) k' = if key_dec k k' then true else mem d k'.
Proof.
  unfold mem. rewrite get_set. destruct (key_dec k k'); reflexivity.
Qed.

Lemma keys_set d k v :
  keys (set d k v) = if mem d k then keys d else keys d ++ [k].
Proof.
  unfold mem, keys. induction d as [| [k' v'] d IH]; simpl; [reflexivity |].
  destruct (key_dec k k') as [-> | Hne]; simpl; [reflexivity |].
  rewrite IH. destruct (get d k); reflexivity.
Qed.

Lemma NoDup_set d k v : NoDup (keys d) -> NoDup (keys (set d k v)).
Proof.
  intros Hnd. rewrite keys_set. destruct (mem d k) eqn:Hm; [exact Hnd |].
  apply mem_false_iff in Hm.
  apply NoDup_app; [exact Hnd | repeat constructor; simpl; tauto |].
  intros x Hx [<- | []]. exact (Hm Hx).
Qed.

Lemma length_set d k v :
  length (set d k v) = if mem d k then length d else S (length d).
Proof.
  unfold mem. induction d as [| [k' v'] d IH]; simpl; [reflexivity |].
  destruct (key_dec k k') as [-> | Hne]; simpl; [reflexivity |].
  rewrite IH. destruct (get d k); reflexivity.
Qed.

Lemma keys_del_incl d k x : In x (keys (del d k)) -> In x (keys d).
Proof.
  unfold keys. induction d as [| [k' v'] d IH]; simpl; [tauto |].
  destruct (key_dec k k'); simpl; [auto |]. intros [Heq | Hin]; auto.
Qed.

Lemma NoDup_del d k : NoDup (keys d) -> NoDup (keys (del d k)).
Proof.
  unfold keys. induction d as [| [k' v'] d IH]; simpl; intros Hnd; [constructor |].
  inversion Hnd as [| ? ? Hnotin Hnd']; subst.
  destruct (key_dec k k'); simpl; [exact Hnd' |].
  constructor; [| apply IH; exact Hnd'].
  intros Hin. apply Hnotin. apply (keys_del_incl d k). exact Hin.
Qed.

Lemma get_del_other d k k' : k <> k' -> get (del d k) k' = get d k'.
Proof.
  intros Hne. induction d as [| [k0 v0] d IH]; simpl; [reflexivity |].
  destruct (key_dec k k0) as [-> | Hne0]; simpl.
  - destruct (key_dec k' k0); congruence.
  - destruct (key_dec k' k0); congruence.
Qed.

Lemma get_del_same d k : NoDup (keys d) -> get (del d k) k = None.
Proof.
  unfold keys. induction d as [| [k0 v0] d IH]; simpl; intros Hnd; [reflexivity |].
  inversion Hnd as [| ? ? Hnotin Hnd']; subst.
  destruct (key_dec k k0) as [-> | Hne0]; simpl.
  - destruct (get d k0) eqn:Hg; [| reflexivity].
    exfalso. apply Hnotin. apply mem_true_iff. apply mem_get. congruence.
  - destruct (key_dec k k0); [congruence | apply IH; exact Hnd'].
Qed.

Lemma get_del d k k' :
  NoDup (keys d) ->
  get (del d k) k' = if key_dec k k' then None else get d k'.
Proof.
  intros Hnd. destruct (key_dec k k') as [<- | Hne].
  - apply get_del_same. exact Hnd.
  - apply get_del_other. exact Hne.
Qed.

Lemma length_del d k : mem d k = true -> S (length (del d k)) = length d.
Proof.
  unfold mem. induction d as [| [k0 v0] d IH]; simpl; [discriminate |].
  destruct (key_dec k k0); simpl; [reflexivity |].
  intros Hm. rewrite IH by exact Hm. reflexivity.
Qed.

Lemma get_In d k v : NoDup (keys d) -> (get d k = Some v <-> In (k, v) d).
Proof.
  unfold keys. induction d as [| [k0 v0] d IH]; simpl; intros Hnd.
  - split; [discriminate | tauto].
  - inversion Hnd as [| ? ? Hnotin Hnd']; subst.
    destruct (key_dec k k0) as [-> | Hne].
    + split.
      * intros Heq. left. congruence.
      * intros [Heq | Hin]; [congruence |].
        exfalso. apply Hnotin. apply (in_map fst) in Hin. exact Hin.
    + rewrite (IH Hnd'). split; [auto |].
      intros [Heq | Hin]; [congruence | exact Hin].
Qed.

End Dict.

End DictFacts.

(* ------------------------------------------------------------------ *)
(** * The graph store keeps its invariants                             *)
(* ------------------------------------------------------------------ *)

Module GraphFacts.
Import Py DictFacts Graph.

Lemma length_edges_set (adj : dict string (dict string Q)) (a : string)
    (nb' : dict string Q) :
  (length (get_edges {| directed := true; _adjacency_list := set adj a nb';
                        _node_to_idx := []; _idx_to_node := []; _edge_count := 0 |})
   + match get adj a with Some nb => length nb | None => 0 end
   = length (get_edges {| directed := true; _adjacency_list := adj;
                          _node_to_idx := []; _idx_to_node := []; _edge_count := 0 |})
     + length nb')%nat.
Proof.
  unfold get_edges. cbn [_adjacency_list].
  induction adj as [| [s nb] adj IH]; cbn [set get flat_map].
  - cbn [fst snd]. rewrite !length_app, length_map. simpl. lia.
  - destruct (key_dec a s) as [-> | Hne]; cbn [flat_map fst snd].
    + rewrite !length_app, !length_map. lia.
    + rewrite !length_app, !length_map. lia.
Qed.

Lemma get_edges_adj (g : SparseGraph) :
  get_edges g
  = get_edges {| directed := true; _adjacency_list := _adjacency_list g;
                 _node_to_idx := []; _idx_to_node := []; _edge_count := 0 |}.
Proof. reflexivity. Qed.

Lemma string_eqb_dec (x y : string) :
  String.eqb x y = if key_dec y x then true else false.
Proof.
  destruct (key_dec y x) as [-> | Hne].
  - apply String.eqb_refl.
  - apply String.eqb_neq. congruence.
Qed.

(** *** [add_node] *)

Lemma add_node_spec (g : SparseGraph) (id : string) :
  base_wf g ->
  base_wf (add_node g id) /\
  directed (add_node g id) = directed g /\
  _edge_count (add_node g id) = _edge_count g /\
  (forall s t, edge_weight (add_node g id) s t = edge_weight g s t) /\
  (forall x, mem (_adjacency_list (add_node g id)) x
             = String.eqb x id || mem (_adjacency_list g) x).
Proof.
  intros (Hkeys & Hinner & Hcount & Htargets).
  unfold add_node. destruct (mem (_adjacency_list g) id) eqn:Hm; cbn [negb].
  - repeat split; auto.
    intros x. destruct (String.eqb_spec x id) as [-> | Hne]; [| reflexivity].
    rewrite Hm. reflexivity.
  - assert (Hget : get (_adjacency_list g) id = None).
    { unfold mem in Hm. destruct (get (_adjacency_list g) id); congruence. }
    assert (Hw : forall s t,
               edge_weight {| directed := directed g;
                              _adjacency_list := set (_adjacency_list g) id [];
                              _node_to_idx := set (_node_to_idx g) id (length (_adjacency_list g));
                              _idx_to_node := set (_idx_to_node g) (length (_adjacency_list g)) id;
                              _edge_count := _edge_count g |} s t
               = edge_weight g s t).
    { intros s t. unfold edge_weight. cbn [_adjacency_list].
      rewrite get_set. destruct (key_dec id s) as [<- | Hne]; [| reflexivity].
      rewrite Hget. reflexivity. }
    assert (Hmem : forall x,
               mem (set (_adjacency_list g) id []) x
               = String.eqb x id || mem (_adjacency_list g) x).
    { intros x. rewrite mem_set, string_eqb_dec.
      destruct (key_dec id x); reflexivity. }
    split; [| repeat split; auto].
    split; [| split; [| split]]; cbn [_adjacency_list _edge_count].
    + apply NoDup_set. exact Hkeys.
    + intros s nb. rewrite get_set. destruct (key_dec id s).
      * intros Heq. injection Heq as <-. constructor.
      * apply Hinner.
    + rewrite Hcount. f_equal.
      pose proof (length_edges_set (_adjacency_list g) id []) as Hlen.
      rewrite Hget in Hlen. rewrite (get_edges_adj g). simpl in Hlen |- *.
      unfold get_edges in *. cbn [_adjacency_list] in *. lia.
    + intros s t Hst. rewrite Hmem. rewrite Hw in Hst.
      rewrite (Htargets s t Hst). apply orb_true_r.
Qed.

(** *** [store_edge] *)

Lemma store_edge_spec (g : SparseGraph) (a k : string) (w : Q) :
  base_wf g ->
  mem (_adjacency_list g) a = true -> mem (_adjacency_list g) k = true ->
  exists g',
    store_edge g a k w = Ok g' /\
    base_wf g' /\
    directed g' = directed g /\
    _edge_count g'
    = (_edge_count g + match edge_weight g a k with Some _ => 0 | None => 1 end)%Z /\
    (forall s t, edge_weight g' s t
                 = if String.eqb s a && String.eqb t k then Some w
                   else edge_weight g s t) /\
    (forall x, mem (_adjacency_list g') x = mem (_adjacency_list g) x).
Proof.
  intros (Hkeys & Hinner & Hcount & Htargets) Ha Hk.
  unfold store_edge, getitem.
  destruct (get (_adjacency_list g) a) as [nb |] eqn:Hget;
    [| unfold mem in Ha; rewrite Hget in Ha; discriminate].
  cbn [bind]. eexists. split; [reflexivity |].
  assert (Hw : forall s t,
             edge_weight {| directed := directed g;
                            _adjacency_list := set (_adjacency_list g) a (set nb k w);
                            _node_to_idx := _node_to_idx g;
                            _idx_to_node := _idx_to_node g;
                            _edge_count := if negb (mem nb k)
                                           then (_edge_count g + 1)%Z
                                           else _edge_count g |} s t
             = if String.eqb s a && String.eqb t k then Some w
               else edge_weight g s t).
  { intros s t. unfold edge_weight. cbn [_adjacency_list].
    rewrite get_set, (string_eqb_dec s a). destruct (key_dec a s) as [<- | Hne].
    - rewrite Hget, get_set, (string_eqb_dec t k).
      destruct (key_dec k t); reflexivity.
    - reflexivity. }
  assert (Hmem : forall x,
             mem (set (_adjacency_list g) a (set nb k w)) x
             = mem (_adjacency_list g) x).
  { intros x. rewrite mem_set. destruct (key_dec a x) as [<- | Hne]; auto. }
  assert (Hold : edge_weight g a k = get nb k).
  { unfold edge_weight. rewrite Hget. reflexivity. }
  split; [| split; [reflexivity | split; [| split; [exact Hw | exact Hmem]]]].
  - split; [| split; [| split]]; cbn [_adjacency_list _edge_count].
    + apply NoDup_set. exact Hkeys.
    + intros s nb0. rewrite get_set. destruct (key_dec a s).
      * intros Heq. injection Heq as <-. apply NoDup_set.
        apply (Hinner a). exact Hget.
      * apply Hinner.
    + pose proof (length_edges_set (_adjacency_list g) a (set nb k w)) as Hlen.
      rewrite Hget, length_set in Hlen.
      rewrite (get_edges_adj g) in Hcount. unfold get_edges in *.
      cbn [_adjacency_list] in *.
      destruct (mem nb k); cbn [negb]; lia.
    + intros s t Hst. rewrite Hmem. rewrite Hw in Hst.
      destruct (String.eqb s a && String.eqb t k) eqn:Hb.
      * apply andb_true_iff in Hb. destruct Hb as [_ Hb].
        apply String.eqb_eq in Hb. subst t. exact Hk.
      * apply (Htargets s t). exact Hst.
  - cbn [_edge_count]. rewrite Hold. unfold mem.
    destruct (get nb k); cbn [negb]; lia.
Qed.

(** *** [drop_edge] *)

Lemma drop_edge_spec (g : SparseGraph) (a k : string) :
  base_wf g -> edge_weight g a k <> None ->
  exists g',
    drop_edge g a k = Ok g' /\
    base_wf g' /\
    directed g' = directed g /\
    _edge_count g' = (_edge_count g - 1)%Z /\
    (forall s t, edge_weight g' s t
                 = if String.eqb s a && String.eqb t k then None
                   else edge_weight g s t) /\
    (forall x, mem (_adjacency_list g') x = mem (_adjacency_list g) x).
Proof.
  intros (Hkeys & Hinner & Hcount & Htargets) Hedge.
  unfold drop_edge, getitem. unfold edge_weight in Hedge.
  destruct (get (_adjacency_list g) a) as [nb |] eqn:Hget; [| congruence].
  cbn [bind].
  assert (Hm : mem nb k = true) by (apply mem_get; exact Hedge).
  rewrite Hm. eexists. split; [reflexivity |].
  assert (Hnb : NoDup (keys nb)) by (apply (Hinner a); exact Hget).
  assert (Hw : forall s t,
             edge_weight {| directed := directed g;
                            _adjacency_list := set (_adjacency_list g) a (del nb k);
                            _node_to_idx := _node_to_idx g;
                            _idx_to_node := _idx_to_node g;
                            _edge_count := (_edge_count g - 1)%Z |} s t
             = if String.eqb s a && String.eqb t k then None
               else edge_weight g s t).
  { intros s t. unfold edge_weight. cbn [_adjacency_list].
    rewrite get_set, (string_eqb_dec s a). destruct (key_dec a s) as [<- | Hne].
    - rewrite Hget, (get_del _ _ _ Hnb), (string_eqb_dec t k).
      destruct (key_dec k t); reflexivity.
    - reflexivity. }
  assert (Hmem : forall x,
             mem (set (_adjacency_list g) a (del nb k)) x
             = mem (_adjacency_list g) x).
  { intros x. rewrite mem_set. destruct (key_dec a x) as [<- | Hne]; auto.
    symmetry. apply mem_get. congruence. }
  split; [| split; [reflexivity | split; [reflexivity | split; [exact Hw | exact Hmem]]]].
  split; [| split; [| split]]; cbn [_adjacency_list _edge_count].
  - apply NoDup_set. exact Hkeys.
  - intros s nb0. rewrite get_set. destruct (key_dec a s).
    + intros Heq. injection Heq as <-. apply NoDup_del. exact Hnb.
    + apply Hinner.
  - pose proof (length_edges_set (_adjacency_list g) a (del nb k)) as Hlen.
    rewrite Hget in Hlen. pose proof (length_del nb k Hm) as Hdel.
    rewrite (get_edges_adj g) in Hcount. unfold get_edges in *.
    cbn [_adjacency_list] in *. lia.
  - intros s t Hst. rewrite Hmem. rewrite Hw in Hst.
    destruct (String.eqb s a && String.eqb t k); [congruence |].
    apply (Htargets s t). exact Hst.
Qed.

End GraphFacts.

Module GraphOps.
Import Py DictFacts Graph GraphFacts.

(** Case analysis on every comparison of node ids in sight. *)
Ltac eqb_cases :=
  repeat match goal with
         | |- context [String.eqb ?x ?y] =>
             destruct (String.eqb_spec x y); subst; cbn [andb orb negb]
         | H : context [String.eqb ?x ?y] |- _ =>
             destruct (String.eqb_spec x y); subst; cbn [andb orb negb] in H
         end.

Lemma wf_init (d : bool) : wf (__init__ d).
Proof.
  split; [split; [| split; [| split]] |].
  - constructor.
  - intros s nb. discriminate.
  - reflexivity.
  - intros s t Hst. exfalso. apply Hst. reflexivity.
  - intros _ s t w. discriminate.
Qed.

(** *** [add_edge] *)

Lemma add_edge_spec (g : SparseGraph) (s t : string) (w : Q) :
  wf g ->
  exists g',
    add_edge g s t w = Ok g' /\
    wf g' /\
    directed g' = directed g /\
    _edge_count g' = (_edge_count g + counter_step g s t)%Z /\
    (forall s' t',
        edge_weight g' s' t'
        = if String.eqb s' s && String.eqb t' t then Some w
          else if negb (directed g) && (String.eqb s' t && String.eqb t' s)
               then Some w
               else edge_weight g s' t') /\
    (forall x, mem (_adjacency_list g') x
               = String.eqb x s || String.eqb x t || mem (_adjacency_list g) x).
Proof.
  intros [Hbase Hmir]. unfold add_edge.
  destruct (@add_node_spec g s Hbase) as (Hb1 & Hd1 & Hc1 & Hw1 & Hm1).
  destruct (@add_node_spec _ t Hb1) as (Hb2 & Hd2 & Hc2 & Hw2 & Hm2).
  set (g2 := add_node (add_node g s) t) in *.
  assert (Hs2 : mem (_adjacency_list g2) s = true).
  { rewrite Hm2, Hm1, String.eqb_refl. cbn. apply orb_true_r. }
  assert (Ht2 : mem (_adjacency_list g2) t = true).
  { rewrite Hm2, String.eqb_refl. reflexivity. }
  destruct (@store_edge_spec g2 s t w Hb2 Hs2 Ht2)
    as (g3 & Hrun3 & Hb3 & Hd3 & Hc3 & Hw3 & Hm3).
  rewrite Hrun3. cbn [bind].
  assert (Hdir3 : directed g3 = directed g) by congruence.
  assert (Hold : edge_weight g2 s t = edge_weight g s t)
    by (rewrite Hw2, Hw1; reflexivity).
  rewrite Hdir3.
  destruct (negb (directed g) && negb (String.eqb s t)) eqn:Hmirror.
  - (* undirected, two ends *)
    apply andb_true_iff in Hmirror. destruct Hmirror as [Hund Hne].
    apply negb_true_iff in Hund, Hne. apply String.eqb_neq in Hne.
    assert (Hs3 : mem (_adjacency_list g3) s = true) by (rewrite Hm3; exact Hs2).
    assert (Ht3 : mem (_adjacency_list g3) t = true) by (rewrite Hm3; exact Ht2).
    destruct (@store_edge_spec g3 t s w Hb3 Ht3 Hs3)
      as (g4 & Hrun4 & Hb4 & Hd4 & Hc4 & Hw4 & Hm4).
    exists g4. split; [exact Hrun4 |].
    assert (Hw : forall s' t',
               edge_weight g4 s' t'
               = if String.eqb s' s && String.eqb t' t then Some w
                 else if negb (directed g) && (String.eqb s' t && String.eqb t' s)
                      then Some w
                      else edge_weight g s' t').
    { intros s' t'. rewrite Hw4, Hw3, Hw2, Hw1, Hund. cbn [negb andb].
      eqb_cases; solve [congruence | exact Hmir]. }
    split; [split; [exact Hb4 |] | split; [congruence | split; [| split; [exact Hw |]]]].
    + intros _ s' t' w'. rewrite !Hw, Hund. cbn [negb andb].
      specialize (Hmir Hund s' t' w'). eqb_cases; solve [congruence | exact Hmir].
    + rewrite Hc4, Hc3, Hc2, Hc1, Hw3, Hold. unfold counter_step.
      rewrite Hw2, Hw1, Hund.
      assert (Hback : edge_weight g t s = None <-> edge_weight g s t = None).
      { split; intros Hnone.
        - destruct (edge_weight g s t) as [w' |] eqn:Hst; [| reflexivity].
          rewrite (Hmir Hund s t w' Hst) in Hnone. discriminate.
        - destruct (edge_weight g t s) as [w' |] eqn:Hts; [| reflexivity].
          rewrite (Hmir Hund t s w' Hts) in Hnone. discriminate. }
      eqb_cases; try congruence.
      destruct (edge_weight g s t) as [w' |] eqn:Hst.
      * rewrite (Hmir Hund s t w' Hst). lia.
      * rewrite (proj2 Hback eq_refl). lia.
    + intros x. rewrite Hm4, Hm3, Hm2, Hm1.
      rewrite orb_assoc, (orb_comm (String.eqb x t)). reflexivity.
  - (* directed, or a self-loop *)
    exists g3. split; [reflexivity |].
    assert (Hw : forall s' t',
               edge_weight g3 s' t'
               = if String.eqb s' s && String.eqb t' t then Some w
                 else if negb (directed g) && (String.eqb s' t && String.eqb t' s)
                      then Some w
                      else edge_weight g s' t').
    { intros s' t'. rewrite Hw3, Hw2, Hw1.
      apply andb_false_iff in Hmirror.
      destruct Hmirror as [Hdir | Hloop].
      - rewrite Hdir. reflexivity.
      - apply negb_false_iff, String.eqb_eq in Hloop. subst t.
        destruct (String.eqb s' s && String.eqb t' s); [reflexivity |].
        rewrite andb_false_r. reflexivity. }
    split; [split; [exact Hb3 |] | split; [exact Hdir3 | split; [| split; [exact Hw |]]]].
    + intros Hund s' t' w'. rewrite Hdir3 in Hund. rewrite !Hw, Hund.
      rewrite Hund in Hmirror. cbn [negb andb] in Hmirror |- *.
      apply negb_false_iff, String.eqb_eq in Hmirror. subst t.
      specialize (Hmir Hund s' t' w'). eqb_cases; solve [congruence | exact Hmir].
    + rewrite Hc3, Hc2, Hc1, Hold. unfold counter_step.
      destruct (edge_weight g s t); [reflexivity |].
      apply andb_false_iff in Hmirror. destruct Hmirror as [Hdir | Hloop].
      * apply negb_false_iff in Hdir. rewrite Hdir. reflexivity.
      * apply negb_false_iff in Hloop. rewrite Hloop, orb_true_r. reflexivity.
    + intros x. rewrite Hm3, Hm2, Hm1.
      rewrite orb_assoc, (orb_comm (String.eqb x t)). reflexivity.
Qed.

(** *** [remove_edge] *)

Lemma remove_edge_spec (g : SparseGraph) (s t : string) :
  wf g ->
  exists g' b,
    remove_edge g s t = Ok (g', b) /\
    wf g' /\
    directed g' = directed g.
Proof.
  intros [Hbase Hmir]. unfold remove_edge.
  assert (Htest : match get (_adjacency_list g) s with
                  | Some neighbors => mem neighbors t
                  | None => false
                  end = true <-> edge_weight g s t <> None).
  { unfold edge_weight. destruct (get (_adjacency_list g) s) as [nb |].
    - apply mem_get.
    - split; [discriminate | congruence]. }
  destruct (match get (_adjacency_list g) s with
            | Some neighbors => mem neighbors t
            | None => false
            end).
  2:{ exists g, false. split; [reflexivity |]. split; [split; assumption | reflexivity]. }
  assert (Hedge : edge_weight g s t <> None) by (apply Htest; reflexivity).
  destruct (@drop_edge_spec g s t Hbase Hedge) as (g1 & Hrun1 & Hb1 & Hd1 & Hc1 & Hw1 & Hm1).
  rewrite Hrun1. cbn [bind]. rewrite Hd1.
  destruct (negb (directed g) && negb (String.eqb s t)) eqn:Hmirror.
  - apply andb_true_iff in Hmirror. destruct Hmirror as [Hund Hne].
    apply negb_true_iff in Hund, Hne.
    assert (Hback : edge_weight g1 t s <> None).
    { rewrite Hw1. rewrite (String.eqb_sym t s), Hne. cbn [andb].
      destruct (edge_weight g s t) as [w |] eqn:Hst; [| congruence].
      rewrite (Hmir Hund s t w Hst). discriminate. }
    destruct (@drop_edge_spec g1 t s Hb1 Hback) as (g2 & Hrun2 & Hb2 & Hd2 & Hc2 & Hw2 & Hm2).
    rewrite Hrun2. cbn [bind]. exists g2, true.
    split; [reflexivity |]. split; [split; [exact Hb2 |] | congruence].
    intros _ s' t' w'. rewrite !Hw2, !Hw1.
    specialize (Hmir Hund s' t' w'). apply String.eqb_neq in Hne.
    eqb_cases; solve [congruence | exact Hmir].
  - exists g1, true. split; [reflexivity |].
    split; [split; [exact Hb1 |] | exact Hd1].
    intros Hund s' t' w'. rewrite Hd1 in Hund. rewrite !Hw1.
    rewrite Hund in Hmirror. cbn [negb andb] in Hmirror.
    apply negb_false_iff, String.eqb_eq in Hmirror. subst t.
    specialize (Hmir Hund s' t' w'). eqb_cases; solve [congruence | exact Hmir].
Qed.

(** *** Sequences of calls *)

Lemma apply_op_wf (g : SparseGraph) (o : op) :
  wf g -> exists g', apply_op g o = Ok g' /\ wf g' /\ directed g' = directed g.
Proof.
  intros Hwf. destruct o as [id | s t w | s t]; cbn [apply_op].
  - exists (add_node g id). split; [reflexivity |].
    destruct Hwf as [Hbase Hmir].
    destruct (@add_node_spec g id Hbase) as (Hb & Hd & Hc & Hw & Hm).
    split; [split; [exact Hb |] | exact Hd].
    intros Hund s t w. rewrite !Hw. apply Hmir. congruence.
  - destruct (@add_edge_spec g s t w Hwf) as (g' & Hrun & Hwf' & Hd & _).
    exists g'. auto.
  - destruct (@remove_edge_spec g s t Hwf) as (g' & b & Hrun & Hwf' & Hd).
    exists g'. rewrite Hrun. auto.
Qed.

Lemma run_wf (ops : list op) :
  forall g, wf g -> exists g', run g ops = Ok g' /\ wf g' /\ directed g' = directed g.
Proof.
  induction ops as [| o ops IH]; intros g Hwf; cbn [run].
  - exists g. auto.
  - destruct (@apply_op_wf g o Hwf) as (g1 & Hrun1 & Hwf1 & Hd1).
    rewrite Hrun1. cbn [bind].
    destruct (IH g1 Hwf1) as (g' & Hrun & Hwf' & Hd).
    exists g'. split; [exact Hrun |]. split; [exact Hwf' | congruence].
Qed.

End GraphOps.

(** C8.  From an empty graph, directed or not, every sequence of [add_node],
    [add_edge] and [remove_edge] calls runs without an exception and leaves
    the edge counter equal to the number of stored (source, target) pairs.
    On the graph it reaches, [add_edge source target weight] stores the
    weight for the pair, stores it for the reverse pair as well when the
    graph is undirected, and moves the counter by 0 when the pair was stored
    already (the weight is overwritten), by 1 on a first insertion into a
    directed graph or of a self-loop, and by 2 on a first insertion into an
    undirected graph with [source <> target]. *)
Theorem edge_count_is_stored_pairs :
  forall (directed : bool) (ops : list Graph.op),
  exists g,
    Graph.run (Graph.__init__ directed) ops = Ok g /\
    Graph._edge_count g = Z.of_nat (length (Graph.get_edges g)) /\
    forall (source target : string) (weight : Q),
    exists g',
      Graph.add_edge g source target weight = Ok g' /\
      Graph._edge_count g' = Z.of_nat (length (Graph.get_edges g')) /\
      Graph.edge_weight g' source target = Some weight /\
      (Graph.directed g = false -> Graph.edge_weight g' target source = Some weight) /\
      Graph._edge_count g'
      = (Graph._edge_count g
         + match Graph.edge_weight g source target with
           | Some _ => 0
           | None => if Graph.directed g || String.eqb source target then 1 else 2
           end)%Z.
Proof.
  intros d ops.
  destruct (@GraphOps.run_wf ops _ (GraphOps.wf_init d)) as (g & Hrun & Hwf & Hd).
  exists g. split; [exact Hrun |].
  split; [apply Hwf |].
  intros s t w.
  destruct (@GraphOps.add_edge_spec g s t w Hwf) as (g' & Hadd & Hwf' & Hd' & Hc & Hw & Hm).
  exists g'. split; [exact Hadd |].
  split; [apply Hwf' |].
  split; [| split; [| exact Hc]].
  - rewrite Hw, !String.eqb_refl. reflexivity.
  - intros Hund. rewrite Hw, Hund, !String.eqb_refl. cbn [negb andb].
    destruct (String.eqb t s && String.eqb s t); reflexivity.
Qed.

(* ------------------------------------------------------------------ *)
(** * The node index                                                   *)
(* ------------------------------------------------------------------ *)

Module GraphIndex.
Import Py DictFacts Graph GraphFacts GraphOps.

Lemma set_new {K V : Type} `{EqKey K} (d : dict K V) (k : K) (v : V) :
  mem d k = false -> set d k v = d ++ [(k, v)].
Proof.
  unfold mem. induction d as [| [k' v'] d IH]; cbn [get set app]; [reflexivity |].
  destruct (key_dec k k') as [_ | _]; [discriminate |].
  intros Hd. rewrite (IH Hd). reflexivity.
Qed.

Lemma keys_combine {K V : Type} (ks : list K) (vs : list V) :
  length ks = length vs -> keys (combine ks vs) = ks.
Proof.
  unfold keys. revert vs.
  induction ks as [| k ks IH]; intros [| v vs] Hlen; cbn in *;
    try reflexivity; try discriminate.
  f_equal. apply IH. lia.
Qed.

Lemma combine_snoc {A B : Type} (xs : list A) (ys : list B) (x : A) (y : B) :
  length xs = length ys ->
  combine (xs ++ [x]) (ys ++ [y]) = combine xs ys ++ [(x, y)].
Proof.
  revert ys. induction xs as [| a xs IH]; intros [| b ys] Hlen; cbn in *;
    try reflexivity; try discriminate.
  f_equal. apply IH. lia.
Qed.

Lemma keys_set_member {K V : Type} `{EqKey K} (d : dict K V) (k : K) (v : V) :
  mem d k = true -> keys (set d k v) = keys d.
Proof. intros Hk. rewrite keys_set, Hk. reflexivity. Qed.

(** The value that a numbering in insertion order holds for a key. *)
Lemma get_numbering (ks : list string) (x : string) (i : nat) :
  NoDup ks ->
  forall s,
    get (combine ks (seq s (length ks))) x = Some i
    <-> (s <= i)%nat /\ nth_error ks (i - s) = Some x.
Proof.
  induction 1 as [| k ks Hk Hks IH]; intros s; cbn [length seq combine get].
  - split; [discriminate |]. intros [_ Hnth].
    destruct (i - s)%nat; discriminate.
  - destruct (key_dec x k) as [-> | Hne].
    + split.
      * intros Heq. injection Heq as <-. split; [lia |].
        rewrite Nat.sub_diag. reflexivity.
      * intros [Hle Hnth]. destruct (i - s)%nat as [| m] eqn:Hm.
        -- f_equal. lia.
        -- cbn in Hnth. apply nth_error_In in Hnth. contradiction.
    + rewrite IH. split.
      * intros [Hle Hnth]. split; [lia |].
        replace (i - s)%nat with (S (i - S s)) by lia. exact Hnth.
      * intros [Hle Hnth]. destruct (i - s)%nat as [| m] eqn:Hm.
        -- cbn in Hnth. congruence.
        -- cbn in Hnth. split; [lia |].
           replace (i - S s)%nat with m by lia. exact Hnth.
Qed.

Lemma get_enumeration (ks : list string) (x : string) (i : nat) :
  forall s,
    get (combine (seq s (length ks)) ks) i = Some x
    <-> (s <= i)%nat /\ nth_error ks (i - s) = Some x.
Proof.
  induction ks as [| k ks IH]; intros s; cbn [length seq combine get].
  - split; [discriminate |]. intros [_ Hnth].
    destruct (i - s)%nat; discriminate.
  - destruct (key_dec i s) as [-> | Hne].
    + rewrite Nat.sub_diag. cbn. split.
      * intros Heq. split; [lia | exact Heq].
      * intros [_ Heq]. exact Heq.
    + rewrite IH. split.
      * intros [Hle Hnth]. split; [lia |].
        replace (i - s)%nat with (S (i - S s)) by lia. exact Hnth.
      * intros [Hle Hnth]. destruct (i - s)%nat as [| m] eqn:Hm; [lia |].
        cbn in Hnth. split; [lia |].
        replace (i - S s)%nat with m by lia. exact Hnth.
Qed.

Lemma indexed_init (d : bool) : indexed (__init__ d).
Proof. split; reflexivity. Qed.

(** [add_node] appends a new node and numbers it; a known node changes
    nothing. *)
Lemma add_node_nodes (g : SparseGraph) (id : string) :
  get_nodes (add_node g id)
  = if mem (_adjacency_list g) id then get_nodes g else get_nodes g ++ [id].
Proof.
  unfold add_node. destruct (mem (_adjacency_list g) id) eqn:Hmem; cbn [negb];
    [reflexivity |].
  unfold get_nodes. cbn [_adjacency_list]. rewrite keys_set, Hmem. reflexivity.
Qed.

Lemma add_node_indexed (g : SparseGraph) (id : string) :
  indexed g -> indexed (add_node g id).
Proof.
  intros [Hn Hi]. pose proof (add_node_nodes g id) as Hnodes.
  unfold add_node in *. destruct (mem (_adjacency_list g) id) eqn:Hmem;
    cbn [negb] in *; [split; assumption |].
  assert (Hlen : length (_adjacency_list g) = length (get_nodes g))
    by (unfold get_nodes, keys; rewrite length_map; reflexivity).
  unfold indexed. rewrite Hnodes. cbn [_node_to_idx _idx_to_node].
  rewrite length_app, Nat.add_1_r, seq_S, Nat.add_0_l, Hlen, Hn, Hi.
  rewrite !combine_snoc by (rewrite length_seq; reflexivity).
  split; apply set_new.
  - apply mem_false_iff. rewrite keys_combine by (rewrite length_seq; reflexivity).
    apply mem_false_iff. exact Hmem.
  - apply mem_false_iff. rewrite keys_combine by (rewrite length_seq; reflexivity).
    rewrite in_seq. lia.
Qed.

Lemma store_edge_nodes (g g' : SparseGraph) (a k : string) (w : Q) :
  store_edge g a k w = Ok g' ->
  get_nodes g' = get_nodes g /\ _node_to_idx g' = _node_to_idx g /\
  _idx_to_node g' = _idx_to_node g.
Proof.
  unfold store_edge, getitem.
  destruct (get (_adjacency_list g) a) as [nb |] eqn:Hget; cbn [bind];
    [| discriminate].
  intros Heq. injection Heq as <-. unfold get_nodes. cbn.
  split; [| split; reflexivity]. apply keys_set_member.
  apply mem_get. congruence.
Qed.

Lemma drop_edge_nodes (g g' : SparseGraph) (a k : string) :
  drop_edge g a k = Ok g' ->
  get_nodes g' = get_nodes g /\ _node_to_idx g' = _node_to_idx g /\
  _idx_to_node g' = _idx_to_node g.
Proof.
  unfold drop_edge, getitem.
  destruct (get (_adjacency_list g) a) as [nb |] eqn:Hget; cbn [bind];
    [| discriminate].
  destruct (mem nb k); [| discriminate].
  intros Heq. injection Heq as <-. unfold get_nodes. cbn.
  split; [| split; reflexivity]. apply keys_set_member.
  apply mem_get. congruence.
Qed.

Lemma same_nodes_indexed (g g' : SparseGraph) :
  get_nodes g' = get_nodes g /\ _node_to_idx g' = _node_to_idx g /\
  _idx_to_node g' = _idx_to_node g ->
  indexed g -> indexed g'.
Proof.
  intros (Hn & Hi & Hj) [H1 H2]. unfold indexed. rewrite Hn, Hi, Hj. auto.
Qed.

(** One call keeps the numbering and the nodes, and only appends nodes. *)
Lemma apply_op_indexed (g g' : SparseGraph) (o : op) :
  apply_op g o = Ok g' ->
  (indexed g -> indexed g') /\
  exists more, get_nodes g' = get_nodes g ++ more.
Proof.
  destruct o as [id | s t w | s t]; cbn [apply_op].
  - intros Heq. injection Heq as <-. split; [apply add_node_indexed |].
    rewrite add_node_nodes. destruct (mem (_adjacency_list g) id).
    + exists []. rewrite app_nil_r. reflexivity.
    + exists [id]. reflexivity.
  - unfold add_edge.
    set (g2 := add_node (add_node g s) t).
    assert (Hg2 : (indexed g -> indexed g2) /\
                  exists more, get_nodes g2 = get_nodes g ++ more).
    { split; [intros Hg; apply add_node_indexed, add_node_indexed; exact Hg |].
      unfold g2. rewrite !add_node_nodes.
      destruct (mem (_adjacency_list (add_node g s)) t),
               (mem (_adjacency_list g) s);
        rewrite <- ?app_assoc; eexists; try reflexivity.
      rewrite app_nil_r. reflexivity. }
    destruct Hg2 as [Hidx2 [more Hmore]].
    destruct (store_edge g2 s t w) as [g3 |] eqn:Hrun3; cbn [bind]; [| discriminate].
    pose proof (store_edge_nodes _ _ _ _ Hrun3) as H3.
    destruct (negb (directed g3) && negb (String.eqb s t)).
    + intros Hrun4. pose proof (store_edge_nodes _ _ _ _ Hrun4) as H4. split.
      * intros Hg. apply (@same_nodes_indexed _ _ H4), (@same_nodes_indexed _ _ H3), Hidx2, Hg.
      * exists more. destruct H4 as [-> _]. destruct H3 as [-> _]. exact Hmore.
    + intros Heq. injection Heq as <-. split.
      * intros Hg. apply (@same_nodes_indexed _ _ H3), Hidx2, Hg.
      * exists more. destruct H3 as [-> _]. exact Hmore.
  - unfold remove_edge.
    destruct (match get (_adjacency_list g) s with
              | Some neighbors => mem neighbors t
              | None => false
              end); cbn [bind].
    2:{ intros Heq. injection Heq as <-. split; [auto |].
        exists []. rewrite app_nil_r. reflexivity. }
    destruct (drop_edge g s t) as [g1 |] eqn:Hrun1; cbn [bind]; [| discriminate].
    pose proof (drop_edge_nodes _ _ _ Hrun1) as H1.
    destruct (negb (directed g1) && negb (String.eqb s t)).
    + destruct (drop_edge g1 t s) as [g2 |] eqn:Hrun2; cbn [bind]; [| discriminate].
      pose proof (drop_edge_nodes _ _ _ Hrun2) as H2.
      intros Heq. injection Heq as <-. split.
      * intros Hg. apply (@same_nodes_indexed _ _ H2), (@same_nodes_indexed _ _ H1), Hg.
      * exists []. rewrite app_nil_r. destruct H2 as [-> _]. destruct H1 as [-> _].
        reflexivity.
    + intros Heq. injection Heq as <-. split.
      * intros Hg. apply (@same_nodes_indexed _ _ H1), Hg.
      * exists []. rewrite app_nil_r. destruct H1 as [-> _]. reflexivity.
Qed.

Lemma run_indexed (ops : list op) :
  forall g g', run g ops = Ok g' ->
               (indexed g -> indexed g') /\
               exists more, get_nodes g' = get_nodes g ++ more.
Proof.
  induction ops as [| o ops IH]; intros g g'; cbn [run].
  - intros Heq. injection Heq as <-. split; [auto |].
    exists []. rewrite app_nil_r. reflexivity.
  - destruct (apply_op g o) as [g1 |] eqn:Hrun1; cbn [bind]; [| discriminate].
    intros Hrun. destruct (apply_op_indexed _ _ Hrun1) as [Hi1 [more1 Hm1]].
    destruct (IH _ _ Hrun) as [Hi [more Hm]]. split; [auto |].
    exists (more1 ++ more). rewrite Hm, Hm1, app_assoc. reflexivity.
Qed.

(** What every graph built by calls satisfies. *)
Lemma reached (d : bool) (ops : list op) (g : SparseGraph) :
  run (__init__ d) ops = Ok g -> wf g /\ indexed g /\ directed g = d.
Proof.
  intros Hrun. destruct (@run_wf ops (__init__ d) (wf_init d)) as (g' & Hrun' & Hwf & Hd).
  assert (g' = g) by congruence. subst g'.
  split; [exact Hwf |]. split; [| exact Hd].
  apply (run_indexed _ _ Hrun). apply indexed_init.
Qed.

Lemma node_to_idx_lookup (g : SparseGraph) (x : string) (i : nat) :
  wf g -> indexed g ->
  (get (_node_to_idx g) x = Some i <-> nth_error (get_nodes g) i = Some x).
Proof.
  intros [(Hnd & _) _] [Hn _]. rewrite Hn.
  rewrite (@get_numbering (get_nodes g) x i Hnd 0), Nat.sub_0_r.
  split; [intros [_ Hnth]; exact Hnth | intros Hnth; split; [lia | exact Hnth]].
Qed.

Lemma idx_to_node_lookup (g : SparseGraph) (x : string) (i : nat) :
  indexed g ->
  (get (_idx_to_node g) i = Some x <-> nth_error (get_nodes g) i = Some x).
Proof.
  intros [_ Hi]. rewrite Hi.
  rewrite (@get_enumeration (get_nodes g) x i 0), Nat.sub_0_r.
  split; [intros [_ Hnth]; exact Hnth | intros Hnth; split; [lia | exact Hnth]].
Qed.

End GraphIndex.

(** X11.  On every graph built from an empty one by [add_node], [add_edge]
    and [remove_edge] calls the node ids are pairwise distinct and the two
    index maps are inverse numberings in insertion order:
    [_node_to_idx[x] = i] exactly when [x] is the [i]-th node of
    [get_nodes()], and [_idx_to_node[i] = x] exactly then. *)
Theorem node_index_is_insertion_order :
  forall (directed : bool) (ops : list Graph.op) (g : Graph.SparseGraph),
    Graph.run (Graph.__init__ directed) ops = Ok g ->
    NoDup (Graph.get_nodes g) /\
    forall (x : string) (i : nat),
      (get (Graph._node_to_idx g) x = Some i
       <-> nth_error (Graph.get_nodes g) i = Some x) /\
      (get (Graph._idx_to_node g) i = Some x
       <-> nth_error (Graph.get_nodes g) i = Some x).
Proof.
  intros d ops g Hrun.
  destruct (GraphIndex.reached _ _ Hrun) as (Hwf & Hidx & _).
  split; [apply Hwf |]. intros x i. split.
  - apply GraphIndex.node_to_idx_lookup; assumption.
  - apply GraphIndex.idx_to_node_lookup; assumption.
Qed.

(** X11 (witness): the example graph, built by its three [add_edge] calls. *)
Lemma node_index_is_insertion_order_example :
  NoDup (Graph.get_nodes example_graph) /\
  forall (x : string) (i : nat),
    (get (Graph._node_to_idx example_graph) x = Some i
     <-> nth_error (Graph.get_nodes example_graph) i = Some x) /\
    (get (Graph._idx_to_node example_graph) i = Some x
     <-> nth_error (Graph.get_nodes example_graph) i = Some x).
Proof.
  apply (@node_index_is_insertion_order false example_ops example_graph).
  vm_compute. reflexivity.
Defined.

(** X12.  Calls never remove or renumber a node: after any further sequence
    of [add_node], [add_edge] and [remove_edge] calls that returns, the node
    list is the old one followed by the nodes added since. *)
Theorem nodes_only_grow :
  forall (g g' : Graph.SparseGraph) (ops : list Graph.op),
    Graph.run g ops = Ok g' ->
    exists more, Graph.get_nodes g' = Graph.get_nodes g ++ more.
Proof.
  intros g g' ops Hrun. apply (GraphIndex.run_indexed _ _ Hrun).
Qed.

(** X12 (witness): removing an edge of the example graph and adding one to
    a new node. *)
Lemma nodes_only_grow_example :
  exists more,
    Graph.get_nodes example_graph_more = Graph.get_nodes example_graph ++ more.
Proof.
  apply (@nodes_only_grow example_graph example_graph_more example_ops_more).
  vm_compute. reflexivity.
Defined.

(* ------------------------------------------------------------------ *)
(** * [remove_edge] in full                                            *)
(* ------------------------------------------------------------------ *)

Module GraphRemove.
Import Py DictFacts Graph GraphFacts GraphOps.

Lemma remove_edge_full (g : SparseGraph) (s t : string) :
  wf g ->
  exists g',
    remove_edge g s t
    = Ok (g', match edge_weight g s t with Some _ => true | None => false end) /\
    wf g' /\
    directed g' = directed g /\
    (forall s' t',
        edge_weight g' s' t'
        = if String.eqb s' s && String.eqb t' t then None
          else if negb (directed g) && (String.eqb s' t && String.eqb t' s)
               then None
               else edge_weight g s' t') /\
    _edge_count g' = (_edge_count g - counter_drop g s t)%Z /\
    get_nodes g' = get_nodes g.
Proof.
  intros [Hbase Hmir]. unfold remove_edge, counter_drop.
  assert (Htest : match get (_adjacency_list g) s with
                  | Some neighbors => mem neighbors t
                  | None => false
                  end
                  = match edge_weight g s t with Some _ => true | None => false end).
  { unfold edge_weight, mem. destruct (get (_adjacency_list g) s) as [nb |];
      reflexivity. }
  rewrite Htest.
  destruct (edge_weight g s t) as [w |] eqn:Hst.
  2:{ exists g. split; [reflexivity |]. split; [split; assumption |].
      split; [reflexivity |]. split; [| split; [lia | reflexivity]].
      intros s' t'.
      destruct (String.eqb s' s && String.eqb t' t) eqn:H1.
      - apply andb_true_iff in H1. destruct H1 as [H1 H2].
        apply String.eqb_eq in H1, H2. subst. exact Hst.
      - destruct (negb (directed g) && (String.eqb s' t && String.eqb t' s)) eqn:H2;
          [| reflexivity].
        apply andb_true_iff in H2. destruct H2 as [Hund H2].
        apply andb_true_iff in H2. destruct H2 as [H2 H3].
        apply String.eqb_eq in H2, H3. subst. apply negb_true_iff in Hund.
        destruct (edge_weight g t s) as [w' |] eqn:Hts; [| reflexivity].
        rewrite (Hmir Hund t s w' Hts) in Hst. discriminate. }
  assert (Hedge : edge_weight g s t <> None) by congruence.
  destruct (@drop_edge_spec g s t Hbase Hedge) as (g1 & Hrun1 & Hb1 & Hd1 & Hc1 & Hw1 & Hm1).
  rewrite Hrun1. cbn [bind]. rewrite Hd1.
  pose proof (GraphIndex.drop_edge_nodes _ _ _ Hrun1) as [Hn1 _].
  destruct (negb (directed g) && negb (String.eqb s t)) eqn:Hmirror.
  - apply andb_true_iff in Hmirror. destruct Hmirror as [Hund Hne].
    apply negb_true_iff in Hund, Hne.
    assert (Hback : edge_weight g1 t s <> None).
    { rewrite Hw1. rewrite (String.eqb_sym t s), Hne. cbn [andb].
      rewrite (Hmir Hund s t w Hst). discriminate. }
    destruct (@drop_edge_spec g1 t s Hb1 Hback) as (g2 & Hrun2 & Hb2 & Hd2 & Hc2 & Hw2 & Hm2).
    rewrite Hrun2. cbn [bind]. exists g2.
    pose proof (GraphIndex.drop_edge_nodes _ _ _ Hrun2) as [Hn2 _].
    assert (Hw : forall s' t',
               edge_weight g2 s' t'
               = if String.eqb s' s && String.eqb t' t then None
                 else if negb (directed g) && (String.eqb s' t && String.eqb t' s)
                      then None
                      else edge_weight g s' t').
    { intros s' t'. rewrite Hw2, Hw1, Hund. cbn [negb andb].
      destruct (String.eqb s' t && String.eqb t' s);
        destruct (String.eqb s' s && String.eqb t' t); reflexivity. }
    split; [reflexivity |]. split; [split; [exact Hb2 |] |].
    + intros _ s' t' w'. rewrite !Hw, Hund. cbn [negb andb].
      specialize (Hmir Hund s' t' w'). apply String.eqb_neq in Hne.
      eqb_cases; solve [congruence | exact Hmir].
    + split; [congruence |]. split; [exact Hw |]. split; [| congruence].
      rewrite Hc2, Hc1, Hund, Hne. cbn [orb]. lia.
  - exists g1. split; [reflexivity |].
    assert (Hw : forall s' t',
               edge_weight g1 s' t'
               = if String.eqb s' s && String.eqb t' t then None
                 else if negb (directed g) && (String.eqb s' t && String.eqb t' s)
                      then None
                      else edge_weight g s' t').
    { intros s' t'. rewrite Hw1.
      apply andb_false_iff in Hmirror. destruct Hmirror as [Hdir | Hloop].
      - rewrite Hdir. reflexivity.
      - apply negb_false_iff, String.eqb_eq in Hloop. subst t.
        destruct (String.eqb s' s && String.eqb t' s); [reflexivity |].
        rewrite andb_false_r. reflexivity. }
    split; [split; [exact Hb1 |] |].
    + intros Hund s' t' w'. rewrite Hd1 in Hund. rewrite !Hw, Hund.
      rewrite Hund in Hmirror. cbn [negb andb] in Hmirror |- *.
      apply negb_false_iff, String.eqb_eq in Hmirror. subst t.
      specialize (Hmir Hund s' t' w'). eqb_cases; solve [congruence | exact Hmir].
    + split; [exact Hd1 |]. split; [exact Hw |]. split; [| exact Hn1].
      rewrite Hc1. apply andb_false_iff in Hmirror.
      destruct Hmirror as [Hdir | Hloop].
      * apply negb_false_iff in Hdir. rewrite Hdir. reflexivity.
      * apply negb_false_iff in Hloop. rewrite Hloop, orb_true_r. reflexivity.
Qed.

End GraphRemove.

(** X13.  On a graph built by calls, [remove_edge source target] never
    raises.  It reports whether the pair was stored; afterwards the pair is
    not stored, nor is the reverse pair when the graph is undirected; every
    other pair keeps its weight, the nodes stay, and the counter goes down
    by 0 when nothing was stored, by 1 for a directed edge or a self-loop
    and by 2 for an undirected edge between two nodes. *)
Theorem remove_edge_contract :
  forall (directed : bool) (ops : list Graph.op) (g : Graph.SparseGraph)
         (source target : string),
    Graph.run (Graph.__init__ directed) ops = Ok g ->
    exists g',
      Graph.remove_edge g source target
      = Ok (g', match Graph.edge_weight g source target with
                | Some _ => true
                | None => false
                end) /\
      (forall s t,
          Graph.edge_weight g' s t
          = if String.eqb s source && String.eqb t target then None
            else if negb directed && (String.eqb s target && String.eqb t source)
                 then None
                 else Graph.edge_weight g s t) /\
      Graph._edge_count g'
      = (Graph._edge_count g
         - match Graph.edge_weight g source target with
           | Some _ => if directed || String.eqb source target then 1 else 2
           | None => 0
           end)%Z /\
      Graph.get_nodes g' = Graph.get_nodes g.
Proof.
  intros d ops g s t Hrun.
  destruct (GraphIndex.reached _ _ Hrun) as (Hwf & _ & Hd).
  destruct (@GraphRemove.remove_edge_full g s t Hwf)
    as (g' & Hrem & _ & _ & Hw & Hc & Hn).
  exists g'. unfold counter_drop in Hc. rewrite Hd in Hw, Hc.
  auto.
Qed.

(** X13 (witness): removing the edge [b - c] of the example graph. *)
Lemma remove_edge_contract_example :
  exists g',
    Graph.remove_edge example_graph "b" "c"
    = Ok (g', match Graph.edge_weight example_graph "b" "c" with
              | Some _ => true
              | None => false
              end) /\
    (forall s t,
        Graph.edge_weight g' s t
        = if String.eqb s "b" && String.eqb t "c" then None
          else if negb false && (String.eqb s "c" && String.eqb t "b")
               then None
               else Graph.edge_weight example_graph s t) /\
    Graph._edge_count g'
    = (Graph._edge_count example_graph
       - match Graph.edge_weight example_graph "b" "c" with
         | Some _ => if false || String.eqb "b" "c" then 1 else 2
         | None => 0
         end)%Z /\
    Graph.get_nodes g' = Graph.get_nodes example_graph.
Proof.
  apply (@remove_edge_contract false example_ops example_graph "b" "c").
  vm_compute. reflexivity.
Defined.

(** X14.  Removing an edge that was just added undoes the addition: when the
    pair was not stored before, [add_edge] followed by [remove_edge] on the
    same pair leaves every pair with its old weight (none for the pair and
    its reverse) and the counter at its old value; the nodes that the
    addition created stay. *)
Theorem add_then_remove_edge :
  forall (directed : bool) (ops : list Graph.op) (g : Graph.SparseGraph)
         (source target : string) (weight : Q),
    Graph.run (Graph.__init__ directed) ops = Ok g ->
    Graph.edge_weight g source target = None ->
    exists g1 g2,
      Graph.add_edge g source target weight = Ok g1 /\
      Graph.remove_edge g1 source target = Ok (g2, true) /\
      (forall s t, Graph.edge_weight g2 s t = Graph.edge_weight g s t) /\
      Graph._edge_count g2 = Graph._edge_count g /\
      Graph.get_nodes g2 = Graph.get_nodes g1.
Proof.
  intros d ops g s t w Hrun Hnone.
  destruct (GraphIndex.reached _ _ Hrun) as (Hwf & _ & Hd).
  destruct (@GraphOps.add_edge_spec g s t w Hwf)
    as (g1 & Hadd & Hwf1 & Hd1 & Hc1 & Hw1 & _).
  destruct (@GraphRemove.remove_edge_full g1 s t Hwf1)
    as (g2 & Hrem & _ & _ & Hw2 & Hc2 & Hn2).
  assert (Hst1 : Graph.edge_weight g1 s t = Some w).
  { rewrite Hw1, !String.eqb_refl. reflexivity. }
  rewrite Hst1 in Hrem.
  exists g1, g2. split; [exact Hadd |]. split; [exact Hrem |].
  destruct Hwf as [_ Hmir].
  assert (Hback : Graph.directed g = false -> Graph.edge_weight g t s = None).
  { intros Hund. destruct (Graph.edge_weight g t s) as [w' |] eqn:Hts; [| reflexivity].
    rewrite (Hmir Hund t s w' Hts) in Hnone. discriminate. }
  split; [| split; [| exact Hn2]].
  - intros s' t'. rewrite Hw2, Hw1, Hd1.
    destruct (String.eqb s' s && String.eqb t' t) eqn:H1.
    + apply andb_true_iff in H1. destruct H1 as [H1 H2].
      apply String.eqb_eq in H1, H2. subst. symmetry. exact Hnone.
    + destruct (negb (Graph.directed g) && (String.eqb s' t && String.eqb t' s)) eqn:H2;
        [| reflexivity].
      apply andb_true_iff in H2. destruct H2 as [Hund H2].
      apply andb_true_iff in H2. destruct H2 as [H2 H3].
      apply String.eqb_eq in H2, H3. subst. apply negb_true_iff in Hund.
      symmetry. apply Hback. exact Hund.
  - rewrite Hc2, Hc1. unfold counter_drop, counter_step.
    rewrite Hst1, Hnone, Hd1. destruct (Graph.directed g || String.eqb s t); lia.
Qed.

(** X14 (witness): a new edge [a - c] on the example graph. *)
Lemma add_then_remove_edge_example :
  exists g1 g2,
    Graph.add_edge example_graph "a" "c" 7 = Ok g1 /\
    Graph.remove_edge g1 "a" "c" = Ok (g2, true) /\
    (forall s t, Graph.edge_weight g2 s t = Graph.edge_weight example_graph s t) /\
    Graph._edge_count g2 = Graph._edge_count example_graph /\
    Graph.get_nodes g2 = Graph.get_nodes g1.
Proof.
  apply (@add_then_remove_edge false example_ops example_graph "a" "c" 7).
  - vm_compute. reflexivity.
  - reflexivity.
Defined.

(* ------------------------------------------------------------------ *)
(** * The matrix views of a graph                                      *)
(* ------------------------------------------------------------------ *)

Module GraphMatrix.
Import Py Np NpFacts DictFacts Graph GraphViews GraphFacts GraphOps GraphIndex.

(** A loop whose body may raise: an invariant of the processed prefix that
    every step keeps holds of the whole list, and nothing is raised. *)
Lemma fold_invariant {A B : Type} (f : A -> B -> result A)
    (P : list B -> A -> Prop) (l : list B) (a : A) :
  P [] a ->
  (forall pre b post a,
      l = pre ++ b :: post -> P pre a ->
      exists a', f a b = Ok a' /\ P (pre ++ [b]) a') ->
  exists a', fold_left (fun acc b => a <- acc ;; f a b) l (Ok a) = Ok a' /\ P l a'.
Proof.
  intros Hstart Hstep.
  assert (Hgen : forall rest pre a,
             l = pre ++ rest -> P pre a ->
             exists a', fold_left (fun acc b => a <- acc ;; f a b) rest (Ok a) = Ok a'
                        /\ P l a').
  { induction rest as [| b rest IH]; intros pre a0 Hl Hpre; cbn [fold_left].
    - exists a0. rewrite app_nil_r in Hl. subst pre. auto.
    - cbn [bind]. destruct (Hstep pre b rest a0 Hl Hpre) as (a1 & Hf & Hpre1).
      rewrite Hf. apply (IH (pre ++ [b])); [| exact Hpre1].
      rewrite <- app_assoc. exact Hl. }
  apply (Hgen l [] a); [reflexivity | exact Hstart].
Qed.

(** The [k]-th item of [enumerate xs] is [(k, xs[k])]. *)
Lemma combine_seq_split {A : Type} (post : list (nat * A)) (i : nat) (x : A) :
  forall (xs : list A) (s : nat) (pre : list (nat * A)),
    combine (seq s (length xs)) xs = pre ++ (i, x) :: post ->
    i = (s + length pre)%nat /\ nth_error xs (length pre) = Some x.
Proof.
  induction xs as [| y xs IH]; intros s pre Hsplit; cbn in Hsplit.
  - destruct pre; discriminate.
  - destruct pre as [| p pre]; cbn in Hsplit |- *.
    + injection Hsplit as <- <- _. split; [lia | reflexivity].
    + injection Hsplit as _ Hsplit. destruct (IH _ _ Hsplit) as [-> Hnth].
      split; [lia | exact Hnth].
Qed.

Lemma enumerate_split {A : Type} (xs : list A) (pre post : list (nat * A))
    (i : nat) (x : A) :
  enumerate xs = pre ++ (i, x) :: post ->
  i = length pre /\ nth_error xs i = Some x.
Proof.
  unfold enumerate. intros Hsplit.
  destruct (@combine_seq_split A post i x xs 0 pre Hsplit) as [Hi Hnth].
  cbn in Hi. subst i. auto.
Qed.

Lemma get_snoc {K V : Type} `{EqKey K} (d : dict K V) (k x : K) (v : V) :
  get (d ++ [(k, v)]) x
  = match get d x with
    | Some v' => Some v'
    | None => if key_dec x k then Some v else None
    end.
Proof.
  induction d as [| [k' v'] d IH]; cbn [app get]; [reflexivity |].
  destruct (key_dec x k'); [reflexivity | exact IH].
Qed.

Lemma keys_app {K V : Type} (d d' : dict K V) : keys (d ++ d') = keys d ++ keys d'.
Proof. unfold keys. apply map_app. Qed.

Section Writes.

Variable g : SparseGraph.
Hypothesis Hwf : wf g.
Hypothesis Hidx : indexed g.

Local Abbreviation nodes := (get_nodes g).
Local Abbreviation n := (length (get_nodes g)).
Local Abbreviation node i := (nth i (get_nodes g) EmptyString).

(** *** What the loops find in the store *)

Lemma node_key (i : nat) :
  (i < n)%nat -> exists nb, get (_adjacency_list g) (node i) = Some nb.
Proof.
  intros Hi. assert (Hin : In (node i) nodes) by (apply nth_In; exact Hi).
  apply (mem_true_iff (_adjacency_list g)) in Hin. apply mem_get in Hin.
  destruct (get (_adjacency_list g) (node i)) as [nb |]; [| congruence].
  exists nb. reflexivity.
Qed.

Lemma node_inj (i j : nat) :
  (i < n)%nat -> (j < n)%nat -> node i = node j -> i = j.
Proof.
  intros Hi Hj Heq. destruct Hwf as [(Hnd & _) _].
  apply (proj1 (NoDup_nth nodes EmptyString) Hnd i j Hi Hj Heq).
Qed.

Lemma target_index (s t : string) (nb : dict string Q) (w : Q) :
  get (_adjacency_list g) s = Some nb -> In (t, w) nb ->
  get nb t = Some w /\
  exists j, get (_node_to_idx g) t = Some j /\ (j < n)%nat /\ node j = t.
Proof.
  intros Hs Hin. destruct Hwf as [(Hnd & Hnb & _ & Htarget) _].
  assert (Hget : get nb t = Some w) by (apply (@get_In _ _ _ nb t w (Hnb s nb Hs)); exact Hin).
  split; [exact Hget |].
  assert (Hmem : mem (_adjacency_list g) t = true).
  { apply (Htarget s t). unfold edge_weight. rewrite Hs, Hget. discriminate. }
  apply mem_true_iff in Hmem. change (In t nodes) in Hmem.
  destruct (In_nth_error _ _ Hmem) as [j Hj].
  exists j. split; [apply (@node_to_idx_lookup g t j Hwf Hidx); exact Hj |].
  split; [apply nth_error_Some; congruence |].
  apply nth_error_nth. exact Hj.
Qed.

Lemma weight_at_row (i j : nat) (nb : dict string Q) :
  get (_adjacency_list g) (node i) = Some nb ->
  weight_at g i j = match get nb (node j) with Some w => w | None => 0%Q end.
Proof. intros Hrow. unfold weight_at, edge_weight. rewrite Hrow. reflexivity. Qed.

(** *** The loops, for any way of writing an entry *)

Variable A : Type.
Variable write : A -> nat -> nat -> Q -> result A.
Variable entry : A -> nat -> nat -> Q.
Variable good : A -> Prop.

(** Writing where nothing was written yet sets that entry and no other. *)
Hypothesis write_spec :
  forall a i j w,
    good a -> (i < n)%nat -> (j < n)%nat -> (entry a i j == 0)%Q ->
    exists a',
      write a i j w = Ok a' /\ good a' /\ (entry a' i j == w)%Q /\
      forall i' j', (i' < n)%nat -> (j' < n)%nat -> i' <> i \/ j' <> j ->
                    (entry a' i' j' == entry a i' j')%Q.

Lemma inner_loop (i : nat) (nb : dict string Q) (a : A) :
  (i < n)%nat -> get (_adjacency_list g) (node i) = Some nb ->
  good a ->
  (forall i' j', (i' < n)%nat -> (j' < n)%nat ->
                 (entry a i' j' == if Nat.ltb i' i then weight_at g i' j' else 0)%Q) ->
  exists a',
    fold_left
      (fun acc tw =>
         a <- acc ;;
         j <- getitem (_node_to_idx g) (fst tw) ;;
         write a i j (snd tw))
      nb (Ok a) = Ok a' /\
    good a' /\
    forall i' j', (i' < n)%nat -> (j' < n)%nat ->
                  (entry a' i' j' == if Nat.ltb i' (S i) then weight_at g i' j' else 0)%Q.
Proof.
  intros Hi Hrow Hgood Hstart.
  set (P := fun (pre : dict string Q) (a : A) =>
              good a /\
              forall i' j', (i' < n)%nat -> (j' < n)%nat ->
                (entry a i' j'
                 == if Nat.ltb i' i then weight_at g i' j'
                    else if Nat.eqb i' i
                         then match get pre (node j') with
                              | Some w => w
                              | None => 0
                              end
                         else 0)%Q).
  destruct (@fold_invariant A (string * Q)
              (fun a tw => j <- getitem (_node_to_idx g) (fst tw) ;;
                           write a i j (snd tw))
              P nb a) as (a' & Hrun & Hgood' & Hentries).
  - split; [exact Hgood |]. intros i' j' Hi' Hj'. rewrite (Hstart i' j' Hi' Hj').
    destruct (Nat.ltb i' i); [reflexivity |]. cbn [get].
    destruct (Nat.eqb i' i); reflexivity.
  - intros pre [t w] post a0 Hsplit [Hgood0 Hent0]. cbn [fst snd].
    assert (Hin : In (t, w) nb).
    { rewrite Hsplit. apply in_or_app. right. left. reflexivity. }
    destruct (@target_index (node i) t nb w Hrow Hin) as (Hget & j & Hj & Hjn & Hnode).
    unfold getitem. rewrite Hj. cbn [bind].
    assert (Hnodup : NoDup (keys nb)).
    { destruct Hwf as [(_ & Hnb & _) _]. apply (Hnb _ _ Hrow). }
    assert (Hfresh : get pre t = None).
    { destruct (get pre t) as [w' |] eqn:Hpre; [| reflexivity]. exfalso.
      assert (Hkey : In t (keys pre)).
      { apply mem_true_iff. apply mem_get. congruence. }
      rewrite Hsplit, keys_app in Hnodup. cbn in Hnodup.
      apply NoDup_remove_2 in Hnodup. apply Hnodup.
      apply in_or_app. left. exact Hkey. }
    assert (Hzero : (entry a0 i j == 0)%Q).
    { rewrite (Hent0 i j Hi Hjn), Nat.ltb_irrefl, Nat.eqb_refl, Hnode, Hfresh.
      reflexivity. }
    destruct (@write_spec a0 i j w Hgood0 Hi Hjn Hzero) as (a1 & Hw & Hgood1 & Hset & Hkeep).
    exists a1. split; [exact Hw |]. split; [exact Hgood1 |].
    intros i' j' Hi' Hj'.
    destruct (Nat.eq_dec i' i) as [-> | Hne_i].
    + rewrite Nat.ltb_irrefl, Nat.eqb_refl, get_snoc.
      destruct (Nat.eq_dec j' j) as [-> | Hne_j].
      * rewrite Hnode, Hfresh. destruct (key_dec t t); [exact Hset | congruence].
      * rewrite (Hkeep i j' Hi Hj' (or_intror Hne_j)), (Hent0 i j' Hi Hj').
        rewrite Nat.ltb_irrefl, Nat.eqb_refl.
        destruct (get pre (node j')); [reflexivity |].
        destruct (key_dec (node j') t) as [Heq | _]; [| reflexivity].
        exfalso. apply Hne_j. apply node_inj; [exact Hj' | exact Hjn |].
        rewrite Hnode. exact Heq.
    + rewrite (Hkeep i' j' Hi' Hj' (or_introl Hne_i)), (Hent0 i' j' Hi' Hj').
      destruct (Nat.ltb i' i); [reflexivity |].
      destruct (Nat.eqb_spec i' i); [contradiction | reflexivity].
  - exists a'. split; [exact Hrun |]. split; [exact Hgood' |].
    intros i' j' Hi' Hj'. rewrite (Hentries i' j' Hi' Hj').
    destruct (Nat.ltb_spec i' i) as [Hlt | Hge].
    + destruct (Nat.ltb_spec i' (S i)); [reflexivity | lia].
    + destruct (Nat.eqb_spec i' i) as [-> | Hne].
      * destruct (Nat.ltb_spec i (S i)); [| lia].
        rewrite (@weight_at_row i j' nb Hrow). reflexivity.
      * destruct (Nat.ltb_spec i' (S i)); [lia | reflexivity].
Qed.

(** Both loops together write the weight of every stored pair, and only
    that. *)
Lemma for_each_edge_spec (a : A) :
  good a ->
  (forall i j, (i < n)%nat -> (j < n)%nat -> (entry a i j == 0)%Q) ->
  exists a',
    for_each_edge g write nodes a = Ok a' /\ good a' /\
    forall i j, (i < n)%nat -> (j < n)%nat -> (entry a' i j == weight_at g i j)%Q.
Proof.
  intros Hgood Hzero. unfold for_each_edge.
  set (P := fun (pre : list (nat * string)) (a : A) =>
              good a /\
              forall i' j', (i' < n)%nat -> (j' < n)%nat ->
                (entry a i' j'
                 == if Nat.ltb i' (length pre) then weight_at g i' j' else 0)%Q).
  destruct (@fold_invariant A (nat * string)
              (fun a isource =>
                 neighbors <- getitem (_adjacency_list g) (snd isource) ;;
                 fold_left
                   (fun acc tw =>
                      a <- acc ;;
                      j <- getitem (_node_to_idx g) (fst tw) ;;
                      write a (fst isource) j (snd tw))
                   neighbors (Ok a))
              P (enumerate nodes) a) as (a' & Hrun & Hgood' & Hentries).
  - split; [exact Hgood |]. intros i' j' Hi' Hj'. cbn [length].
    rewrite (Hzero i' j' Hi' Hj'). reflexivity.
  - intros pre [i x] post a0 Hsplit [Hgood0 Hent0]. cbn [fst snd].
    destruct (@enumerate_split _ nodes pre post i x Hsplit) as [Hlen Hnth].
    assert (Hi : (i < n)%nat) by (apply nth_error_Some; congruence).
    assert (Hx : node i = x) by (apply nth_error_nth; exact Hnth).
    destruct (@node_key i Hi) as (nb & Hrow).
    unfold getitem. rewrite <- Hx, Hrow. cbn [bind].
    subst i.
    destruct (@inner_loop (length pre) nb a0 Hi Hrow Hgood0 Hent0)
      as (a1 & Hrun1 & Hgood1 & Hent1).
    exists a1. split; [exact Hrun1 |]. split; [exact Hgood1 |].
    rewrite length_app, Nat.add_1_r. exact Hent1.
  - exists a'. split; [exact Hrun |]. split; [exact Hgood' |].
    intros i j Hi Hj. rewrite (Hentries i j Hi Hj).
    unfold enumerate. rewrite length_combine, length_seq, Nat.min_id.
    destruct (Nat.ltb_spec i n); [reflexivity | lia].
Qed.

End Writes.

(** *** The dense view *)

Lemma set_entry_spec (n : nat) (M : matrix) (i j : nat) (w : Q) :
  square n M -> (i < n)%nat -> (j < n)%nat ->
  exists M',
    set_entry M i j w = Ok M' /\ square n M' /\
    forall i' j', (i' < n)%nat -> (j' < n)%nat ->
      nth j' (nth i' M' []) 0%Q
      = if Nat.eqb i i' && Nat.eqb j j' then w else nth j' (nth i' M []) 0%Q.
Proof.
  intros Hsq Hi Hj. pose proof (StepFacts.square_row Hsq Hi) as Hrow.
  destruct Hsq as [Hlen Hrows]. unfold set_entry, nrows.
  rewrite Hlen, Hrow.
  destruct (Nat.ltb_spec i n) as [_ | Hge]; [| lia].
  destruct (Nat.ltb_spec j n) as [_ | Hge]; [| lia]. cbn [andb].
  eexists. split; [reflexivity |]. split; [split |].
  - rewrite StepFacts.length_list_set. exact Hlen.
  - rewrite Forall_forall in Hrows |- *. intros row Hin.
    destruct (In_nth _ _ [] Hin) as (k & Hk & <-).
    rewrite StepFacts.length_list_set in Hk.
    rewrite StepFacts.nth_list_set by exact Hk.
    destruct (Nat.eqb i k).
    + rewrite StepFacts.length_list_set. exact Hrow.
    + apply Hrows. apply nth_In. exact Hk.
  - intros i' j' Hi' Hj'.
    rewrite StepFacts.nth_list_set by (unfold matrix, vec in *; lia).
    destruct (Nat.eqb_spec i i') as [<- | Hne]; cbn [andb]; [| reflexivity].
    rewrite StepFacts.nth_list_set by (unfold matrix, vec in *; lia).
    reflexivity.
Qed.

(** *** The sparse view *)

Lemma coo_entry_snoc (entries : list (nat * nat * Q)) (i j i' j' : nat) (w : Q) :
  (coo_entry (entries ++ [(i, j, w)]) i' j'
   == coo_entry entries i' j' + if Nat.eqb i i' && Nat.eqb j j' then w else 0)%Q.
Proof.
  unfold coo_entry. rewrite filter_app, map_app, vsum_app. cbn [filter fst snd].
  destruct (Nat.eqb i i' && Nat.eqb j j'); cbn; ring.
Qed.

Lemma coo_matrix_spec (n : nat) (entries : list (nat * nat * Q)) :
  in_shape n entries ->
  exists S,
    coo_matrix n entries = Ok S /\ square n S /\
    forall i j, (i < n)%nat -> (j < n)%nat ->
                nth j (nth i S []) 0%Q = coo_entry entries i j.
Proof.
  intros Hshape. unfold coo_matrix. rewrite Hshape.
  eexists. split; [reflexivity |]. split; [split |].
  - rewrite length_map, length_seq. reflexivity.
  - apply Forall_forall. intros row Hrow. apply in_map_iff in Hrow.
    destruct Hrow as (i & <- & _). rewrite length_map, length_seq. reflexivity.
  - intros i j Hi Hj. unfold vec.
    rewrite (@StepFacts.nth_map_in _ _
               (fun i => map (fun j => coo_entry entries i j) (seq 0 n))
               (seq 0 n) i 0%nat [])
      by (rewrite length_seq; exact Hi).
    rewrite (@StepFacts.nth_map_in _ _ (fun j => coo_entry entries (nth i (seq 0 n) 0%nat) j)
               (seq 0 n) j 0%nat 0%Q)
      by (rewrite length_seq; exact Hj).
    rewrite !seq_nth by assumption. reflexivity.
Qed.

(** *** Both views of a graph *)

Lemma adjacency_views (g : SparseGraph) :
  wf g -> indexed g ->
  exists M S,
    get_adjacency_matrix g = Ok (M, get_nodes g) /\
    get_sparse_adjacency_matrix g = Ok (S, get_nodes g) /\
    square (length (get_nodes g)) M /\ square (length (get_nodes g)) S /\
    forall i j, (i < length (get_nodes g))%nat -> (j < length (get_nodes g))%nat ->
      (nth j (nth i M []) 0 == weight_at g i j)%Q /\
      (nth j (nth i S []) 0 == weight_at g i j)%Q.
Proof.
  intros Hwf Hidx. set (n := length (get_nodes g)).
  destruct (@for_each_edge_spec g Hwf Hidx matrix set_entry
              (fun M i j => nth j (nth i M []) 0%Q) (square n))
    with (a := repeat (zeros n) n) as (M & HM & HsqM & HentM).
  { intros M i j w Hsq Hi Hj _.
    destruct (@set_entry_spec n M i j w Hsq Hi Hj) as (M' & Hset & Hsq' & Hent).
    exists M'. split; [exact Hset |]. split; [exact Hsq' |]. split.
    - rewrite (Hent i j Hi Hj), !Nat.eqb_refl. reflexivity.
    - intros i' j' Hi' Hj' Hne. rewrite (Hent i' j' Hi' Hj').
      destruct (Nat.eqb_spec i i') as [<- | _]; cbn [andb]; [| reflexivity].
      destruct (Nat.eqb_spec j j') as [<- | _]; [| reflexivity].
      destruct Hne; congruence. }
  { apply StepFacts.square_zeros. }
  { intros i j Hi Hj.
    rewrite (nth_indep _ [] (zeros n)) by (rewrite repeat_length; exact Hi).
    rewrite nth_repeat. rewrite StepFacts.nth_zeros. reflexivity. }
  destruct (@for_each_edge_spec g Hwf Hidx (list (nat * nat * Q))
              (fun entries i j weight => Ok (entries ++ [(i, j, weight)]))
              coo_entry (in_shape n))
    with (a := @nil (nat * nat * Q)) as (E & HE & HshapeE & HentE).
  { intros entries i j w Hshape Hi Hj Hzero.
    eexists. split; [reflexivity |]. split; [| split].
    - unfold in_shape in *. rewrite forallb_app, Hshape. cbn [forallb fst snd].
      destruct (Nat.ltb_spec i n); [| unfold n in *; lia].
      destruct (Nat.ltb_spec j n); [| unfold n in *; lia].
      reflexivity.
    - rewrite coo_entry_snoc, Hzero, !Nat.eqb_refl. cbn. ring.
    - intros i' j' Hi' Hj' Hne. rewrite coo_entry_snoc.
      destruct (Nat.eqb_spec i i') as [<- | _]; cbn [andb]; [| ring].
      destruct (Nat.eqb_spec j j') as [<- | _]; [| ring].
      destruct Hne; congruence. }
  { reflexivity. }
  { intros i j _ _. reflexivity. }
  destruct (@coo_matrix_spec n E HshapeE) as (S & HS & HsqS & HentS).
  exists M, S. unfold get_adjacency_matrix, get_sparse_adjacency_matrix.
  fold n. rewrite HM, HE. cbn [bind]. rewrite HS. cbn [bind].
  split; [reflexivity |]. split; [reflexivity |].
  split; [exact HsqM |]. split; [exact HsqS |].
  intros i j Hi Hj. split; [apply HentM; assumption |].
  rewrite (HentS i j Hi Hj). apply HentE; assumption.
Qed.

End GraphMatrix.

(* ------------------------------------------------------------------ *)
(** * Degrees, and the matrix views on graphs built by calls           *)
(* ------------------------------------------------------------------ *)

Module GraphDegrees.
Import Py Np NpFacts DictFacts Graph GraphViews GraphFacts GraphOps GraphIndex.
Import GraphMatrix.

Lemma fold_plus (xs : list Q) : forall a, (fold_left Qplus xs a == a + vsum xs)%Q.
Proof.
  induction xs as [| x xs IH]; intros a; cbn [fold_left vsum fold_right]; [ring |].
  rewrite IH. unfold vsum. ring.
Qed.

Lemma py_sum_vsum (xs : list Q) : (py_sum xs == vsum xs)%Q.
Proof. unfold py_sum. rewrite fold_plus. ring. Qed.

Lemma fold_in_degree (x : string) (adj : dict string (dict string Q)) :
  forall total,
    (fold_left
       (fun total sn =>
          match get (snd sn) x with
          | Some w => (total + w)%Q
          | None => total
          end) adj total
     == total + vsum (map (fun sn => match get (snd sn) x with
                                     | Some w => w
                                     | None => 0
                                     end) adj))%Q.
Proof.
  induction adj as [| sn adj IH]; intros total; cbn [fold_left map vsum fold_right];
    [ring |].
  rewrite IH. unfold vsum. destruct (get (snd sn) x); ring.
Qed.

(** Over pairwise distinct keys, one key is met once. *)
Lemma vsum_indicator (ks : list string) (t : string) (w : Q) :
  NoDup ks ->
  (vsum (map (fun x => if key_dec x t then w else 0) ks)
   == if in_dec string_dec t ks then w else 0)%Q.
Proof.
  induction 1 as [| k ks Hk Hks IH]; cbn [map vsum fold_right]; [reflexivity |].
  fold (vsum (map (fun x => if key_dec x t then w else 0%Q) ks)). rewrite IH.
  destruct (key_dec k t) as [-> | Hne].
  - destruct (in_dec string_dec t ks) as [Hin | _]; [contradiction |].
    destruct (in_dec string_dec t (t :: ks)) as [_ | Hnot]; [ring |].
    exfalso. apply Hnot. left. reflexivity.
  - destruct (in_dec string_dec t ks) as [Hin | Hnot];
      destruct (in_dec string_dec t (k :: ks)) as [Hin' | Hnot']; try ring.
    + exfalso. apply Hnot'. right. exact Hin.
    + exfalso. destruct Hin' as [Heq | Hin']; [congruence | contradiction].
Qed.

(** Summing the values of a dictionary key by key, over a list that holds
    its keys. *)
Lemma sum_over_keys (ks : list string) (d : dict string Q) :
  NoDup ks -> NoDup (keys d) -> (forall k, In k (keys d) -> In k ks) ->
  (vsum (map (fun x => match get d x with Some w => w | None => 0 end) ks)
   == vsum (map snd d))%Q.
Proof.
  intros Hks. induction d as [| [t w] d IH]; intros Hd Hsub.
  - cbn [get map vsum fold_right]. apply Mass.vsum_zero.
  - cbn [keys map fst] in Hd. inversion Hd as [| ? ? Ht Hd']; subst.
    cbn [map snd vsum fold_right]. fold (vsum (map snd d)).
    rewrite <- IH; [| exact Hd' | intros k Hk; apply Hsub; right; exact Hk].
    transitivity
      (vsum (map (fun x => (if key_dec x t then w else 0)
                           + match get d x with Some w' => w' | None => 0 end) ks))%Q.
    + apply vsum_map_ext. intros x _. cbn [get].
      destruct (key_dec x t) as [-> | _]; [| ring].
      assert (Hnone : get d t = None).
      { destruct (get d t) eqn:Hget; [| reflexivity]. exfalso. apply Ht.
        apply mem_true_iff. apply mem_get. congruence. }
      rewrite Hnone. ring.
    + rewrite vsum_map_plus, (vsum_indicator t w Hks).
      destruct (in_dec string_dec t ks) as [_ | Hnot]; [reflexivity |].
      exfalso. apply Hnot. apply Hsub. left. reflexivity.
Qed.

Section Degrees.

Variable g : SparseGraph.
Hypothesis Hwf : wf g.
Hypothesis Hidx : indexed g.

Local Abbreviation nodes := (get_nodes g).
Local Abbreviation n := (length (get_nodes g)).
Local Abbreviation node i := (nth i (get_nodes g) EmptyString).

Lemma nth_adjacency (i : nat) :
  (i < n)%nat ->
  get (_adjacency_list g) (node i)
  = Some (snd (nth i (_adjacency_list g) (EmptyString, []))).
Proof.
  intros Hi. destruct Hwf as [(Hnd & _) _].
  assert (Hlen : length (_adjacency_list g) = n)
    by (unfold get_nodes, keys; rewrite length_map; reflexivity).
  apply (@get_In _ _ _ (_adjacency_list g) (node i) _ Hnd).
  unfold get_nodes, keys.
  change EmptyString with (fst (EmptyString, @nil (string * Q))) at 1.
  rewrite map_nth. rewrite <- surjective_pairing. apply nth_In. lia.
Qed.

(** The out-degree is the sum of the weights of a row. *)
Lemma out_degree_row (i : nat) :
  (i < n)%nat ->
  (get_out_degree g (node i) == vsum (map (fun j => weight_at g i j) (seq 0 n)))%Q.
Proof.
  intros Hi. destruct (@node_key g i Hi) as (nb & Hrow).
  unfold get_out_degree. rewrite Hrow, py_sum_vsum.
  transitivity
    (vsum (map (fun x => match get nb x with Some w => w | None => 0%Q end) nodes)).
  - symmetry. destruct Hwf as [(Hnd & Hnb & _ & Htarget) _].
    apply sum_over_keys; [exact Hnd | apply (Hnb _ _ Hrow) |].
    intros k Hk. apply mem_true_iff. apply (Htarget (node i) k).
    unfold edge_weight. rewrite Hrow. apply mem_get. apply mem_true_iff. exact Hk.
  - rewrite (list_as_table nodes EmptyString) at 1. rewrite map_map.
    apply vsum_map_ext. intros j _. rewrite (@weight_at_row g i j nb Hrow).
    reflexivity.
Qed.

(** The in-degree of a directed graph is the sum of the weights of a
    column. *)
Lemma in_degree_column (j : nat) :
  directed g = true ->
  (get_in_degree g (node j) == vsum (map (fun i => weight_at g i j) (seq 0 n)))%Q.
Proof.
  intros Hd. unfold get_in_degree. rewrite Hd. cbn [negb].
  rewrite fold_in_degree, Qplus_0_l.
  assert (Hlen : length (_adjacency_list g) = n)
    by (unfold get_nodes, keys; rewrite length_map; reflexivity).
  rewrite (list_as_table (_adjacency_list g) (EmptyString, [])) at 1.
  rewrite map_map, Hlen. apply vsum_map_ext. intros i Hi. apply in_seq in Hi.
  rewrite (@weight_at_row g i j _ (nth_adjacency (proj2 Hi))). reflexivity.
Qed.

Lemma weight_at_sym (i j : nat) :
  directed g = false -> weight_at g i j = weight_at g j i.
Proof.
  intros Hund. destruct Hwf as [_ Hmir]. unfold weight_at.
  destruct (edge_weight g (node i) (node j)) as [w |] eqn:Hij.
  - rewrite (Hmir Hund _ _ _ Hij). reflexivity.
  - destruct (edge_weight g (node j) (node i)) as [w |] eqn:Hji; [| reflexivity].
    rewrite (Hmir Hund _ _ _ Hji) in Hij. discriminate.
Qed.

Lemma in_degree_any (j : nat) :
  (j < n)%nat ->
  (get_in_degree g (node j) == vsum (map (fun i => weight_at g i j) (seq 0 n)))%Q.
Proof.
  intros Hj. destruct (directed g) eqn:Hd; [apply in_degree_column; exact Hd |].
  unfold get_in_degree. rewrite Hd. cbn [negb]. rewrite (out_degree_row Hj).
  apply vsum_map_ext. intros i _. rewrite (weight_at_sym j i Hd). reflexivity.
Qed.

End Degrees.

End GraphDegrees.

(** X15.  On a graph built by calls, [get_adjacency_matrix] never raises:
    it returns the node list in insertion order and a square array whose
    entry in row [i] and column [j] is the weight stored for the pair
    (i-th node, j-th node), and 0 where no such pair is stored. *)
Theorem get_adjacency_matrix_entries :
  forall (directed : bool) (ops : list Graph.op) (g : Graph.SparseGraph),
    Graph.run (Graph.__init__ directed) ops = Ok g ->
    exists M,
      GraphViews.get_adjacency_matrix g = Ok (M, Graph.get_nodes g) /\
      square (length (Graph.get_nodes g)) M /\
      forall i j,
        (i < length (Graph.get_nodes g))%nat ->
        (j < length (Graph.get_nodes g))%nat ->
        (nth j (nth i M []) 0 == weight_at g i j)%Q.
Proof.
  intros d ops g Hrun.
  destruct (GraphIndex.reached _ _ Hrun) as (Hwf & Hidx & _).
  destruct (GraphMatrix.adjacency_views Hwf Hidx) as (M & S & HM & _ & Hsq & _ & Hent).
  exists M. split; [exact HM |]. split; [exact Hsq |].
  intros i j Hi Hj. apply Hent; assumption.
Qed.

(** X15 (witness): the example graph. *)
Lemma get_adjacency_matrix_entries_example :
  exists M,
    GraphViews.get_adjacency_matrix example_graph
    = Ok (M, Graph.get_nodes example_graph) /\
    square (length (Graph.get_nodes example_graph)) M /\
    forall i j,
      (i < length (Graph.get_nodes example_graph))%nat ->
      (j < length (Graph.get_nodes example_graph))%nat ->
      (nth j (nth i M []) 0 == weight_at example_graph i j)%Q.
Proof.
  apply (@get_adjacency_matrix_entries false example_ops example_graph).
  vm_compute. reflexivity.
Defined.

(** X16.  On a graph built by calls, the sparse view denotes the same array
    as the dense one: [get_sparse_adjacency_matrix] returns without an
    exception, with the same node list, and every entry of its matrix equals
    the entry of [get_adjacency_matrix]. *)
Theorem sparse_view_matches_dense :
  forall (directed : bool) (ops : list Graph.op) (g : Graph.SparseGraph),
    Graph.run (Graph.__init__ directed) ops = Ok g ->
    exists M S,
      GraphViews.get_adjacency_matrix g = Ok (M, Graph.get_nodes g) /\
      GraphViews.get_sparse_adjacency_matrix g = Ok (S, Graph.get_nodes g) /\
      square (length (Graph.get_nodes g)) S /\
      forall i j,
        (i < length (Graph.get_nodes g))%nat ->
        (j < length (Graph.get_nodes g))%nat ->
        (nth j (nth i S []) 0 == nth j (nth i M []) 0)%Q.
Proof.
  intros d ops g Hrun.
  destruct (GraphIndex.reached _ _ Hrun) as (Hwf & Hidx & _).
  destruct (GraphMatrix.adjacency_views Hwf Hidx) as (M & S & HM & HS & _ & Hsq & Hent).
  exists M, S. split; [exact HM |]. split; [exact HS |]. split; [exact Hsq |].
  intros i j Hi Hj. destruct (Hent i j Hi Hj) as [H1 H2]. rewrite H1, H2.
  reflexivity.
Qed.

(** X16 (witness): the example graph. *)
Lemma sparse_view_matches_dense_example :
  exists M S,
    GraphViews.get_adjacency_matrix example_graph
    = Ok (M, Graph.get_nodes example_graph) /\
    GraphViews.get_sparse_adjacency_matrix example_graph
    = Ok (S, Graph.get_nodes example_graph) /\
    square (length (Graph.get_nodes example_graph)) S /\
    forall i j,
      (i < length (Graph.get_nodes example_graph))%nat ->
      (j < length (Graph.get_nodes example_graph))%nat ->
      (nth j (nth i S []) 0 == nth j (nth i M []) 0)%Q.
Proof.
  apply (@sparse_view_matches_dense false example_ops example_graph).
  vm_compute. reflexivity.
Defined.

(** X17.  The adjacency matrix of an undirected graph built by calls is
    symmetric. *)
Theorem adjacency_matrix_symmetric :
  forall (ops : list Graph.op) (g : Graph.SparseGraph),
    Graph.run (Graph.__init__ false) ops = Ok g ->
    exists M,
      GraphViews.get_adjacency_matrix g = Ok (M, Graph.get_nodes g) /\
      forall i j,
        (i < length (Graph.get_nodes g))%nat ->
        (j < length (Graph.get_nodes g))%nat ->
        (nth j (nth i M []) 0 == nth i (nth j M []) 0)%Q.
Proof.
  intros ops g Hrun.
  destruct (GraphIndex.reached _ _ Hrun) as (Hwf & Hidx & Hd).
  destruct (GraphMatrix.adjacency_views Hwf Hidx) as (M & S & HM & _ & _ & _ & Hent).
  exists M. split; [exact HM |]. intros i j Hi Hj.
  destruct (Hent i j Hi Hj) as [H1 _]. destruct (Hent j i Hj Hi) as [H2 _].
  rewrite H1, H2, (GraphDegrees.weight_at_sym Hwf i j Hd). reflexivity.
Qed.

(** X17 (witness): the example graph. *)
Lemma adjacency_matrix_symmetric_example :
  exists M,
    GraphViews.get_adjacency_matrix example_graph
    = Ok (M, Graph.get_nodes example_graph) /\
    forall i j,
      (i < length (Graph.get_nodes example_graph))%nat ->
      (j < length (Graph.get_nodes example_graph))%nat ->
      (nth j (nth i M []) 0 == nth i (nth j M []) 0)%Q.
Proof.
  apply (@adjacency_matrix_symmetric example_ops example_graph).
  vm_compute. reflexivity.
Defined.

(** X18.  Rows of the adjacency matrix are sources and columns are targets:
    on a graph built by calls, directed or not, the sum of row [i] is
    [get_out_degree] of the i-th node and the sum of column [i], which is
    what the engine computes as [out_degree] with [sum(axis=0)], is
    [get_in_degree] of the i-th node. *)
Theorem adjacency_matrix_degrees :
  forall (directed : bool) (ops : list Graph.op) (g : Graph.SparseGraph),
    Graph.run (Graph.__init__ directed) ops = Ok g ->
    exists M,
      GraphViews.get_adjacency_matrix g = Ok (M, Graph.get_nodes g) /\
      forall i,
        (i < length (Graph.get_nodes g))%nat ->
        (vsum (nth i M [])
         == GraphViews.get_out_degree g (nth i (Graph.get_nodes g) EmptyString))%Q /\
        (nth i (sum_axis0 M) 0
         == GraphViews.get_in_degree g (nth i (Graph.get_nodes g) EmptyString))%Q.
Proof.
  intros d ops g Hrun.
  destruct (GraphIndex.reached _ _ Hrun) as (Hwf & Hidx & _).
  destruct (GraphMatrix.adjacency_views Hwf Hidx) as (M & S & HM & _ & Hsq & _ & Hent).
  exists M. split; [exact HM |]. intros i Hi. split.
  - rewrite (GraphDegrees.out_degree_row Hwf Hi), Mass.vsum_as_table.
    rewrite (StepFacts.square_row Hsq Hi).
    apply NpFacts.vsum_map_ext. intros j Hj. apply in_seq in Hj.
    apply Hent; [exact Hi | lia].
  - rewrite (GraphDegrees.in_degree_any Hwf Hi), (Mass.nth_sum_axis0 Hsq Hi).
    apply NpFacts.vsum_map_ext. intros k Hk. apply in_seq in Hk.
    apply Hent; [lia | exact Hi].
Qed.

(** X18 (witness): the example graph. *)
Lemma adjacency_matrix_degrees_example :
  exists M,
    GraphViews.get_adjacency_matrix example_graph
    = Ok (M, Graph.get_nodes example_graph) /\
    forall i,
      (i < length (Graph.get_nodes example_graph))%nat ->
      (vsum (nth i M [])
       == GraphViews.get_out_degree example_graph
            (nth i (Graph.get_nodes example_graph) EmptyString))%Q /\
      (nth i (sum_axis0 M) 0
       == GraphViews.get_in_degree example_graph
            (nth i (Graph.get_nodes example_graph) EmptyString))%Q.
Proof.
  apply (@adjacency_matrix_degrees false example_ops example_graph).
  vm_compute. reflexivity.
Defined.

(** X25.  Every edge weight is counted once from each end: on a graph built
    by calls, directed or not, the out-degrees of all nodes and the
    in-degrees of all nodes have the same sum. *)
Theorem degree_sums_agree :
  forall (directed : bool) (ops : list Graph.op) (g : Graph.SparseGraph),
    Graph.run (Graph.__init__ directed) ops = Ok g ->
    (vsum (map (GraphViews.get_out_degree g) (Graph.get_nodes g))
     == vsum (map (GraphViews.get_in_degree g) (Graph.get_nodes g)))%Q.
Proof.
  intros d ops g Hrun.
  destruct (GraphIndex.reached _ _ Hrun) as (Hwf & Hidx & _).
  set (n := length (Graph.get_nodes g)).
  rewrite (NpFacts.list_as_table (Graph.get_nodes g) EmptyString) at 1 2.
  rewrite !map_map. fold n.
  transitivity
    (vsum (map (fun i => vsum (map (fun j => weight_at g i j) (seq 0 n))) (seq 0 n))).
  - apply NpFacts.vsum_map_ext. intros i Hi. apply in_seq in Hi.
    apply (GraphDegrees.out_degree_row Hwf). lia.
  - rewrite Mass.vsum_exchange.
    apply NpFacts.vsum_map_ext. intros j Hj. apply in_seq in Hj.
    symmetry. apply (GraphDegrees.in_degree_any Hwf). lia.
Qed.

(** X25 (witness): the example graph. *)
Lemma degree_sums_agree_example :
  (vsum (map (GraphViews.get_out_degree example_graph) (Graph.get_nodes example_graph))
   == vsum (map (GraphViews.get_in_degree example_graph)
             (Graph.get_nodes example_graph)))%Q.
Proof.
  apply (@degree_sums_agree false example_ops example_graph).
  vm_compute. reflexivity.
Defined.

(* ------------------------------------------------------------------ *)
(** * The dangling mask of a graph                                     *)
(* ------------------------------------------------------------------ *)

Module GraphDangling.
Import Py Np NpFacts DictFacts Graph GraphViews GraphFacts GraphOps GraphIndex.
Import GraphMatrix GraphDegrees.

Lemma nth_middle_pair {A : Type} (pre post : list A) (b d : A) :
  nth (length pre) (pre ++ b :: post) d = b.
Proof. rewrite app_nth2 by lia. rewrite Nat.sub_diag. reflexivity. Qed.

Lemma dangling_mask_spec (g : SparseGraph) :
  wf g -> indexed g ->
  exists mask,
    get_dangling_nodes g = Ok mask /\
    length mask = length (get_nodes g) /\
    forall i, (i < length (get_nodes g))%nat ->
      nth i mask false
      = match get_neighbors g (nth i (get_nodes g) EmptyString) with
        | [] => true
        | _ :: _ => false
        end.
Proof.
  intros Hwf Hidx. unfold get_dangling_nodes.
  set (n := length (get_nodes g)).
  set (adj := _adjacency_list g).
  assert (Hlen : length adj = n)
    by (unfold n, get_nodes, keys; rewrite length_map; reflexivity).
  assert (Hnode : forall i, nth i (get_nodes g) EmptyString
                            = fst (nth i adj (EmptyString, []))).
  { intros i. unfold get_nodes, keys.
    change EmptyString with (fst (EmptyString, @nil (string * Q))) at 1.
    apply map_nth. }
  set (isnil := fun nb : dict string Q =>
                  match nb with [] => true | _ :: _ => false end).
  set (P := fun (pre : dict string (dict string Q)) (mask : list bool) =>
              length mask = n /\
              forall i, (i < n)%nat ->
                nth i mask false
                = if Nat.ltb i (length pre)
                  then isnil (snd (nth i adj (EmptyString, [])))
                  else false).
  destruct (@fold_invariant (list bool) (string * dict string Q)
              (fun dangling_mask nn =>
                 match snd nn with
                 | [] =>
                     idx <- getitem (_node_to_idx g) (fst nn) ;;
                     if Nat.ltb idx (length dangling_mask)
                     then Ok (list_set dangling_mask idx true)
                     else Raise IndexError
                 | _ :: _ => Ok dangling_mask
                 end)
              P adj (repeat false (length adj))) as (mask & Hrun & Hmask & Hent).
  - split; [rewrite repeat_length; exact Hlen |].
    intros i Hi. cbn [length]. rewrite nth_repeat. reflexivity.
  - intros pre [x nb] post mask Hsplit [Hmask Hent]. cbn [fst snd].
    assert (Hhere : nth (length pre) adj (EmptyString, []) = (x, nb))
      by (rewrite Hsplit; apply nth_middle_pair).
    assert (Hpos : (length pre < n)%nat).
    { rewrite <- Hlen, Hsplit, length_app. cbn [length]. lia. }
    assert (Hspec : forall mask',
               length mask' = n ->
               (forall i, (i < n)%nat ->
                          nth i mask' false
                          = if Nat.eqb (length pre) i then isnil nb
                            else nth i mask false) ->
               P (pre ++ [(x, nb)]) mask').
    { intros mask' Hlen' Hent'. split; [exact Hlen' |].
      intros i Hi. rewrite (Hent' i Hi), length_app, Nat.add_1_r. cbn [length].
      destruct (Nat.eqb_spec (length pre) i) as [<- | Hne].
      - destruct (Nat.ltb_spec (length pre) (S (length pre))); [| lia].
        rewrite Hhere. reflexivity.
      - rewrite (Hent i Hi).
        destruct (Nat.ltb_spec i (length pre)), (Nat.ltb_spec i (S (length pre)));
          try reflexivity; lia. }
    destruct nb as [| tw nb].
    + assert (Hidx_x : get (_node_to_idx g) x = Some (length pre)).
      { apply (@node_to_idx_lookup g x (length pre) Hwf Hidx).
        rewrite (nth_error_nth' _ EmptyString) by exact Hpos.
        rewrite Hnode, Hhere. reflexivity. }
      unfold getitem. rewrite Hidx_x. cbn [bind]. rewrite Hmask.
      destruct (Nat.ltb_spec (length pre) n) as [_ | Hge]; [| lia].
      eexists. split; [reflexivity |]. apply Hspec.
      * rewrite StepFacts.length_list_set. exact Hmask.
      * intros i Hi. rewrite StepFacts.nth_list_set by lia.
        destruct (Nat.eqb (length pre) i); reflexivity.
    + exists mask. split; [reflexivity |]. apply Hspec; [exact Hmask |].
      intros i Hi. destruct (Nat.eqb_spec (length pre) i) as [<- | _]; [| reflexivity].
      rewrite (Hent _ Hpos), Nat.ltb_irrefl. reflexivity.
  - exists mask. fold adj. split; [exact Hrun |]. split; [exact Hmask |].
    intros i Hi. rewrite (Hent i Hi), Hlen.
    destruct (Nat.ltb_spec i n) as [_ | Hge]; [| lia].
    unfold get_neighbors. rewrite (nth_adjacency Hwf Hi). reflexivity.
Qed.

End GraphDangling.

(** X19.  On a graph built by calls, [get_dangling_nodes] never raises: it
    returns one flag per node, in insertion order, and the flag of a node is
    set exactly when the node has no stored neighbour. *)
Theorem get_dangling_nodes_mask :
  forall (directed : bool) (ops : list Graph.op) (g : Graph.SparseGraph),
    Graph.run (Graph.__init__ directed) ops = Ok g ->
    exists mask,
      GraphViews.get_dangling_nodes g = Ok mask /\
      length mask = length (Graph.get_nodes g) /\
      forall i, (i < length (Graph.get_nodes g))%nat ->
        (nth i mask false = true
         <-> GraphViews.get_neighbors g (nth i (Graph.get_nodes g) EmptyString) = []).
Proof.
  intros d ops g Hrun.
  destruct (GraphIndex.reached _ _ Hrun) as (Hwf & Hidx & _).
  destruct (GraphDangling.dangling_mask_spec Hwf Hidx) as (mask & Hmask & Hlen & Hent).
  exists mask. split; [exact Hmask |]. split; [exact Hlen |].
  intros i Hi. rewrite (Hent i Hi).
  destruct (GraphViews.get_neighbors g (nth i (Graph.get_nodes g) EmptyString));
    split; intros H; try reflexivity; discriminate.
Qed.

(** X19 (witness): a directed path [a -> b -> c] with an isolated node. *)
Lemma get_dangling_nodes_mask_example :
  exists mask,
    GraphViews.get_dangling_nodes path_graph = Ok mask /\
    length mask = length (Graph.get_nodes path_graph) /\
    forall i, (i < length (Graph.get_nodes path_graph))%nat ->
      (nth i mask false = true
       <-> GraphViews.get_neighbors path_graph
             (nth i (Graph.get_nodes path_graph) EmptyString) = []).
Proof.
  apply (@get_dangling_nodes_mask true path_ops path_graph).
  vm_compute. reflexivity.
Defined.

(* ------------------------------------------------------------------ *)
(** * Subgraphs                                                        *)
(* ------------------------------------------------------------------ *)

Module SubgraphFacts.
Import Py DictFacts Graph GraphViews GraphFacts GraphOps GraphIndex GraphMatrix.

Lemma member_In (nodes : list string) (x : string) :
  member nodes x = true <-> In x nodes.
Proof.
  unfold member. rewrite existsb_exists. split.
  - intros (y & Hy & Heq). apply String.eqb_eq in Heq. subst. exact Hy.
  - intros Hx. exists x. split; [exact Hx | apply String.eqb_refl].
Qed.

Lemma member_flip (nodes : list string) (x : string) :
  existsb (String.eqb x) nodes = member nodes x.
Proof. reflexivity. Qed.

Section Subgraph.

Variable g : SparseGraph.
Hypothesis Hwf : wf g.
Variable nodes : list string.

(** *** The loop that adds the nodes *)

Lemma node_loop (l : list string) :
  forall h,
    base_wf h -> (forall s t, edge_weight h s t = None) ->
    let h' :=
      fold_left
        (fun subgraph node =>
           if mem (_adjacency_list g) node then add_node subgraph node
           else subgraph) l h in
    base_wf h' /\ directed h' = directed h /\
    (forall s t, edge_weight h' s t = None) /\
    forall x, mem (_adjacency_list h') x
              = (member l x && mem (_adjacency_list g) x)
                || mem (_adjacency_list h) x.
Proof.
  induction l as [| y l IH]; intros h Hbase Hnone; cbn [fold_left].
  - cbv zeta. split; [exact Hbase |]. split; [reflexivity |].
    split; [exact Hnone |]. intros x. reflexivity.
  - destruct (mem (_adjacency_list g) y) eqn:Hy.
    + destruct (@add_node_spec h y Hbase) as (Hb1 & Hd1 & _ & Hw1 & Hm1).
      destruct (IH (add_node h y) Hb1) as (Hb & Hd & Hw & Hm).
      { intros s t. rewrite Hw1. apply Hnone. }
      cbv zeta. split; [exact Hb |]. split; [congruence |]. split; [exact Hw |].
      intros x. rewrite Hm, Hm1. unfold member. cbn [existsb].
      destruct (String.eqb_spec x y) as [-> | _]; cbn [orb andb].
      * rewrite Hy. rewrite orb_true_r. reflexivity.
      * reflexivity.
    + destruct (IH h Hbase Hnone) as (Hb & Hd & Hw & Hm).
      cbv zeta. split; [exact Hb |]. split; [exact Hd |]. split; [exact Hw |].
      intros x. rewrite Hm. unfold member. cbn [existsb].
      destruct (String.eqb_spec x y) as [-> | _]; cbn [orb andb]; [| reflexivity].
      rewrite Hy, andb_false_r. reflexivity.
Qed.

(** *** One [add_edge] of the edge loops *)

Lemma add_edge_within (h : SparseGraph) (covered : string -> string -> Prop)
    (s t : string) (w : Q) :
  within g nodes h -> holds_pairs g nodes covered h ->
  edge_weight g s t = Some w ->
  member nodes s = true -> member nodes t = true ->
  exists h',
    add_edge h s t w = Ok h' /\ within g nodes h' /\
    holds_pairs g nodes (fun s' t' => covered s' t' \/ (s' = s /\ t' = t)) h'.
Proof.
  intros (Hwfh & Hd & Hmem & Hsub) Hheld Hst Hs Ht.
  destruct (@add_edge_spec h s t w Hwfh) as (h' & Hadd & Hwf' & Hd' & _ & Hw' & Hm').
  assert (Hnew : forall s' t' v, edge_weight h' s' t' = Some v ->
                                 edge_weight g s' t' = Some v /\
                                 member nodes s' = true /\ member nodes t' = true).
  { intros s' t' v. rewrite Hw', Hd.
    destruct (String.eqb s' s && String.eqb t' t) eqn:H1.
    - apply andb_true_iff in H1. destruct H1 as [H1 H2].
      apply String.eqb_eq in H1, H2. subst. intros Heq. injection Heq as <-. auto.
    - destruct (negb (directed g) && (String.eqb s' t && String.eqb t' s)) eqn:H2.
      + apply andb_true_iff in H2. destruct H2 as [Hund H2].
        apply andb_true_iff in H2. destruct H2 as [H2 H3].
        apply String.eqb_eq in H2, H3. subst. apply negb_true_iff in Hund.
        intros Heq. injection Heq as <-. destruct Hwf as [_ Hmir].
        split; [apply (Hmir Hund _ _ _ Hst) | auto].
      + apply Hsub. }
  assert (Hsrc : mem (_adjacency_list g) s = true).
  { unfold edge_weight in Hst. unfold mem.
    destruct (get (_adjacency_list g) s); [reflexivity | discriminate]. }
  assert (Htgt : mem (_adjacency_list g) t = true).
  { destruct Hwf as [(_ & _ & _ & Htarget) _]. apply (Htarget s t). congruence. }
  exists h'. split; [exact Hadd |]. split; [split; [exact Hwf' |] |].
  - split; [congruence |]. split; [| exact Hnew].
    intros x. rewrite Hm', Hmem.
    destruct (String.eqb_spec x s) as [-> | _]; cbn [orb];
      [rewrite Hs, Hsrc; reflexivity |].
    destruct (String.eqb_spec x t) as [-> | _]; cbn [orb];
      [rewrite Ht, Htgt; reflexivity | reflexivity].
  - intros s' t' v Hcov Ht' Hg.
    assert (Hcase : edge_weight h' s' t' = Some v \/ edge_weight h' s' t' = edge_weight h s' t').
    { rewrite Hw', Hd.
      destruct (String.eqb s' s && String.eqb t' t) eqn:H1.
      - left. apply andb_true_iff in H1. destruct H1 as [H1 H2].
        apply String.eqb_eq in H1, H2. subst. congruence.
      - destruct (negb (directed g) && (String.eqb s' t && String.eqb t' s)) eqn:H2;
          [| right; reflexivity].
        left. apply andb_true_iff in H2. destruct H2 as [Hund H2].
        apply andb_true_iff in H2. destruct H2 as [H2 H3].
        apply String.eqb_eq in H2, H3. subst. apply negb_true_iff in Hund.
        destruct Hwf as [_ Hmir]. rewrite (Hmir Hund _ _ _ Hst) in Hg. congruence. }
    destruct Hcase as [Hdone | Hsame]; [exact Hdone |].
    destruct Hcov as [Hcov | [-> ->]].
    + rewrite Hsame. apply (Hheld s' t' v Hcov Ht' Hg).
    + rewrite Hw', !String.eqb_refl. cbn [andb]. congruence.
Qed.

(** *** The loop over the neighbours of one source *)

Lemma neighbour_loop (h : SparseGraph) (covered : string -> string -> Prop)
    (s : string) (nb : dict string Q) :
  get (_adjacency_list g) s = Some nb -> member nodes s = true ->
  within g nodes h -> holds_pairs g nodes covered h ->
  exists h',
    fold_left
      (fun acc tw =>
         subgraph <- acc ;;
         if existsb (String.eqb (fst tw)) nodes
         then add_edge subgraph s (fst tw) (snd tw)
         else Ok subgraph)
      nb (Ok h) = Ok h' /\
    within g nodes h' /\
    holds_pairs g nodes (fun s' t' => covered s' t' \/ s' = s) h'.
Proof.
  intros Hrow Hs Hin Hheld.
  assert (Hnodup : NoDup (keys nb)).
  { destruct Hwf as [(_ & Hnb & _) _]. apply (Hnb _ _ Hrow). }
  set (P := fun (pre : dict string Q) (h : SparseGraph) =>
              within g nodes h /\
              holds_pairs g nodes
                (fun s' t' => covered s' t' \/ (s' = s /\ In t' (keys pre))) h).
  destruct (@fold_invariant SparseGraph (string * Q)
              (fun subgraph tw =>
                 if existsb (String.eqb (fst tw)) nodes
                 then add_edge subgraph s (fst tw) (snd tw)
                 else Ok subgraph)
              P nb h) as (h' & Hrun & Hin' & Hheld').
  - split; [exact Hin |]. intros s' t' w [Hcov | [_ []]]. apply Hheld. exact Hcov.
  - intros pre [t w] post h0 Hsplit [Hin0 Hheld0]. cbn [fst snd].
    assert (Hedge : edge_weight g s t = Some w).
    { unfold edge_weight. rewrite Hrow. apply (@get_In _ _ _ nb t w Hnodup).
      rewrite Hsplit. apply in_or_app. right. left. reflexivity. }
    rewrite member_flip. destruct (member nodes t) eqn:Ht.
    + destruct (@add_edge_within h0 _ s t w Hin0 Hheld0 Hedge Hs Ht)
        as (h1 & Hadd & Hin1 & Hheld1).
      exists h1. split; [exact Hadd |]. split; [exact Hin1 |].
      intros s' t' v Hcov Ht' Hg. apply (Hheld1 s' t' v); [| exact Ht' | exact Hg].
      destruct Hcov as [Hcov | [-> Hkey]]; [left; left; exact Hcov |].
      rewrite keys_app in Hkey. apply in_app_or in Hkey.
      destruct Hkey as [Hkey | [<- | []]]; [left; right; auto | right; auto].
    + exists h0. split; [reflexivity |]. split; [exact Hin0 |].
      intros s' t' v Hcov Ht' Hg. apply (Hheld0 s' t' v); [| exact Ht' | exact Hg].
      destruct Hcov as [Hcov | [-> Hkey]]; [left; exact Hcov |].
      rewrite keys_app in Hkey. apply in_app_or in Hkey.
      destruct Hkey as [Hkey | [<- | []]]; [right; auto |].
      cbn [fst] in Ht'. congruence.
  - exists h'. split; [exact Hrun |]. split; [exact Hin' |].
    intros s' t' v Hcov Ht' Hg. apply (Hheld' s' t' v); [| exact Ht' | exact Hg].
    destruct Hcov as [Hcov | ->]; [left; exact Hcov |]. right. split; [reflexivity |].
    unfold edge_weight in Hg. rewrite Hrow in Hg.
    apply mem_true_iff. apply mem_get. congruence.
Qed.

(** *** The loop over the sources *)

Lemma source_loop (h : SparseGraph) :
  within g nodes h ->
  exists h',
    fold_left
      (fun acc source =>
         subgraph <- acc ;;
         if mem (_adjacency_list g) source then
           neighbors <- getitem (_adjacency_list g) source ;;
           fold_left
             (fun acc tw =>
                subgraph <- acc ;;
                if existsb (String.eqb (fst tw)) nodes
                then add_edge subgraph source (fst tw) (snd tw)
                else Ok subgraph)
             neighbors (Ok subgraph)
         else Ok subgraph)
      nodes (Ok h) = Ok h' /\
    within g nodes h' /\
    holds_pairs g nodes (fun s' _ => In s' nodes) h'.
Proof.
  intros Hin.
  set (P := fun (pre : list string) (h : SparseGraph) =>
              within g nodes h /\ holds_pairs g nodes (fun s' _ => In s' pre) h).
  destruct (@fold_invariant SparseGraph string
              (fun subgraph source =>
                 if mem (_adjacency_list g) source then
                   neighbors <- getitem (_adjacency_list g) source ;;
                   fold_left
                     (fun acc tw =>
                        subgraph <- acc ;;
                        if existsb (String.eqb (fst tw)) nodes
                        then add_edge subgraph source (fst tw) (snd tw)
                        else Ok subgraph)
                     neighbors (Ok subgraph)
                 else Ok subgraph)
              P nodes h) as (h' & Hrun & Hin' & Hheld').
  - split; [exact Hin |]. intros s' t' w [].
  - intros pre s post h0 Hsplit [Hin0 Hheld0].
    assert (Hs : member nodes s = true).
    { apply member_In. rewrite Hsplit. apply in_or_app. right. left. reflexivity. }
    destruct (mem (_adjacency_list g) s) eqn:Hmem.
    + assert (Hget : get (_adjacency_list g) s <> None) by (apply mem_get; exact Hmem).
      destruct (get (_adjacency_list g) s) as [nb |] eqn:Hrow; [| congruence].
      unfold getitem. rewrite Hrow. cbn [bind].
      destruct (@neighbour_loop h0 _ s nb Hrow Hs Hin0 Hheld0)
        as (h1 & Hrun1 & Hin1 & Hheld1).
      exists h1. split; [exact Hrun1 |]. split; [exact Hin1 |].
      intros s' t' v Hcov Ht' Hg. apply (Hheld1 s' t' v); [| exact Ht' | exact Hg].
      apply in_app_or in Hcov. destruct Hcov as [Hcov | [<- | []]]; auto.
    + exists h0. split; [reflexivity |]. split; [exact Hin0 |].
      intros s' t' v Hcov Ht' Hg. apply in_app_or in Hcov.
      destruct Hcov as [Hcov | [<- | []]]; [apply (Hheld0 s' t' v); assumption |].
      exfalso. unfold edge_weight in Hg. unfold mem in Hmem.
      destruct (get (_adjacency_list g) s); discriminate.
  - exists h'. auto.
Qed.

(** *** [subgraph] *)

Lemma subgraph_spec :
  exists h,
    subgraph g nodes = Ok h /\ wf h /\ directed h = directed g /\
    (forall x, mem (_adjacency_list h) x
               = member nodes x && mem (_adjacency_list g) x) /\
    (forall s t, edge_weight h s t
                 = if member nodes s && member nodes t then edge_weight g s t
                   else None).
Proof.
  unfold subgraph.
  destruct (@node_loop nodes (__init__ (directed g))) as (Hb1 & Hd1 & Hw1 & Hm1).
  { apply wf_init. }
  { intros s t. reflexivity. }
  match goal with
  | |- context [fold_left ?f nodes (__init__ (directed g))] =>
      set (h1 := fold_left f nodes (__init__ (directed g))) in *
  end.
  assert (Hin1 : within g nodes h1).
  { split; [split; [exact Hb1 |] |].
    - intros _ s t w. rewrite Hw1. discriminate.
    - split; [exact Hd1 |]. split.
      + intros x. rewrite Hm1. cbn. apply orb_false_r.
      + intros s t w. rewrite Hw1. discriminate. }
  destruct (source_loop Hin1) as (h & Hrun & (Hwfh & Hd & Hm & Hsub) & Hheld).
  exists h. split; [exact Hrun |]. split; [exact Hwfh |]. split; [exact Hd |].
  split; [exact Hm |]. intros s t.
  destruct (edge_weight h s t) as [w |] eqn:Hh.
  - destruct (Hsub s t w Hh) as (Hg & Hs & Ht). rewrite Hs, Ht, Hg. reflexivity.
  - destruct (member nodes s) eqn:Hs; [| reflexivity].
    destruct (member nodes t) eqn:Ht; [| reflexivity]. cbn [andb].
    destruct (edge_weight g s t) as [w |] eqn:Hg; [| reflexivity].
    rewrite (Hheld s t w (proj1 (member_In nodes s) Hs) Ht Hg) in Hh. discriminate.
Qed.

End Subgraph.

End SubgraphFacts.

(** X21.  [subgraph] of a graph built by calls never raises and returns the
    induced subgraph, whatever the order in which the set is iterated: a
    graph of the same kind whose nodes are the requested nodes that the
    graph has, which stores a pair, with its weight, exactly when the graph
    stores it and both ends were requested, and whose edge counter is the
    number of pairs it stores. *)
Theorem subgraph_is_induced :
  forall (directed : bool) (ops : list Graph.op) (g : Graph.SparseGraph)
         (nodes : list string),
    Graph.run (Graph.__init__ directed) ops = Ok g ->
    exists h,
      GraphViews.subgraph g nodes = Ok h /\
      Graph.directed h = directed /\
      (forall x, In x (Graph.get_nodes h) <-> In x nodes /\ In x (Graph.get_nodes g)) /\
      (forall s t, Graph.edge_weight h s t
                   = if member nodes s && member nodes t
                     then Graph.edge_weight g s t
                     else None) /\
      Graph._edge_count h = Z.of_nat (length (Graph.get_edges h)).
Proof.
  intros d ops g nodes Hrun.
  destruct (GraphIndex.reached _ _ Hrun) as (Hwf & _ & Hd).
  destruct (SubgraphFacts.subgraph_spec Hwf nodes) as (h & Hsub & Hwfh & Hdh & Hm & Hw).
  exists h. split; [exact Hsub |]. split; [congruence |]. split; [| split; [exact Hw |]].
  - intros x. unfold Graph.get_nodes.
    rewrite <- !DictFacts.mem_true_iff, Hm, andb_true_iff, SubgraphFacts.member_In.
    reflexivity.
  - apply Hwfh.
Qed.

(** X21 (witness): the nodes [c], [b] and a stranger, on the example
    graph. *)
Lemma subgraph_is_induced_example :
  exists h,
    GraphViews.subgraph example_graph ["c"; "b"; "zz"] = Ok h /\
    Graph.directed h = false /\
    (forall x, In x (Graph.get_nodes h)
               <-> In x ["c"; "b"; "zz"] /\ In x (Graph.get_nodes example_graph)) /\
    (forall s t, Graph.edge_weight h s t
                 = if member ["c"; "b"; "zz"] s && member ["c"; "b"; "zz"] t
                   then Graph.edge_weight example_graph s t
                   else None) /\
    Graph._edge_count h = Z.of_nat (length (Graph.get_edges h)).
Proof.
  apply (@subgraph_is_induced false example_ops example_graph ["c"; "b"; "zz"]).
  vm_compute. reflexivity.
Defined.

(* ------------------------------------------------------------------ *)
(** * [to_sparse_matrix]                                               *)
(* ------------------------------------------------------------------ *)

Module ToSparse.
Import Py Np NpFacts DictFacts Graph GraphViews GraphFacts GraphOps GraphIndex.
Import GraphMatrix GraphDegrees.

Lemma rev_head {A : Type} (l : list A) (d : A) :
  (0 < length l)%nat ->
  rev l = nth (length l - 1) l d :: rev (removelast l).
Proof.
  induction l as [| x l _] using rev_ind; intros Hlen; [cbn in Hlen; lia |].
  rewrite rev_app_distr, removelast_last, length_app. cbn [rev app length].
  f_equal. replace (length l + 1 - 1)%nat with (length l) by lia.
  symmetry. apply GraphDangling.nth_middle_pair.
Qed.

Section LastNode.

Variable g : SparseGraph.
Hypothesis Hwf : wf g.
Hypothesis Hidx : indexed g.

Local Abbreviation n := (length (get_nodes g)).
Local Abbreviation node i := (nth i (get_nodes g) EmptyString).

(** The first loop leaves the values of its last pass. *)
Lemma first_loop :
  fold_left
    (fun acc sn =>
       bound <- acc ;;
       u <- getitem (_node_to_idx g) (fst sn) ;;
       let total_weight := py_sum (map snd (snd sn)) in
       Ok (Some (u, total_weight, snd sn)))
    (_adjacency_list g) (Ok None)
  = Ok (match rev (_adjacency_list g) with
        | [] => None
        | sn :: _ =>
            Some ((n - 1)%nat, py_sum (map snd (snd sn)), snd sn)
        end).
Proof.
  set (adj := _adjacency_list g).
  assert (Hlen : length adj = n)
    by (unfold get_nodes, keys; rewrite length_map; reflexivity).
  set (P := fun (pre : dict string (dict string Q))
                (bound : option (nat * Q * dict string Q)) =>
              bound = match rev pre with
                      | [] => None
                      | sn :: _ =>
                          Some ((length pre - 1)%nat, py_sum (map snd (snd sn)), snd sn)
                      end).
  destruct (@fold_invariant (option (nat * Q * dict string Q))
              (string * dict string Q)
              (fun bound sn =>
                 u <- getitem (_node_to_idx g) (fst sn) ;;
                 let total_weight := py_sum (map snd (snd sn)) in
                 Ok (Some (u, total_weight, snd sn)))
              P adj None) as (bound & Hrun & Hbound).
  - reflexivity.
  - intros pre [x nb] post bound Hsplit _. cbn [fst snd].
    assert (Hpos : (length pre < n)%nat).
    { rewrite <- Hlen, Hsplit, length_app. cbn [length]. lia. }
    assert (Hx : get (_node_to_idx g) x = Some (length pre)).
    { apply (@node_to_idx_lookup g x (length pre) Hwf Hidx).
      rewrite (nth_error_nth' _ EmptyString) by exact Hpos.
      unfold get_nodes, keys.
      change EmptyString with (fst (EmptyString, @nil (string * Q))) at 1.
      rewrite map_nth. fold adj. rewrite Hsplit, GraphDangling.nth_middle_pair.
      reflexivity. }
    unfold getitem. rewrite Hx. cbn [bind]. eexists. split; [reflexivity |].
    unfold P. rewrite rev_app_distr. cbn [rev app fst snd].
    rewrite length_app, Nat.add_1_r. cbn [length].
    replace (S (length pre) - 1)%nat with (length pre) by lia. reflexivity.
  - transitivity (Ok bound); [exact Hrun |]. rewrite Hbound, Hlen. reflexivity.
Qed.

(** The second loop, on the neighbours of the node of index [u]. *)
Lemma second_loop (u : nat) (nb : dict string Q) (total : Q) :
  (u < n)%nat -> get (_adjacency_list g) (node u) = Some nb ->
  ~ (total == 0)%Q ->
  exists entries,
    fold_left
      (fun acc tw =>
         entries <- acc ;;
         v <- getitem (_node_to_idx g) (fst tw) ;;
         if Qeq_bool total 0 then Raise ZeroDivisionError
         else Ok (entries ++ [(v, u, (snd tw / total)%Q)]))
      nb (Ok []) = Ok entries /\
    in_shape n entries /\
    forall i j, (i < n)%nat -> (j < n)%nat ->
      (coo_entry entries i j
       == if Nat.eqb j u then weight_at g u i / total else 0)%Q.
Proof.
  intros Hu Hrow Htotal.
  assert (Hnz : Qeq_bool total 0 = false).
  { destruct (Qeq_bool total 0) eqn:Hz; [| reflexivity].
    apply Qeq_bool_iff in Hz. contradiction. }
  assert (Hnodup : NoDup (keys nb)).
  { destruct Hwf as [(_ & Hnb & _) _]. apply (Hnb _ _ Hrow). }
  set (P := fun (pre : dict string Q) (entries : list (nat * nat * Q)) =>
              in_shape n entries /\
              forall i j, (i < n)%nat -> (j < n)%nat ->
                (coo_entry entries i j
                 == if Nat.eqb j u
                    then match get pre (node i) with
                         | Some w => w / total
                         | None => 0
                         end
                    else 0)%Q).
  destruct (@fold_invariant (list (nat * nat * Q)) (string * Q)
              (fun entries tw =>
                 v <- getitem (_node_to_idx g) (fst tw) ;;
                 if Qeq_bool total 0 then Raise ZeroDivisionError
                 else Ok (entries ++ [(v, u, (snd tw / total)%Q)]))
              P nb []) as (entries & Hrun & Hshape & Hent).
  - split; [reflexivity |]. intros i j _ _. cbn [get].
    destruct (Nat.eqb j u); reflexivity.
  - intros pre [t w] post entries Hsplit [Hshape Hent]. cbn [fst snd].
    assert (Hin : In (t, w) nb).
    { rewrite Hsplit. apply in_or_app. right. left. reflexivity. }
    destruct (@target_index g Hwf Hidx (node u) t nb w Hrow Hin)
      as (Hget & v & Hv & Hvn & Hnode).
    unfold getitem. rewrite Hv. cbn [bind]. rewrite Hnz.
    assert (Hfresh : get pre t = None).
    { destruct (get pre t) as [w' |] eqn:Hpre; [| reflexivity]. exfalso.
      assert (Hkey : In t (keys pre)).
      { apply mem_true_iff. apply mem_get. congruence. }
      rewrite Hsplit, keys_app in Hnodup. cbn in Hnodup.
      apply NoDup_remove_2 in Hnodup. apply Hnodup.
      apply in_or_app. left. exact Hkey. }
    eexists. split; [reflexivity |]. split.
    + unfold in_shape in *. rewrite forallb_app, Hshape. cbn [forallb fst snd].
      destruct (Nat.ltb_spec v n); [| lia]. destruct (Nat.ltb_spec u n); [| lia].
      reflexivity.
    + intros i j Hi Hj. rewrite coo_entry_snoc, (Hent i j Hi Hj), get_snoc.
      destruct (Nat.eqb_spec j u) as [-> | Hne].
      * rewrite Nat.eqb_refl, andb_true_r.
        destruct (Nat.eqb_spec v i) as [<- | Hvi].
        -- rewrite Hnode, Hfresh. destruct (key_dec t t); [ring | congruence].
        -- destruct (get pre (node i)); [ring |].
           destruct (key_dec (node i) t) as [Heq | _]; [| ring].
           exfalso. apply Hvi. apply (@node_inj g Hwf v i Hvn Hi).
           rewrite Hnode. symmetry. exact Heq.
      * destruct (Nat.eqb_spec u j) as [-> | _]; [congruence |].
        rewrite andb_false_r. ring.
  - exists entries. split; [exact Hrun |]. split; [exact Hshape |].
    intros i j Hi Hj. rewrite (Hent i j Hi Hj).
    rewrite (@weight_at_row g u i nb Hrow).
    destruct (Nat.eqb j u); [| reflexivity].
    destruct (get nb (node i)); [reflexivity |]. unfold Qdiv. ring.
Qed.

Lemma to_sparse_matrix_spec :
  (0 < n)%nat ->
  ~ (get_out_degree g (node (n - 1)) == 0)%Q ->
  exists M,
    to_sparse_matrix g = Returned (M, get_nodes g) /\
    square n M /\
    forall i j, (i < n)%nat -> (j < n)%nat ->
      (nth j (nth i M []) 0
       == if Nat.eqb j (n - 1)
          then weight_at g (n - 1) i / get_out_degree g (node (n - 1))
          else 0)%Q.
Proof.
  intros Hn Htotal. unfold to_sparse_matrix.
  match goal with
  | |- context [fold_left ?f (_adjacency_list g) (Ok None)] =>
      let H := fresh "Hfirst" in
      assert (H : fold_left f (_adjacency_list g) (Ok None)
                  = Ok (match rev (_adjacency_list g) with
                        | [] => None
                        | sn :: _ =>
                            Some ((n - 1)%nat, py_sum (map snd (snd sn)), snd sn)
                        end)) by exact first_loop;
      rewrite H; clear H
  end.
  assert (Hlen : length (_adjacency_list g) = n)
    by (unfold get_nodes, keys; rewrite length_map; reflexivity).
  assert (Hlast : (n - 1 < n)%nat) by lia.
  pose proof (nth_adjacency Hwf Hlast) as Hrow.
  assert (Hrev : rev (_adjacency_list g)
                 = nth (n - 1) (_adjacency_list g) (EmptyString, [])
                   :: rev (removelast (_adjacency_list g))).
  { rewrite <- Hlen. apply rev_head. lia. }
  rewrite Hrev.
  set (nb := snd (nth (n - 1) (_adjacency_list g) (EmptyString, []))) in *.
  assert (Hdeg : get_out_degree g (node (n - 1)) = py_sum (map snd nb)).
  { unfold get_out_degree. rewrite Hrow. reflexivity. }
  rewrite Hdeg in Htotal |- *.
  destruct (@second_loop (n - 1)%nat nb (py_sum (map snd nb)) Hlast Hrow Htotal)
    as (entries & Hrun & Hshape & Hent).
  match goal with
  | |- context [fold_left ?f nb (Ok [])] =>
      let H := fresh "Hsecond" in
      assert (H : fold_left f nb (Ok []) = Ok entries) by exact Hrun;
      rewrite H; clear H
  end.
  destruct (@coo_matrix_spec n entries Hshape) as (M & HM & Hsq & HentM).
  fold (get_nodes g). rewrite HM. exists M.
  split; [reflexivity |]. split; [exact Hsq |].
  intros i j Hi Hj. rewrite (HentM i j Hi Hj). apply Hent; assumption.
Qed.

End LastNode.

End ToSparse.

(** X24.  [to_sparse_matrix] fills one column only.  On a graph built by
    calls whose last node has a non-zero out-degree it returns the node list
    and a square array in which every column but the last is zero, whatever
    edges the other nodes have; the last column holds the weights of the
    edges that leave the last node, divided by its out-degree. *)
Theorem to_sparse_matrix_last_column_only :
  forall (directed : bool) (ops : list Graph.op) (g : Graph.SparseGraph),
    let n := length (Graph.get_nodes g) in
    let last := nth (n - 1) (Graph.get_nodes g) EmptyString in
    Graph.run (Graph.__init__ directed) ops = Ok g ->
    (0 < n)%nat ->
    ~ (GraphViews.get_out_degree g last == 0)%Q ->
    exists M,
      GraphViews.to_sparse_matrix g = GraphViews.Returned (M, Graph.get_nodes g) /\
      square n M /\
      forall i j, (i < n)%nat -> (j < n)%nat ->
        (nth j (nth i M []) 0
         == if Nat.eqb j (n - 1)
            then weight_at g (n - 1) i / GraphViews.get_out_degree g last
            else 0)%Q.
Proof.
  intros d ops g n last Hrun Hn Htotal.
  destruct (GraphIndex.reached _ _ Hrun) as (Hwf & Hidx & _).
  apply ToSparse.to_sparse_matrix_spec; assumption.
Qed.

(** X24 (witness): the example graph, whose last node [c] has out-degree 4. *)
Lemma to_sparse_matrix_last_column_only_example :
  let n := length (Graph.get_nodes example_graph) in
  let last := nth (n - 1) (Graph.get_nodes example_graph) EmptyString in
  exists M,
    GraphViews.to_sparse_matrix example_graph
    = GraphViews.Returned (M, Graph.get_nodes example_graph) /\
    square n M /\
    forall i j, (i < n)%nat -> (j < n)%nat ->
      (nth j (nth i M []) 0
       == if Nat.eqb j (n - 1)
          then weight_at example_graph (n - 1) i
               / GraphViews.get_out_degree example_graph last
          else 0)%Q.
Proof.
  apply (@to_sparse_matrix_last_column_only false example_ops example_graph).
  - vm_compute. reflexivity.
  - cbn. lia.
  - vm_compute. intros H. discriminate H.
Defined.

(* ------------------------------------------------------------------ *)
(** * The text format: splitting and stripping                         *)
(* ------------------------------------------------------------------ *)

Module TextFacts.
Import Graph.
Local Open Scope string_scope.

Lemma append_assoc (a b c : string) : (a ++ b) ++ c = a ++ (b ++ c).
Proof. induction a as [| x a IH]; simpl; congruence. Qed.

Lemma append_nil_r (a : string) : a ++ "" = a.
Proof. induction a as [| x a IH]; simpl; congruence. Qed.

Lemma has_char_app (c : ascii) (a b : string) :
  has_char c (a ++ b) = has_char c a || has_char c b.
Proof.
  induction a as [| x a IH]; simpl; [reflexivity |].
  rewrite IH. apply orb_assoc.
Qed.

Lemma split_app (sep : ascii) (a b : string) :
  has_char sep a = false ->
  split sep (a ++ String sep b) = a :: split sep b.
Proof.
  induction a as [| x a IH]; simpl; intros Ha.
  - rewrite Ascii.eqb_refl. reflexivity.
  - apply orb_false_iff in Ha. destruct Ha as [Hx Ha].
    rewrite Hx, (IH Ha). reflexivity.
Qed.

Lemma split_none (sep : ascii) (a : string) :
  has_char sep a = false -> split sep a = [a].
Proof.
  induction a as [| x a IH]; simpl; intros Ha; [reflexivity |].
  apply orb_false_iff in Ha. destruct Ha as [Hx Ha].
  rewrite Hx, (IH Ha). reflexivity.
Qed.

Lemma pieces_app (body rest : string) :
  has_char LF body = false ->
  pieces (body ++ String LF rest) = (body ++ nl) :: pieces rest.
Proof.
  induction body as [| x body IH]; simpl; intros Hb.
  - reflexivity.
  - apply orb_false_iff in Hb. destruct Hb as [Hx Hb].
    rewrite Hx, (IH Hb). reflexivity.
Qed.

Lemma universal_newlines_id (s : string) :
  has_char CR s = false -> universal_newlines s = s.
Proof.
  induction s as [| x s IH]; simpl; intros Hs; [reflexivity |].
  apply orb_false_iff in Hs. destruct Hs as [Hx Hs].
  rewrite Hx, (IH Hs). reflexivity.
Qed.

(** *** [readlines] on a text written line by line *)

Lemma has_char_unlines (c : ascii) (bodies : list string) :
  Ascii.eqb LF c = false ->
  Forall (fun b => has_char c b = false) bodies ->
  has_char c (unlines bodies) = false.
Proof.
  intros Hc. induction 1 as [| b bodies Hb Hall IH]; simpl; [reflexivity |].
  rewrite !has_char_app, Hb, IH. unfold nl. cbn [has_char]. rewrite Hc. reflexivity.
Qed.

Lemma pieces_unlines (bodies : list string) :
  Forall (fun b => has_char LF b = false) bodies ->
  pieces (unlines bodies) = List.app (map (fun b => b ++ nl) bodies) [""].
Proof.
  induction 1 as [| b bodies Hb Hall IH]; simpl; [reflexivity |].
  rewrite append_assoc. change (nl ++ unlines bodies) with (String LF (unlines bodies)).
  rewrite pieces_app by exact Hb. rewrite IH. reflexivity.
Qed.

Lemma line_not_empty (b : string) : String.eqb (b ++ nl) "" = false.
Proof. destruct b; reflexivity. Qed.

Lemma readlines_unlines (bodies : list string) :
  Forall (fun b => has_char LF b = false) bodies ->
  Forall (fun b => has_char CR b = false) bodies ->
  readlines (unlines bodies) = map (fun b => b ++ nl) bodies.
Proof.
  intros Hlf Hcr. unfold readlines.
  rewrite universal_newlines_id by (apply has_char_unlines; [reflexivity | exact Hcr]).
  rewrite pieces_unlines by exact Hlf. rewrite filter_app. simpl. rewrite app_nil_r.
  clear Hlf Hcr. induction bodies as [| b bodies IH]; simpl; [reflexivity |].
  rewrite line_not_empty, IH. reflexivity.
Qed.

(** *** [strip] on a line *)

Lemma rstrip_line_feed (a : string) : rstrip (a ++ nl) = rstrip a.
Proof.
  induction a as [| x a IH]; simpl; [reflexivity |].
  rewrite IH. reflexivity.
Qed.

Lemma rstrip_keeps (a b : string) :
  rstrip b = b -> b <> "" -> rstrip (a ++ b) = a ++ b.
Proof.
  intros Hb Hne. induction a as [| x a IH]; simpl; [exact Hb |].
  rewrite IH. destruct (a ++ b) eqn:Hab; [| reflexivity].
  destruct a; simpl in Hab; [contradiction | discriminate].
Qed.

Lemma rstrip_after_comma (f : string) :
  rstrip f = f -> rstrip (String "," f) = String "," f.
Proof.
  intros Hf. simpl. rewrite Hf. destruct f; reflexivity.
Qed.

Lemma length_lstrip (s : string) : (String.length (lstrip s) <= String.length s)%nat.
Proof.
  induction s as [| x s IH]; simpl; [lia |].
  destruct (is_space x); simpl; lia.
Qed.

Lemma lstrip_keeps (a b : string) :
  lstrip a = a -> lstrip (a ++ String "," b) = a ++ String "," b.
Proof.
  destruct a as [| x a]; simpl; [reflexivity |].
  destruct (is_space x); [| reflexivity].
  intros Ha. exfalso. pose proof (length_lstrip a) as Hlen.
  rewrite Ha in Hlen. simpl in Hlen. lia.
Qed.

(** The digits of a number hold no line break. *)
Lemma has_char_uint (c : ascii) (d : Decimal.uint) :
  c = LF \/ c = CR -> has_char c (NilEmpty.string_of_uint d) = false.
Proof.
  intros [-> | ->]; induction d; simpl; auto.
Qed.

Lemma has_char_int_str (c : ascii) (i : Z) :
  c = LF \/ c = CR -> has_char c (int_str i) = false.
Proof.
  intros Hc. unfold int_str, NilZero.string_of_int.
  assert (Hu : forall d, has_char c (NilZero.string_of_uint d) = false).
  { intros d. unfold NilZero.string_of_uint.
    destruct d; try (apply has_char_uint; exact Hc).
    destruct Hc as [-> | ->]; reflexivity. }
  destruct (Z.to_int i); simpl; rewrite ?Hu; auto.
  destruct Hc as [-> | ->]; reflexivity.
Qed.

End TextFacts.

(* ------------------------------------------------------------------ *)
(** * Saving and loading                                               *)
(* ------------------------------------------------------------------ *)

Module RoundTrip.
Import Py DictFacts Graph GraphFacts GraphOps TextFacts.

Section WithFormat.
Variable fmt_float : Q -> string.
Variable parse_float : string -> option Q.

Local Open Scope string_scope.

Lemma concat_cons (x : string) (xs : list string) :
  String.concat "" (x :: xs) = x ++ String.concat "" xs.
Proof.
  destruct xs as [| y xs]; simpl; [| reflexivity].
  symmetry. apply append_nil_r.
Qed.

Lemma edge_line_body (e : string * string * Q) :
  edge_line fmt_float e = edge_body fmt_float e ++ nl.
Proof.
  unfold edge_line, edge_body. rewrite !append_assoc. reflexivity.
Qed.

Lemma concat_edge_lines (L : list (string * string * Q)) :
  String.concat "" (map (edge_line fmt_float) L)
  = unlines (map (edge_body fmt_float) L).
Proof.
  induction L as [| e L IH]; [reflexivity |].
  cbn [map]. rewrite concat_cons, IH, edge_line_body. reflexivity.
Qed.

Lemma unlines_app (xs ys : list string) :
  unlines (List.app xs ys) = unlines xs ++ unlines ys.
Proof.
  induction xs as [| x xs IH]; simpl; [reflexivity |].
  rewrite IH, !append_assoc. reflexivity.
Qed.

(** The text written by [save_to_file], line by line. *)
Lemma save_as_lines (g : SparseGraph) :
  save_to_file fmt_float g
  = unlines (List.app (header_bodies g) (map (edge_body fmt_float) (get_edges g))).
Proof.
  unfold save_to_file. rewrite concat_edge_lines, unlines_app.
  set (rest := unlines (map (edge_body fmt_float) (get_edges g))).
  unfold header_bodies, unlines. cbn [fold_right].
  rewrite !append_assoc. reflexivity.
Qed.

Lemma header_has_no_break (g : SparseGraph) (c : ascii) :
  c = LF \/ c = CR ->
  Forall (fun b => has_char c b = false) (header_bodies g).
Proof.
  intros Hc. unfold header_bodies. repeat constructor.
  - destruct (directed g); destruct Hc as [-> | ->]; reflexivity.
  - rewrite has_char_app, has_char_int_str, orb_false_r by exact Hc.
    destruct Hc as [-> | ->]; reflexivity.
  - rewrite has_char_app, has_char_int_str, orb_false_r by exact Hc.
    destruct Hc as [-> | ->]; reflexivity.
Qed.

Lemma edge_body_has_no (c : ascii) (e : string * string * Q) :
  Ascii.eqb "," c = false ->
  has_char c (fst (fst e)) = false -> has_char c (snd (fst e)) = false ->
  has_char c (fmt_float (snd e)) = false ->
  has_char c (edge_body fmt_float e) = false.
Proof.
  intros Hc Hs Ht Hf. unfold edge_body.
  rewrite !has_char_app, Hs, Ht, Hf. cbn [has_char]. rewrite Hc. reflexivity.
Qed.

(** The first line gives the flag back. *)
Lemma header_flag (d : bool) :
  split ":" (strip (("directed:" ++ bool_str d) ++ nl))
  = ["directed"; bool_str d] /\
  String.eqb (bool_str d) "True" = d.
Proof. destruct d; split; reflexivity. Qed.

(** An edge line is read as the call [add_edge source target weight]. *)
Lemma load_edge_line (h : SparseGraph) (e : string * string * Q) :
  writable fmt_float parse_float e ->
  load_line parse_float h (edge_body fmt_float e ++ nl)
  = add_edge h (fst (fst e)) (snd (fst e)) (snd e).
Proof.
  destruct e as [[s t] w]. unfold writable, plain, no_leading_space, no_trailing_space.
  cbn [fst snd].
  intros ((Hs1 & Hs2 & Hs3) & Hs & (Ht1 & Ht2 & Ht3) & (Hf1 & Hf2 & Hf3) & Hf & Hparse).
  assert (Hstrip : strip (edge_body fmt_float (s, t, w) ++ nl)
                   = s ++ String "," (t ++ String "," (fmt_float w))).
  { unfold strip, edge_body. cbn [fst snd]. rewrite rstrip_line_feed.
    change (s ++ "," ++ t ++ "," ++ fmt_float w)
      with (s ++ String "," (t ++ String "," (fmt_float w))).
    replace (s ++ String "," (t ++ String "," (fmt_float w)))
      with ((s ++ String "," t) ++ String "," (fmt_float w))
      by (rewrite append_assoc; reflexivity).
    rewrite rstrip_keeps; [| apply rstrip_after_comma; exact Hf | discriminate].
    rewrite append_assoc.
    change (String "," t ++ String "," (fmt_float w))
      with (String "," (t ++ String "," (fmt_float w))).
    apply lstrip_keeps. exact Hs. }
  unfold load_line. rewrite Hstrip.
  assert (Hne : String.eqb (s ++ String "," (t ++ String "," (fmt_float w))) "" = false)
    by (destruct s; reflexivity).
  rewrite Hne. cbn [negb].
  rewrite split_app by exact Hs1. rewrite split_app by exact Ht1.
  rewrite split_none by exact Hf1.
  cbn [length Nat.leb Nat.ltb nth]. rewrite Hparse. reflexivity.
Qed.

(** Stored pairs against [get_edges] and [get_nodes]. *)
Lemma in_get_edges (g : SparseGraph) (s t : string) (w : Q) :
  base_wf g -> (In (s, t, w) (get_edges g) <-> edge_weight g s t = Some w).
Proof.
  intros (Hkeys & Hinner & _ & _). unfold get_edges, edge_weight.
  rewrite in_flat_map. split.
  - intros ([s' nb] & Hin & Hmap). cbn [fst snd] in Hmap.
    apply in_map_iff in Hmap. destruct Hmap as ([t' w'] & Heq & Hin').
    cbn [fst snd] in Heq. injection Heq as -> -> ->.
    apply (get_In _ _ _ Hkeys) in Hin. rewrite Hin.
    apply get_In; [apply (Hinner s); exact Hin | exact Hin'].
  - destruct (get (_adjacency_list g) s) as [nb |] eqn:Hget; [| discriminate].
    intros Hw. exists (s, nb). split.
    + apply get_In; assumption.
    + cbn [fst snd]. apply in_map_iff. exists (t, w). split; [reflexivity |].
      apply get_In; [apply (Hinner s); exact Hget | exact Hw].
Qed.

Lemma in_get_nodes (g : SparseGraph) (x : string) :
  In x (get_nodes g) <-> mem (_adjacency_list g) x = true.
Proof. unfold get_nodes. symmetry. apply mem_true_iff. Qed.

Lemma source_is_node (g : SparseGraph) (s t : string) (w : Q) :
  edge_weight g s t = Some w -> mem (_adjacency_list g) s = true.
Proof.
  unfold edge_weight, mem. destruct (get (_adjacency_list g) s); [reflexivity | discriminate].
Qed.

(** Loading the edge lines of [g] into a graph [h] that stores nothing
    foreign to [g]. *)
Lemma load_edges (g : SparseGraph) (L : list (string * string * Q)) :
  wf g ->
  (forall e, In e L ->
     writable fmt_float parse_float e /\
     edge_weight g (fst (fst e)) (snd (fst e)) = Some (snd e)) ->
  forall h,
    wf h -> directed h = directed g -> sub_graph h g ->
    exists h',
      fold_left (fun acc line => graph <- acc ;; load_line parse_float graph line)
        (map (fun e => edge_body fmt_float e ++ nl) L) (Ok h) = Ok h' /\
      wf h' /\ directed h' = directed g /\ sub_graph h' g /\
      (forall s t w, edge_weight h s t = Some w \/ In (s, t, w) L ->
                     edge_weight h' s t = Some w) /\
      (forall x, mem (_adjacency_list h') x = true <->
                 mem (_adjacency_list h) x = true \/
                 exists s t w, In (s, t, w) L /\ (x = s \/ x = t)).
Proof.
  intros [Hgbase Hgmir]. induction L as [| [[s t] w] L IH]; intros HL h Hwf Hdir Hsub.
  - exists h. cbn [map fold_left].
    split; [reflexivity |]. split; [exact Hwf |]. split; [exact Hdir |].
    split; [exact Hsub |]. split.
    + intros s t w [Hw | []]. exact Hw.
    + intros x. split.
      * intros Hm. left. exact Hm.
      * intros [Hm | (s & t & w & [] & _)]. exact Hm.
  - cbn [map fold_left bind].
    destruct (HL (s, t, w) (or_introl eq_refl)) as [Hwr Hg]. cbn [fst snd] in Hg.
    rewrite (load_edge_line h Hwr). cbn [fst snd].
    destruct (@add_edge_spec h s t w Hwf) as (h1 & Hadd & Hwf1 & Hd1 & _ & Hw1 & Hm1).
    rewrite Hadd.
    assert (Hcase : forall s' t' w',
               edge_weight h1 s' t' = Some w' ->
               (s' = s /\ t' = t /\ w' = w) \/
               (directed g = false /\ s' = t /\ t' = s /\ w' = w) \/
               edge_weight h s' t' = Some w').
    { intros s' t' w'. rewrite Hw1, Hdir.
      destruct (String.eqb s' s && String.eqb t' t) eqn:H1.
      - apply andb_true_iff in H1. destruct H1 as [E1 E2].
        apply String.eqb_eq in E1, E2. intros Heq. left.
        split; [exact E1 | split; [exact E2 | congruence]].
      - destruct (negb (directed g) && (String.eqb s' t && String.eqb t' s)) eqn:H2.
        + apply andb_true_iff in H2. destruct H2 as [Hund E].
          apply negb_true_iff in Hund. apply andb_true_iff in E.
          destruct E as [E1 E2]. apply String.eqb_eq in E1, E2.
          intros Heq. right. left.
          split; [exact Hund | split; [exact E1 | split; [exact E2 | congruence]]].
        + intros Hold. right. right. exact Hold. }
    assert (Hsub1 : sub_graph h1 g).
    { intros s' t' w' Hw'.
      destruct (Hcase s' t' w' Hw') as [(-> & -> & ->) | [(Hund & -> & -> & ->) | Hold]].
      - exact Hg.
      - apply (Hgmir Hund). exact Hg.
      - apply Hsub. exact Hold. }
    assert (Hmono : forall s' t' w',
               edge_weight h s' t' = Some w' -> edge_weight h1 s' t' = Some w').
    { intros s' t' w' Hold. pose proof (Hsub s' t' w' Hold) as Hing.
      rewrite Hw1, Hdir.
      destruct (String.eqb s' s && String.eqb t' t) eqn:H1.
      - apply andb_true_iff in H1. destruct H1 as [E1 E2].
        apply String.eqb_eq in E1, E2. subst s' t'. congruence.
      - destruct (negb (directed g) && (String.eqb s' t && String.eqb t' s)) eqn:H2;
          [| exact Hold].
        apply andb_true_iff in H2. destruct H2 as [Hund E].
        apply negb_true_iff in Hund. apply andb_true_iff in E.
        destruct E as [E1 E2]. apply String.eqb_eq in E1, E2. subst s' t'.
        pose proof (Hgmir Hund _ _ _ Hg). congruence. }
    assert (Hnew : edge_weight h1 s t = Some w).
    { rewrite Hw1, !String.eqb_refl. reflexivity. }
    destruct (IH (fun e He => HL e (or_intror He)) h1 Hwf1 (eq_trans Hd1 Hdir) Hsub1)
      as (h' & Hfold & Hwf' & Hd' & Hsub' & Hin' & Hm').
    exists h'. split; [exact Hfold |]. split; [exact Hwf' |].
    split; [exact Hd' |]. split; [exact Hsub' |]. split.
    + intros s' t' w' [Hold | [Heq | Hin]].
      * apply Hin'. left. apply Hmono. exact Hold.
      * injection Heq as <- <- <-. apply Hin'. left. exact Hnew.
      * apply Hin'. right. exact Hin.
    + intros x. rewrite Hm', Hm1. split.
      * intros [Hx | (s' & t' & w' & Hin & Hx)].
        -- apply orb_true_iff in Hx. destruct Hx as [Hx | Hx]; [| left; exact Hx].
           apply orb_true_iff in Hx. right. exists s, t, w.
           split; [left; reflexivity |].
           destruct Hx as [Hx | Hx]; apply String.eqb_eq in Hx; auto.
        -- right. exists s', t', w'. split; [right; exact Hin | exact Hx].
      * intros [Hx | (s' & t' & w' & [Heq | Hin] & Hx)].
        -- left. rewrite Hx. apply orb_true_r.
        -- injection Heq as <- <- <-. left.
           destruct Hx as [-> | ->]; rewrite String.eqb_refl;
             rewrite ?orb_true_r; reflexivity.
        -- right. exists s', t', w'. auto.
Qed.

End WithFormat.

End RoundTrip.

(** C6, as amended.  Take a graph built from the empty graph by [add_node],
    [add_edge] and [remove_edge] calls in which every node has an edge, every
    id is free of commas and line breaks, no source id starts with white
    space, and the text of every weight is free of commas and line breaks,
    does not end with white space and reads back as the weight.  Loading the
    text written by [save_to_file] succeeds and gives a graph with the same
    directedness flag, the same nodes and the same (source, target, weight)
    edges. *)
Theorem save_load_round_trip :
  forall (fmt_float : Q -> string) (parse_float : string -> option Q)
         (directed : bool) (ops : list Graph.op) (g : Graph.SparseGraph),
    Graph.run (Graph.__init__ directed) ops = Ok g ->
    no_isolated_node g ->
    (forall e, In e (Graph.get_edges g) -> writable fmt_float parse_float e) ->
    exists g',
      Graph.load_from_file parse_float (Graph.save_to_file fmt_float g) = Ok g' /\
      Graph.directed g' = Graph.directed g /\
      (forall x, In x (Graph.get_nodes g') <-> In x (Graph.get_nodes g)) /\
      (forall s t w, In (s, t, w) (Graph.get_edges g')
                     <-> In (s, t, w) (Graph.get_edges g)).
Proof.
  intros fmt_float parse_float d ops g Hrun Hnodes Hwritable.
  assert (Hwf : wf g).
  { destruct (@GraphOps.run_wf ops _ (GraphOps.wf_init d)) as (g0 & Hrun0 & Hwf0 & _).
    congruence. }
  set (L := Graph.get_edges g) in *.
  (* the lines of the file *)
  assert (Hlines :
    Graph.readlines (Graph.save_to_file fmt_float g)
    = map (fun b => (b ++ Graph.nl)%string)
        (header_bodies g ++ map (edge_body fmt_float) L)).
  { rewrite RoundTrip.save_as_lines. apply TextFacts.readlines_unlines.
    - apply Forall_app. split; [apply RoundTrip.header_has_no_break; auto |].
      apply Forall_forall. intros b Hb. apply in_map_iff in Hb.
      destruct Hb as (e & <- & He).
      destruct (Hwritable e He) as ((_ & Hs & _) & _ & (_ & Ht & _) & (_ & Hf & _) & _).
      apply RoundTrip.edge_body_has_no; auto.
    - apply Forall_app. split; [apply RoundTrip.header_has_no_break; auto |].
      apply Forall_forall. intros b Hb. apply in_map_iff in Hb.
      destruct Hb as (e & <- & He).
      destruct (Hwritable e He) as ((_ & _ & Hs) & _ & (_ & _ & Ht) & (_ & _ & Hf) & _).
      apply RoundTrip.edge_body_has_no; auto. }
  unfold Graph.load_from_file. rewrite Hlines.
  unfold header_bodies. cbn [app map skipn].
  destruct (RoundTrip.header_flag (Graph.directed g)) as [Hsplit Hflag].
  rewrite Hsplit, Hflag, map_map.
  (* the edge lines, one call of add_edge each *)
  destruct Hwf as [Hbase Hmir].
  destruct (@RoundTrip.load_edges fmt_float parse_float g L (conj Hbase Hmir))
    with (h := Graph.__init__ (Graph.directed g))
    as (g' & Hfold & Hwf' & Hd' & Hsub' & Hin' & Hm').
  { intros [[s t] w] He. split; [apply Hwritable; exact He |].
    apply RoundTrip.in_get_edges; assumption. }
  { apply GraphOps.wf_init. }
  { reflexivity. }
  { intros s t w. discriminate. }
  exists g'. split; [exact Hfold |]. split; [exact Hd' |]. split.
  - intros x. rewrite !RoundTrip.in_get_nodes, Hm'. split.
    + intros [Hx | (s & t & w & He & Hx)]; [discriminate |].
      apply RoundTrip.in_get_edges in He; [| exact Hbase].
      destruct Hx as [-> | ->].
      * apply (RoundTrip.source_is_node _ _ _ He).
      * destruct Hbase as (_ & _ & _ & Htargets).
        apply (Htargets s t). congruence.
    + intros Hx. right. apply Hnodes. apply RoundTrip.in_get_nodes. exact Hx.
  - intros s t w. destruct Hwf' as [Hbase' _]. unfold L in *.
    rewrite (RoundTrip.in_get_edges _ _ _ Hbase').
    rewrite (RoundTrip.in_get_edges _ _ _ Hbase). split.
    + apply Hsub'.
    + intros Hw. apply Hin'. right.
      apply RoundTrip.in_get_edges; assumption.
Qed.

(** The hypotheses of [save_load_round_trip] hold on [example_graph], with
    whole-number weights written as Python writes them. *)
Lemma save_load_round_trip_example :
  exists g',
    Graph.load_from_file whole_parse (Graph.save_to_file whole_fmt example_graph)
    = Ok g' /\
    Graph.directed g' = Graph.directed example_graph /\
    (forall x, In x (Graph.get_nodes g') <-> In x (Graph.get_nodes example_graph)) /\
    (forall s t w, In (s, t, w) (Graph.get_edges g')
                   <-> In (s, t, w) (Graph.get_edges example_graph)).
Proof.
  apply (@save_load_round_trip whole_fmt whole_parse false example_ops example_graph).
  - vm_compute. reflexivity.
  - intros x Hx. cbn in Hx.
    destruct Hx as [<- | [<- | [<- | []]]].
    + exists "a", "b", 2%Q. cbn. auto.
    + exists "a", "b", 2%Q. cbn. auto.
    + exists "c", "c", 1%Q. cbn. intuition.
  - intros e He. cbn in He.
    destruct He as [<- | [<- | [<- | [<- | [<- | []]]]]];
      repeat split; vm_compute; reflexivity.
Defined.

(** C6 (counterexample).  A graph with the single node [a] and no edge is
    written as three header lines; loading them gives the empty graph, which
    has no node [a]. *)
Lemma save_load_loses_isolated_node :
  exists g g',
    Graph.run (Graph.__init__ true) [Graph.AddNode "a"] = Ok g /\
    Graph.load_from_file whole_parse (Graph.save_to_file whole_fmt g) = Ok g' /\
    Graph.get_nodes g = ["a"] /\
    Graph.get_nodes g' = [] /\
    ~ (forall x, In x (Graph.get_nodes g') <-> In x (Graph.get_nodes g)).
Proof.
  eexists. eexists.
  split; [reflexivity |].
  split; [vm_compute; reflexivity |].
  split; [reflexivity |]. split; [reflexivity |].
  intros Hsame. destruct (Hsame "a") as [_ Hback].
  apply Hback. left. reflexivity.
Qed.

(* ------------------------------------------------------------------ *)
(** * From a graph to its scores                                       *)
(* ------------------------------------------------------------------ *)

Module Pipeline.
Import Py Np Graph GraphViews.

(** The sparse view of a graph with non-negative weights is a non-negative
    square array. *)
Lemma sparse_view_nonneg (g : SparseGraph) :
  wf g -> indexed g ->
  Forall (fun e => 0 <= snd e)%Q (get_edges g) ->
  exists S,
    get_sparse_adjacency_matrix g = Ok (S, get_nodes g) /\
    square (length (get_nodes g)) S /\ nonneg_matrix S.
Proof.
  intros Hwf Hidx Hpos.
  destruct (GraphMatrix.adjacency_views Hwf Hidx) as (M & S & _ & HS & _ & Hsq & Hent).
  exists S. split; [exact HS |]. split; [exact Hsq |].
  unfold nonneg_matrix. apply Forall_forall. intros row Hrow.
  destruct (In_nth _ _ [] Hrow) as (i & Hi & <-).
  assert (Hi' : (i < length (get_nodes g))%nat).
  { pose proof (proj1 Hsq) as Hl. unfold matrix, vec in *. lia. }
  apply Forall_forall. intros x Hx.
  destruct (In_nth _ _ 0%Q Hx) as (j & Hj & <-).
  assert (Hj' : (j < length (get_nodes g))%nat).
  { pose proof (StepFacts.square_row Hsq Hi') as Hl. unfold matrix, vec in *. lia. }
  destruct (Hent i j Hi' Hj') as [_ H2]. rewrite H2. unfold weight_at.
  destruct (edge_weight g _ _) as [w |] eqn:Hw; [| apply Qle_refl].
  destruct Hwf as [Hbase _]. apply (RoundTrip.in_get_edges _ _ _ Hbase) in Hw.
  rewrite Forall_forall in Hpos. apply (Hpos _ Hw).
Qed.

End Pipeline.

(** X20.  The graph and the engine compose: for a graph built by calls that
    has a node and only non-negative weights, passing the result of
    [get_sparse_adjacency_matrix] to [compute_sparse_page_rank] of an engine
    with the Uniform strategy and a damping factor in [0, 1] returns scores
    without an exception, one per node, and they form a probability
    distribution whenever the personalization vector does. *)
Theorem page_rank_of_graph_is_distribution :
  forall (e : Engine.PowerIterationEngine) (directed : bool)
         (ops : list Graph.op) (g : Graph.SparseGraph)
         (suspicious_nodes base_weights : option (dict string Q)),
    let node_ids := Graph.get_nodes g in
    Graph.run (Graph.__init__ directed) ops = Ok g ->
    (0 < length node_ids)%nat ->
    Forall (fun edge => 0 <= snd edge)%Q (Graph.get_edges g) ->
    Engine.dangling_strategy e = UniformDanglingStrategy ->
    (0 <= Engine.damping_factor e <= 1)%Q ->
    distribution (length node_ids)
      (compute_personalization_vector (Engine.personalization_strategy e)
         node_ids suspicious_nodes base_weights) ->
    exists S r,
      GraphViews.get_sparse_adjacency_matrix g = Ok (S, node_ids) /\
      snd (Engine.compute_sparse_page_rank e node_ids S None
             suspicious_nodes base_weights) = Ok (Engine.score_dict node_ids r) /\
      distribution (length node_ids) r.
Proof.
  intros e d ops g susp base node_ids Hrun Hn Hpos Hstrategy Halpha Hp.
  destruct (GraphIndex.reached _ _ Hrun) as (Hwf & Hidx & _).
  destruct (Pipeline.sparse_view_nonneg Hwf Hidx Hpos) as (S & HS & Hsq & Hnn).
  destruct (@EngineMore.sparse_distribution e node_ids S None susp base
              Hstrategy Halpha Hn Hsq Hnn Hp) as (r & Hr & _ & Hdist).
  exists S, r. auto.
Qed.

(** X20 (witness): the example graph under the default engine. *)
Lemma page_rank_of_graph_is_distribution_example :
  let node_ids := Graph.get_nodes example_graph in
  exists S r,
    GraphViews.get_sparse_adjacency_matrix example_graph = Ok (S, node_ids) /\
    snd (Engine.compute_sparse_page_rank (example_engine 100) node_ids S None
           None None) = Ok (Engine.score_dict node_ids r) /\
    distribution (length node_ids) r.
Proof.
  apply (@page_rank_of_graph_is_distribution (example_engine 100) false
           example_ops example_graph None None).
  - vm_compute. reflexivity.
  - cbn. lia.
  - repeat constructor; discriminate.
  - reflexivity.
  - split; discriminate.
  - split; [reflexivity | split; [repeat constructor; discriminate | reflexivity]].
Defined.

(* ------------------------------------------------------------------ *)
(** * The dictionary of scores                                         *)
(* ------------------------------------------------------------------ *)

Module ScoreFacts.
Import Py DictFacts.

(** A comprehension over pairwise distinct keys keeps every pair, in
    order. *)
Lemma fold_set_distinct {K V : Type} `{EqKey K} (kvs : list (K * V)) :
  forall acc : dict K V,
    NoDup (keys acc ++ keys kvs) ->
    fold_left (fun d kv => set d (fst kv) (snd kv)) kvs acc = acc ++ kvs.
Proof.
  induction kvs as [| [k v] kvs IH]; intros acc Hnd; cbn [fold_left fst snd].
  - rewrite app_nil_r. reflexivity.
  - cbn [keys map fst] in Hnd.
    assert (Hfresh : mem acc k = false).
    { apply mem_false_iff. intros Hin. apply NoDup_remove_2 in Hnd. apply Hnd.
      apply in_or_app. left. exact Hin. }
    rewrite (GraphIndex.set_new _ _ _ Hfresh), IH.
    + rewrite <- app_assoc. reflexivity.
    + rewrite GraphMatrix.keys_app. cbn [keys map fst]. rewrite <- app_assoc.
      exact Hnd.
Qed.

Lemma score_dict_distinct (node_ids : list string) (r : Np.vec) :
  NoDup node_ids -> length r = length node_ids ->
  Engine.score_dict node_ids r = combine node_ids r.
Proof.
  intros Hnd Hlen. unfold Engine.score_dict, dict_of.
  rewrite fold_set_distinct; [reflexivity |]. cbn [keys map app].
  rewrite GraphIndex.keys_combine by congruence. exact Hnd.
Qed.

End ScoreFacts.

(** X23.  With [n] pairwise distinct node ids, under the hypotheses that
    make the score vector a distribution (the Uniform strategy, an [n] by [n]
    adjacency with weights of the same shape if any, a non-negative weighted
    adjacency, a damping factor in [0, 1], a personalization vector that is
    a distribution), the dictionary that the sparse path returns has exactly
    the node ids as keys, in the order given, and its values are
    non-negative and sum to 1. *)
Theorem sparse_scores_one_per_node :
  forall (e : Engine.PowerIterationEngine) (node_ids : list string)
         (sparse_adjacency : matrix) (weights : option matrix)
         (suspicious_nodes base_weights : option (dict string Q)),
    let n := length node_ids in
    let weighted_adj :=
      match weights with
      | Some w => mmul sparse_adjacency w
      | None => sparse_adjacency
      end in
    NoDup node_ids ->
    Engine.dangling_strategy e = UniformDanglingStrategy ->
    (0 <= Engine.damping_factor e <= 1)%Q ->
    (0 < n)%nat -> operands_square n sparse_adjacency weights ->
    nonneg_matrix weighted_adj ->
    distribution n
      (compute_personalization_vector (Engine.personalization_strategy e)
         node_ids suspicious_nodes base_weights) ->
    exists scores,
      snd (Engine.compute_sparse_page_rank e node_ids sparse_adjacency weights
             suspicious_nodes base_weights) = Ok scores /\
      keys scores = node_ids /\
      Forall (fun kv => 0 <= snd kv)%Q scores /\
      (vsum (map snd scores) == 1)%Q.
Proof.
  intros e node_ids A weights susp base n W Hnd Hstrategy Halpha Hn Hshape HW Hp.
  assert (Hsq : square n W) by (apply EngineMore.square_weighted; exact Hshape).
  destruct (@EngineMore.sparse_distribution e node_ids A weights susp base
              Hstrategy Halpha Hn Hsq HW Hp) as (r & Hr & _ & Hlen & Hnn & Hsum).
  exists (combine node_ids r).
  rewrite <- (@ScoreFacts.score_dict_distinct node_ids r Hnd Hlen) at 1.
  split; [exact Hr |]. split; [apply GraphIndex.keys_combine; congruence |].
  assert (Hsnd : map snd (combine node_ids r) = r).
  { clear - Hlen. revert r Hlen. generalize node_ids as ids.
    induction ids as [| k ids IH]; intros [| x r] Hlen; cbn in *;
      try reflexivity; try discriminate.
    f_equal. apply IH. lia. }
  split; [| rewrite Hsnd; exact Hsum].
  apply Forall_forall. intros kv Hin.
  assert (Hin' : In (snd kv) r) by (rewrite <- Hsnd; apply in_map; exact Hin).
  rewrite Forall_forall in Hnn. apply Hnn. exact Hin'.
Qed.

(** X23 (witness): the two-node cycle. *)
Lemma sparse_scores_one_per_node_cycle2 :
  exists scores,
    snd (Engine.compute_sparse_page_rank (example_engine 100) ["a"; "b"]
           cycle2_adjacency None None None) = Ok scores /\
    keys scores = ["a"; "b"] /\
    Forall (fun kv => 0 <= snd kv)%Q scores /\
    (vsum (map snd scores) == 1)%Q.
Proof.
  apply (@sparse_scores_one_per_node (example_engine 100) ["a"; "b"]
           cycle2_adjacency None None None).
  - repeat constructor; cbn; intuition discriminate.
  - reflexivity.
  - split; discriminate.
  - cbn. lia.
  - split; [split; [reflexivity | repeat constructor] | exact I].
  - repeat constructor; discriminate.
  - split; [reflexivity | split; [repeat constructor; discriminate | reflexivity]].
Defined.

(* ------------------------------------------------------------------ *)
(** * What [load_from_file] does not read                              *)
(* ------------------------------------------------------------------ *)

(** X27.  [load_from_file] never reads the second and the third line of the
    file, where [save_to_file] writes the numbers of nodes and of edges: two
    texts that differ only in these two lines load alike, to the same graph
    or to the same exception.  (Every line is closed by a line feed and
    holds no other line break.) *)
Theorem load_from_file_ignores_counts :
  forall (parse_float : string -> option Q)
         (first second third second' third' : string) (rest : list string),
    Forall (fun b => has_char Graph.LF b = false /\ has_char Graph.CR b = false)
      (first :: second :: third :: second' :: third' :: rest) ->
    Graph.load_from_file parse_float (unlines (first :: second :: third :: rest))
    = Graph.load_from_file parse_float (unlines (first :: second' :: third' :: rest)).
Proof.
  intros parse_float l0 l1 l2 l1' l2' rest Hplain.
  assert (Hsplit : Forall (fun b => has_char Graph.LF b = false)
                     (l0 :: l1 :: l2 :: l1' :: l2' :: rest) /\
                   Forall (fun b => has_char Graph.CR b = false)
                     (l0 :: l1 :: l2 :: l1' :: l2' :: rest)).
  { split; apply Forall_forall; intros b Hb;
      rewrite Forall_forall in Hplain; apply (Hplain b Hb). }
  destruct Hsplit as [Hlf Hcr].
  inversion Hlf as [| ? ? H0 Hlf1]; subst. inversion Hlf1 as [| ? ? H1 Hlf2]; subst.
  inversion Hlf2 as [| ? ? H2 Hlf3]; subst. inversion Hlf3 as [| ? ? H3 Hlf4]; subst.
  inversion Hlf4 as [| ? ? H4 Hlf5]; subst.
  inversion Hcr as [| ? ? K0 Hcr1]; subst. inversion Hcr1 as [| ? ? K1 Hcr2]; subst.
  inversion Hcr2 as [| ? ? K2 Hcr3]; subst. inversion Hcr3 as [| ? ? K3 Hcr4]; subst.
  inversion Hcr4 as [| ? ? K4 Hcr5]; subst.
  unfold Graph.load_from_file.
  rewrite !TextFacts.readlines_unlines by (repeat constructor; assumption).
  reflexivity.
Qed.

(** X27 (witness): a file with wrong counts against the file with the right
    ones. *)
Lemma load_from_file_ignores_counts_example :
  Graph.load_from_file whole_parse
    (unlines ["directed:True"; "nodes:99"; "edges:0"; "a,b,2.0"])
  = Graph.load_from_file whole_parse
      (unlines ["directed:True"; "nodes:2"; "edges:1"; "a,b,2.0"]).
Proof.
  apply (@load_from_file_ignores_counts whole_parse
           "directed:True" "nodes:99" "edges:0" "nodes:2" "edges:1" ["a,b,2.0"]).
  repeat constructor.
Defined.
